(** * RlSmartGrid: substrate feature extraction and sequential node mapping

    A shallow embedding of [featureExtraction/node_feature_ext.py],
    [node_policy_net.py] (function [map_virtual_node]) and [main.py], and the
    properties of the mapping engine proved or refuted on it.

    The class [PolicyNetwork] is not embedded: [map_virtual_node] takes its
    [policy_net] as an argument, and so does the embedding. The substrate
    that [main] loads from a file and the request that it spells out are
    arguments of the embedded [main]; its [print] calls are left out.

    Conventions of the embedding:
    - Python [int] is [Z]; list indices and node indices are [nat]: the
      index that [int(link['source'].split('_')[1])] reads off a link is
      taken to be a natural number, so that identifiers with a sign, which
      Python would use to index a list from its end, are not covered;
    - the scores of the policy, their sum, the weights and the samples of
      [random.random()] are Python [float]s, the binary64 numbers of IEEE
      754: they are the primitive [float] of Rocq with its operations,
      rounding, infinities and NaN included; [/] on floats raises
      [ZeroDivisionError] on a divisor equal to [0.0] and otherwise is the
      IEEE division; [sum], [itertools.accumulate] and [random.choices] are
      those of CPython 3.11;
    - the two averages of the feature extraction, each a single division of
      one [int] by another, are kept as exact quotients in [Q];
    - a Python list indexed out of range raises [IndexError];
    - code that can raise returns a [result]; [while] loops take fuel and
      their termination within that fuel is proved;
    - the call [random.random()] reads the next sample of an explicit
      stream that is threaded through the session. *)

From Stdlib Require Import ZArith QArith Lia Floats.
From stdpp Require Import base option list gmap strings pretty.

Open Scope Z_scope.

(** ** Outcomes *)

Inductive exn : Type :=
  IndexError | ValueError | ZeroDivisionError | RuntimeError.

Inductive result (A : Type) : Type :=
| Ok (a : A)
| Raise (e : exn)
| OutOfFuel.

Arguments Ok {A} a.
Arguments Raise {A} e.
Arguments OutOfFuel {A}.

#[global] Instance exn_eq_dec : EqDecision exn.
Proof. solve_decision. Defined.

#[global] Instance result_ret : MRet result := @Ok.

#[global] Instance result_bind : MBind result := fun A B f m =>
  match m with
  | Ok a => f a
  | Raise e => Raise e
  | OutOfFuel => OutOfFuel
  end.

Fixpoint mapM {A B : Type} (f : A -> result B) (l : list A) : result (list B) :=
  match l with
  | [] => Ok []
  | a :: l' => b ← f a; bs ← mapM f l'; Ok (b :: bs)
  end.

(** [l[i]] and [l[i] = x] on a Python list. *)
Definition getitem {A : Type} (l : list A) (i : nat) : result A :=
  match l !! i with
  | Some x => Ok x
  | None => Raise IndexError
  end.

Definition setitem {A : Type} (l : list A) (i : nat) (x : A) : result (list A) :=
  match l !! i with
  | Some _ => Ok (<[i := x]> l)
  | None => Raise IndexError
  end.

(** [l[i] += v] *)
Definition iadd (l : list Z) (i : nat) (v : Z) : result (list Z) :=
  x ← getitem l i; setitem l i (x + v).

(** Python's [sum] on integers and on floats: a left fold from [0]; on
    floats the first addition is [0.0 + x]. *)
Definition sum_Z (l : list Z) : Z := foldl Z.add 0 l.
Definition sum_float (l : list float) : float := foldl PrimFloat.add 0%float l.

(** ** Data model (the JSON objects of [physical_network.json] and of a VNR) *)

(** A physical node; [node_id] is the key ['id']. *)
Record physical_node : Type := {
  node_id : string;
  cpu_capacity : Z;
  security_level : Z
}.

(** A physical link. [source] and [target] hold the node index that the
    code extracts with [int(link['source'].split('_')[1])], a natural
    number. *)
Record physical_link : Type := {
  source : nat;
  target : nat;
  bandwidth : Z;
  delay : Z
}.

(** A virtual node; [node] is the key ['node'] (its name). *)
Record virtual_node : Type := {
  node : string;
  cpu_req : Z;
  safety_req : Z
}.

(** The per-node feature dictionary built by [get_node_features_matrix]. *)
Record node_feature : Type := {
  Node : string;
  CPU_Resources : Z;
  Adjacent_Bandwidth : Z;
  Distance_Correlation : Q;
  Time_Correlation : Q;
  Security : Z
}.

(** [physical_nodes[i]['cpu_capacity'] = c] *)
Definition set_cpu_capacity (n : physical_node) (c : Z) : physical_node :=
  {| node_id := node_id n; cpu_capacity := c; security_level := security_level n |}.

(** [node_features[i]['CPU Resources'] = c] *)
Definition set_CPU_Resources (f : node_feature) (c : Z) : node_feature :=
  {| Node := Node f; CPU_Resources := c;
     Adjacent_Bandwidth := Adjacent_Bandwidth f;
     Distance_Correlation := Distance_Correlation f;
     Time_Correlation := Time_Correlation f;
     Security := Security f |}.

(** ** FeatureExtractor *)

Module FeatureExtractor.

(** [build_adjacency_list]: a [defaultdict(list)], read with default [[]]. *)
Definition neighbors (adjacency : gmap nat (list nat)) (n : nat) : list nat :=
  default [] (adjacency !! n).

Definition adjacency_append (adjacency : gmap nat (list nat)) (a b : nat)
  : gmap nat (list nat) :=
  <[a := neighbors adjacency a ++ [b]]> adjacency.

Definition build_adjacency_list (physical_links : list physical_link)
  : gmap nat (list nat) :=
  foldl (fun adjacency link =>
           adjacency_append
             (adjacency_append adjacency (source link) (target link))
             (target link) (source link))
        ∅ physical_links.

Definition get_node_computing_resources (physical_nodes : list physical_node)
  : list Z :=
  map cpu_capacity physical_nodes.

Fixpoint adj_bandwidth_loop (physical_links : list physical_link)
    (adj_bandwidth : list Z) : result (list Z) :=
  match physical_links with
  | [] => Ok adj_bandwidth
  | link :: rest =>
      adj_bandwidth ← iadd adj_bandwidth (source link) (bandwidth link);
      adj_bandwidth ← iadd adj_bandwidth (target link) (bandwidth link);
      adj_bandwidth_loop rest adj_bandwidth
  end.

Definition get_adjacent_link_bandwidth (physical_nodes : list physical_node)
    (physical_links : list physical_link) : result (list Z) :=
  let num_nodes := length physical_nodes in
  adj_bandwidth_loop physical_links (replicate num_nodes 0).

(** The breadth-first search inside [get_distance_correlation]. *)
Record bfs_state : Type := {
  visited : list bool;
  distance : list Z;
  queue : list nat
}.

(** [for neighbor in adjacency[current]: ...] *)
Fixpoint visit_neighbors (current : nat) (nbrs : list nat) (st : bfs_state)
  : result bfs_state :=
  match nbrs with
  | [] => Ok st
  | neighbor :: rest =>
      seen ← getitem (visited st) neighbor;
      if (seen : bool) then visit_neighbors current rest st
      else
        vis ← setitem (visited st) neighbor true;
        d ← getitem (distance st) current;
        dist ← setitem (distance st) neighbor (d + 1);
        visit_neighbors current rest
          {| visited := vis; distance := dist; queue := queue st ++ [neighbor] |}
  end.

(** [while queue: current = queue.popleft(); ...] *)
Fixpoint bfs_while (fuel : nat) (adjacency : gmap nat (list nat))
    (st : bfs_state) : result bfs_state :=
  match queue st with
  | [] => Ok st
  | current :: q =>
      match fuel with
      | O => OutOfFuel
      | S fuel' =>
          st' ← visit_neighbors current (neighbors adjacency current)
                 {| visited := visited st; distance := distance st; queue := q |};
          bfs_while fuel' adjacency st'
      end
  end.

(** The state built before the [while] loop, for start node [k]. *)
Definition bfs_init (num_nodes k : nat) : result bfs_state :=
  vis ← setitem (replicate num_nodes false) k true;
  Ok {| visited := vis; distance := replicate num_nodes 0; queue := [k] |}.

(** The search from [k]; every node enters the queue at most once, so
    [num_nodes] iterations are enough (lemma [bfs_while_fuel]). *)
Definition bfs (num_nodes : nat) (adjacency : gmap nat (list nat)) (k : nat)
  : result bfs_state :=
  st ← bfs_init num_nodes k;
  bfs_while num_nodes adjacency st.

(** [[distance[mapped_node] for mapped_node in mapped_nodes if mapped_node != k]] *)
Fixpoint mapped_distances (distance : list Z) (k : nat) (mapped_nodes : list nat)
  : result (list Z) :=
  match mapped_nodes with
  | [] => Ok []
  | mapped_node :: rest =>
      if decide (mapped_node ≠ k) then
        d ← getitem distance mapped_node;
        ds ← mapped_distances distance k rest;
        Ok (d :: ds)
      else mapped_distances distance k rest
  end.

(** [sum(mapped_distances) / len(mapped_distances)], or [0.0]. *)
Definition avg_distance (mapped_distances : list Z) : Q :=
  match mapped_distances with
  | [] => 0%Q
  | _ :: _ =>
      (inject_Z (sum_Z mapped_distances)
       / inject_Z (Z.of_nat (length mapped_distances)))%Q
  end.

(** The body of [for k in range(num_nodes)]. *)
Definition distance_corr_of (num_nodes : nat) (adjacency : gmap nat (list nat))
    (mapped_nodes : list nat) (k : nat) : result Q :=
  st ← bfs num_nodes adjacency k;
  ds ← mapped_distances (distance st) k mapped_nodes;
  Ok (avg_distance ds).

Definition get_distance_correlation (physical_nodes : list physical_node)
    (adjacency : gmap nat (list nat)) (mapped_nodes : list nat)
  : result (list Q) :=
  let num_nodes := length physical_nodes in
  mapM (distance_corr_of num_nodes adjacency mapped_nodes) (seq 0 num_nodes).

Fixpoint time_corr_loop (physical_links : list physical_link)
    (total_delay link_count : list Z) : result (list Z * list Z) :=
  match physical_links with
  | [] => Ok (total_delay, link_count)
  | link :: rest =>
      total_delay ← iadd total_delay (source link) (delay link);
      total_delay ← iadd total_delay (target link) (delay link);
      link_count ← iadd link_count (source link) 1;
      link_count ← iadd link_count (target link) 1;
      time_corr_loop rest total_delay link_count
  end.

Definition get_time_correlation (physical_nodes : list physical_node)
    (physical_links : list physical_link) : result (list Q) :=
  let num_nodes := length physical_nodes in
  '(total_delay, link_count) ←
    time_corr_loop physical_links (replicate num_nodes 0) (replicate num_nodes 0);
  mapM (fun i =>
          c ← getitem link_count i;
          if 0 <? c then
            t ← getitem total_delay i;
            Ok (inject_Z t / inject_Z c)%Q
          else Ok 0%Q)
       (seq 0 num_nodes).

Definition get_node_security (physical_nodes : list physical_node) : list Z :=
  map security_level physical_nodes.

Definition get_node_features_matrix (physical_nodes : list physical_node)
    (physical_links : list physical_link) (mapped_nodes : list nat)
  : result (list node_feature) :=
  let cpu_resources := get_node_computing_resources physical_nodes in
  adj_bandwidth ← get_adjacent_link_bandwidth physical_nodes physical_links;
  let security := get_node_security physical_nodes in
  let adjacency := build_adjacency_list physical_links in
  distance_corr ← get_distance_correlation physical_nodes adjacency mapped_nodes;
  time_corr ← get_time_correlation physical_nodes physical_links;
  mapM (fun idx =>
          c ← getitem cpu_resources idx;
          b ← getitem adj_bandwidth idx;
          d ← getitem distance_corr idx;
          t ← getitem time_corr idx;
          s ← getitem security idx;
          Ok {| Node := "node_" +:+ pretty idx;
                CPU_Resources := c;
                Adjacent_Bandwidth := b;
                Distance_Correlation := d;
                Time_Correlation := t;
                Security := s |})
       (seq 0 (length physical_nodes)).

End FeatureExtractor.

(** ** Randomness: [random.choices]

    The generator is the stream of the values that successive calls of
    [random.random()] return. [Random.choices] follows [choices] of
    CPython's [Lib/random.py], called with
    [weights] and [k = 1]. *)

Definition rng : Type := nat -> float.

Definition random (g : rng) : float * rng := (g O, fun n => g (S n)).

Module Random.

(** [itertools.accumulate]: the running sums. *)
Fixpoint accumulate_from (acc : float) (weights : list float) : list float :=
  match weights with
  | [] => []
  | w :: rest => (acc + w)%float :: accumulate_from (acc + w)%float rest
  end.

Definition accumulate (weights : list float) : list float :=
  match weights with
  | [] => []
  | w :: rest => w :: accumulate_from w rest
  end.

(** [bisect.bisect_right(a, x, lo, hi)]:
    [while lo < hi: mid = (lo + hi) // 2;
       if x < a[mid]: hi = mid  else: lo = mid + 1] *)
Fixpoint bisect (fuel : nat) (a : list float) (x : float) (lo hi : nat)
  : result nat :=
  if (lo <? hi)%nat then
    match fuel with
    | O => OutOfFuel
    | S fuel' =>
        let mid := ((lo + hi) / 2)%nat in
        a_mid ← getitem a mid;
        if (x <? a_mid)%float then bisect fuel' a x lo mid
        else bisect fuel' a x (mid + 1)%nat hi
    end
  else Ok lo.

(** [random.choices(population, weights=weights, k=1)[0]]:
    [total = cum_weights[-1] + 0.0], the two tests of [total], each with its
    [ValueError], then [bisect(cum_weights, random() * total, 0, hi)]. *)
Definition choices (population : list nat) (weights : list float) (g : rng)
  : result (nat * rng) :=
  let n := length population in
  let cum_weights := accumulate weights in
  if decide (length cum_weights ≠ n) then Raise ValueError
  else
    match last cum_weights with
    | None => Raise IndexError
    | Some last_weight =>
        let total := (last_weight + 0)%float in
        if (total <=? 0)%float then Raise ValueError
        else if negb (is_finite total) then Raise ValueError
        else
          let hi := (n - 1)%nat in
          let '(u, g') := random g in
          i ← bisect n cum_weights (u * total)%float 0 hi;
          x ← getitem population i;
          Ok (x, g')
    end.

End Random.

(** ** The mapping decision: [map_virtual_node] in [node_policy_net.py] *)

(** The scoring policy: the composite [policy_net(input_tensor)[0].tolist()],
    from the rows of features to the list of scores, which [tolist] makes
    Python floats. The conversion of the rows to a tensor of 32-bit floats
    belongs to it, and is taken to succeed. *)
Definition policy : Type := list (list Q) -> list float.

(** One row of the tensor built from a feature dictionary. *)
Definition feature_row (feature : node_feature) : list Q :=
  [inject_Z (CPU_Resources feature);
   inject_Z (Adjacent_Bandwidth feature);
   Distance_Correlation feature;
   Time_Correlation feature;
   inject_Z (Security feature)].

(** [for idx, feature in enumerate(node_features): if ... >= requirement: ...] *)
Fixpoint eligible_loop (idx : nat) (node_features : list node_feature)
    (probabilities : list float) (virtual_node_cpu_requirement : Z)
    (eligible_nodes : list nat) (eligible_probs : list float)
  : result (list nat * list float) :=
  match node_features with
  | [] => Ok (eligible_nodes, eligible_probs)
  | feature :: rest =>
      if virtual_node_cpu_requirement <=? CPU_Resources feature then
        p ← getitem probabilities idx;
        eligible_loop (S idx) rest probabilities virtual_node_cpu_requirement
          (eligible_nodes ++ [idx]) (eligible_probs ++ [p])
      else
        eligible_loop (S idx) rest probabilities virtual_node_cpu_requirement
          eligible_nodes eligible_probs
  end.

(** [[prob / total_prob for prob in eligible_probs]] *)
Definition normalize (eligible_probs : list float) (total_prob : float)
  : result (list float) :=
  mapM (fun prob =>
          if (total_prob =? 0)%float then Raise ZeroDivisionError
          else Ok (prob / total_prob)%float)
       eligible_probs.

(** Without a feature row, [torch.tensor(features)] has one dimension and
    [unsqueeze(0)] makes two of them, so that [permute(0, 2, 1)] raises
    torch's [RuntimeError], before the policy is called. *)
Definition map_virtual_node (node_features : list node_feature)
    (policy_net : policy) (virtual_node_cpu_requirement : Z) (g : rng)
  : result (list float * nat * rng) :=
  let features := map feature_row node_features in
  match features with
  | [] => Raise RuntimeError
  | _ :: _ =>
      let probabilities := policy_net features in
      '(eligible_nodes, eligible_probs) ←
        eligible_loop 0 node_features probabilities
          virtual_node_cpu_requirement [] [];
      match eligible_nodes with
      | [] => Raise ValueError
      | _ :: _ =>
          let total_prob := sum_float eligible_probs in
          normalized_probs ← normalize eligible_probs total_prob;
          '(selected_node, g') ←
            Random.choices eligible_nodes normalized_probs g;
          Ok (probabilities, selected_node, g')
      end
  end.

(** ** The session: [main] in [main.py] *)

(** The mutable objects of [main]. *)
Record session : Type := {
  physical_nodes : list physical_node;
  node_features : list node_feature;
  mapped_nodes : list nat;
  mapping_results : list (string * string);
  random_state : rng
}.

(** [cap -= req; if cap < 0: cap = 0] *)
Definition deduct_capacity (cap req : Z) : Z :=
  let cap := cap - req in
  if cap <? 0 then 0 else cap.

(** The body of [for v_node in virtual_network_request['virtual_nodes']],
    with its [try ... except ValueError]. *)
Definition map_step (policy_net : policy) (v_node : virtual_node) (s : session)
  : result session :=
  match map_virtual_node (node_features s) policy_net (cpu_req v_node)
          (random_state s) with
  | Ok (probabilities, selected_node_idx, g') =>
      selected_node ← getitem (physical_nodes s) selected_node_idx;
      let mapping_results' :=
        mapping_results s ++ [(node v_node, node_id selected_node)] in
      let cap := deduct_capacity (cpu_capacity selected_node) (cpu_req v_node) in
      physical_nodes' ←
        setitem (physical_nodes s) selected_node_idx
                (set_cpu_capacity selected_node cap);
      feature ← getitem (node_features s) selected_node_idx;
      node_features' ←
        setitem (node_features s) selected_node_idx
                (set_CPU_Resources feature cap);
      Ok {| physical_nodes := physical_nodes';
            node_features := node_features';
            mapped_nodes := mapped_nodes s ++ [selected_node_idx];
            mapping_results := mapping_results';
            random_state := g' |}
  | Raise ValueError => Ok s
  | Raise e => Raise e
  | OutOfFuel => OutOfFuel
  end.

Fixpoint map_steps (policy_net : policy) (virtual_nodes : list virtual_node)
    (s : session) : result session :=
  match virtual_nodes with
  | [] => Ok s
  | v_node :: rest => s' ← map_step policy_net v_node s; map_steps policy_net rest s'
  end.

(** The state on entry to the loop. *)
Definition init_session (physical_nodes : list physical_node)
    (physical_links : list physical_link) (g : rng) : result session :=
  let mapped_nodes := [] in
  node_features ←
    FeatureExtractor.get_node_features_matrix physical_nodes physical_links
      mapped_nodes;
  Ok {| physical_nodes := physical_nodes;
        node_features := node_features;
        mapped_nodes := mapped_nodes;
        mapping_results := [];
        random_state := g |}.

(** [set(all_virtual_nodes) - set(mapped_virtual_nodes)] *)
Definition unmapped_virtual_nodes (virtual_nodes : list virtual_node)
    (mapping_results : list (string * string)) : gset string :=
  list_to_set (map node virtual_nodes) ∖ list_to_set (map fst mapping_results).

Definition run_session (physical_nodes : list physical_node)
    (physical_links : list physical_link) (virtual_nodes : list virtual_node)
    (policy_net : policy) (g : rng) : result session :=
  s ← init_session physical_nodes physical_links g;
  map_steps policy_net virtual_nodes s.

(** What [main] reports: the committed mappings and the unmapped names. *)
Definition main (physical_nodes : list physical_node)
    (physical_links : list physical_link) (virtual_nodes : list virtual_node)
    (policy_net : policy) (g : rng)
  : result (list (string * string) * gset string) :=
  s ← run_session physical_nodes physical_links virtual_nodes policy_net g;
  Ok (mapping_results s,
      unmapped_virtual_nodes virtual_nodes (mapping_results s)).

(** ** Sample data *)

(** Node [node_i] with its capacity and security level; a link. *)
Definition pn (i : nat) (c s : Z) : physical_node :=
  {| node_id := "node_" +:+ pretty i; cpu_capacity := c; security_level := s |}.
Definition lk (a b : nat) (bw d : Z) : physical_link :=
  {| source := a; target := b; bandwidth := bw; delay := d |}.

Definition vn (name : string) (c : Z) : virtual_node :=
  {| node := name; cpu_req := c; safety_req := 1 |}.

(** The float of a small integer, and the float nearest to the quotient of
    two of them. *)
Definition float_of_Z (z : Z) : float :=
  if z <? 0 then (- PrimFloat.of_uint63 (Uint63.of_Z (- z)))%float
  else PrimFloat.of_uint63 (Uint63.of_Z z).
Definition float_of_nat (n : nat) : float := float_of_Z (Z.of_nat n).
Definition float_of_Q (q : Q) : float :=
  (float_of_Z (Qnum q) / float_of_Z (Z.pos (Qden q)))%float.

(** The uniform baseline policy, and a generator that always returns 0.5. *)
Definition uniform : policy :=
  fun rows => map (fun _ => (1 / float_of_nat (length rows))%float) rows.
Definition ghalf : rng := fun _ => 0.5%float.

(** * Vocabulary of the properties *)

(** ** Paths in the substrate graph *)

Module Graph.
Import FeatureExtractor.

(** Every neighbour listed by the adjacency is a node index. *)
Definition adjacency_in_range (num_nodes : nat) (adjacency : gmap nat (list nat)) : Prop :=
  forall a b, b ∈ neighbors adjacency a -> (b < num_nodes)%nat.

Inductive path (adjacency : gmap nat (list nat)) (k : nat) : nat -> nat -> Prop :=
| path_start : path adjacency k k 0
| path_step (v w n : nat) :
    path adjacency k v n -> w ∈ neighbors adjacency v ->
    path adjacency k w (S n).

Definition reachable (adjacency : gmap nat (list nat)) (k v : nat) : Prop :=
  exists n, path adjacency k v n.

(** [d] is the length of a shortest path from [k] to [v]. *)
Definition hop_distance (adjacency : gmap nat (list nat)) (k v d : nat) : Prop :=
  path adjacency k v d /\ forall n, path adjacency k v n -> (d <= n)%nat.

(** The distance that the search from [k] leaves in [distance[m]]. *)
Definition bfs_distance (num_nodes : nat) (adjacency : gmap nat (list nat))
    (k m : nat) : Z :=
  match bfs num_nodes adjacency k with
  | Ok st => default 0 (distance st !! m)
  | _ => 0
  end.

End Graph.

(** ** The invariants of the breadth-first search *)

Module Invariant.
Import FeatureExtractor Graph.

(** The number of nodes not visited yet. *)
Fixpoint unvisited (vis : list bool) : nat :=
  match vis with
  | [] => 0
  | b :: rest => ((if b then 0 else 1) + unvisited rest)%nat
  end.

Section WithStart.

Variable adjacency : gmap nat (list nat).
Variable k : nat.

Definition vis (st : bfs_state) (v : nat) : Prop := visited st !! v = Some true.
Definition dis (st : bfs_state) (v d : nat) : Prop :=
  distance st !! v = Some (Z.of_nat d).

(** Every node within [d] hops of the start has been visited. *)
Definition complete (st : bfs_state) (d : nat) : Prop :=
  forall x n, path adjacency k x n -> (n <= d)%nat -> vis st x.

(** The queue holds nodes of level [d], then nodes of level [d + 1]. *)
Definition levels (st : bfs_state) (d : nat) (q : list nat) : Prop :=
  exists q1 q2, q = q1 ++ q2 /\
    (forall v, v ∈ q1 -> dis st v d) /\ (forall v, v ∈ q2 -> dis st v (S d)).

(** What holds of the arrays whatever the position in the loops. *)
Record arrays_ok (st : bfs_state) : Prop := {
  ok_length : length (distance st) = length (visited st);
  ok_sound : forall v, vis st v -> exists d, dis st v d /\ hop_distance adjacency k v d;
  ok_zero : forall v, visited st !! v = Some false -> distance st !! v = Some 0;
  ok_queue : forall v, v ∈ queue st -> vis st v
}.

(** The invariant of the [while] loop. *)
Record outer_inv (st : bfs_state) : Prop := {
  outer_arrays : arrays_ok st;
  outer_closed : forall v, vis st v -> v ∉ queue st ->
                 forall w, w ∈ neighbors adjacency v -> vis st w;
  outer_levels : exists d, complete st d /\ levels st d (queue st)
}.

(** The invariant of the [for] loop over the neighbours of [current],
    a node of level [d]; [seen] are the neighbours already handled. *)
Record inner_inv (current d : nat) (seen : list nat) (st : bfs_state) : Prop := {
  inner_arrays : arrays_ok st;
  inner_current : vis st current /\ dis st current d;
  inner_closed : forall v, vis st v -> v ∉ queue st -> v ≠ current ->
                 forall w, w ∈ neighbors adjacency v -> vis st w;
  inner_seen : forall w, w ∈ seen -> vis st w;
  inner_complete : complete st d;
  inner_levels : levels st d (queue st)
}.

(** Marking an unvisited neighbour [b] of [current]. *)
Definition mark (st : bfs_state) (b : nat) (d : nat) : bfs_state :=
  {| visited := <[b := true]> (visited st);
     distance := <[b := Z.of_nat d + 1]> (distance st);
     queue := queue st ++ [b] |}.

End WithStart.

End Invariant.

(** ** Eligibility and the states of a session *)

(** The indices that [eligible_loop] collects, as a function of the CPU
    features alone. *)
Fixpoint eligible_from (idx : nat) (features : list node_feature) (req : Z)
  : list nat :=
  match features with
  | [] => []
  | feature :: rest =>
      if req <=? CPU_Resources feature
      then idx :: eligible_from (S idx) rest req
      else eligible_from (S idx) rest req
  end.

(** A float above zero, plus infinity included, as the specification of
    the floats sees it. *)
Definition SFpositive (x : spec_float) : Prop :=
  match x with
  | S754_finite false _ _ | S754_infinity false => True
  | _ => False
  end.

(** The scores that the filter reads for the indices [en], with [0.0] for
    an index without a score. *)
Definition scores_at (probabilities : list float) (en : list nat) : list float :=
  map (fun i => default 0%float (probabilities !! i)) en.

(** The weights that [map_virtual_node] hands to [random.choices]: each
    score divided by the sum of the scores. *)
Definition quotients (scores : list float) : list float :=
  map (fun p => (p / sum_float scores)%float) scores.

(** The total that [random.choices] tests, the last running sum plus [0.0],
    and its two tests: the total is positive and finite. *)
Definition total_weight (weights : list float) : float :=
  (default 0%float (last (Random.accumulate weights)) + 0)%float.

Definition usable (total : float) : bool :=
  negb (total <=? 0)%float && is_finite total.

(** Every feature row carries the current capacity of its node. *)
Definition session_inv (s : session) : Prop :=
  map CPU_Resources (node_features s) = map cpu_capacity (physical_nodes s).

(** The states met by the loop of [main]: [s] is the state after the virtual
    nodes [processed], a prefix of the request, have been handled. *)
Definition reached (nodes : list physical_node) (links : list physical_link)
    (policy_net : policy) (g : rng) (processed : list virtual_node) (s : session)
  : Prop :=
  exists s0, init_session nodes links g = Ok s0 /\
             map_steps policy_net processed s0 = Ok s.

(** The state after a committed mapping of [v_node] onto node [sel]. *)
Definition commit (s : session) (v_node : virtual_node) (sel : nat)
    (n : physical_node) (f : node_feature) (g' : rng) : session :=
  let cap := deduct_capacity (cpu_capacity n) (cpu_req v_node) in
  {| physical_nodes := <[sel := set_cpu_capacity n cap]> (physical_nodes s);
     node_features := <[sel := set_CPU_Resources f cap]> (node_features s);
     mapped_nodes := mapped_nodes s ++ [sel];
     mapping_results := mapping_results s ++ [(node v_node, node_id n)];
     random_state := g' |}.

(** ** Sample substrates, requests and policies *)

(** Capacities [10, 5, 20] on the path 0 - 1 - 2. *)
Definition ex_nodes : list physical_node := [pn 0 10 1; pn 1 5 2; pn 2 20 3].
Definition ex_links : list physical_link := [lk 0 1 10 4; lk 1 2 20 6].

(** The state of the loop of [main] after [processed], on success. *)
Definition state_after (nodes : list physical_node) (links : list physical_link)
    (policy_net : policy) (g : rng) (processed : list virtual_node) : session :=
  match run_session nodes links processed policy_net g with
  | Ok s => s
  | _ => {| physical_nodes := []; node_features := []; mapped_nodes := [];
            mapping_results := []; random_state := g |}
  end.

Definition ex_session : session :=
  Eval vm_compute in state_after ex_nodes ex_links uniform ghalf [].

(** A request whose second virtual node fits no physical node. *)
Definition ex_request : list virtual_node := [vn "a" 8; vn "b" 30; vn "c" 8].

Definition ex_session_a : session :=
  Eval vm_compute in state_after ex_nodes ex_links uniform ghalf [vn "a" 8].

Definition ex_session_c : session :=
  Eval vm_compute in
    state_after ex_nodes ex_links uniform ghalf [vn "a" 8; vn "b" 30; vn "c" 8].

(** A generator that always returns 0.0: the first eligible node is
    selected. *)
Definition gzero : rng := fun _ => 0%float.

(** The state after [a(8)] is mapped with that generator, on node 0. *)
Definition ex_session_low : session :=
  Eval vm_compute in state_after ex_nodes ex_links uniform gzero [vn "a" 8].

(** A state of the loop body in which the feature row of the only node
    promises more CPU, 20, than the node has, 10, and the state that a step
    for [cpu_req = 15] makes of it. No session produces such a state: it
    serves to reach the guard of [main] against a negative capacity. *)
Definition overdrawn_session : session :=
  {| physical_nodes := [pn 0 10 1];
     node_features :=
       [{| Node := "node_0"; CPU_Resources := 20; Adjacent_Bandwidth := 0;
           Distance_Correlation := 0; Time_Correlation := 0; Security := 1 |}];
     mapped_nodes := []; mapping_results := []; random_state := ghalf |}.

Definition overdrawn_after : session :=
  Eval vm_compute in
    match map_step uniform (vn "a" 15) overdrawn_session with
    | Ok s => s
    | _ => overdrawn_session
    end.

(** The state of the loop on a substrate without nodes. *)
Definition empty_session : session :=
  Eval vm_compute in state_after [] [] uniform ghalf [].

(** One physical node of capacity 20 and two virtual nodes asking for 7. *)
Definition one_node : list physical_node := [pn 0 20 1].

Definition one_node_session : session :=
  Eval vm_compute in state_after one_node [] uniform ghalf [vn "a" 7].

(** A policy whose scores are all [0.0], as a softmax that underflows gives
    for every node but the best. *)
Definition zero_policy : policy := fun rows => map (fun _ => 0%float) rows.




(** The policy of the specification (4.1, 4.2) for a disconnected graph,
    written after its words: the nodes that the search from [k] does not
    reach are left out of the average. Compared with
    [FeatureExtractor.distance_corr_of], which follows the source. *)
Definition spec_distance_corr_of (num_nodes : nat)
    (adjacency : gmap nat (list nat)) (mapped_nodes : list nat) (k : nat)
  : result Q :=
  st ← FeatureExtractor.bfs num_nodes adjacency k;
  ds ← FeatureExtractor.mapped_distances (FeatureExtractor.distance st) k
         (filter (fun m => FeatureExtractor.visited st !! m = Some true)
                 mapped_nodes);
  Ok (FeatureExtractor.avg_distance ds).

(** Nodes 0 and 1 linked, node 2 isolated. *)
Definition split_nodes : list physical_node := [pn 0 10 1; pn 1 10 1; pn 2 10 1].
Definition split_links : list physical_link := [lk 0 1 10 4].

(** Two linked nodes, of which only node 0 can host anything, and a policy
    whose score for a node is its Distance Correlation plus one: the scores
    that [map_virtual_node] returns show the column that the policy was
    given. *)
Definition pair_nodes : list physical_node := [pn 0 20 1; pn 1 1 1].
Definition pair_links : list physical_link := [lk 0 1 10 4].

Definition dc_probe : policy :=
  fun rows => map (fun row => (float_of_Q (nth 2 row 0%Q) + 1)%float) rows.

Definition pair_session : session :=
  Eval vm_compute in state_after pair_nodes pair_links dc_probe ghalf [vn "a" 7].

(** ** Vocabulary of the further properties *)

Module Incidence.

(** The sum of [f] over the link ends at node [i]: a link counts once for
    each of its two ends, so a link from [i] to [i] counts twice. *)
Fixpoint incident_sum (f : physical_link -> Z) (links : list physical_link)
    (i : nat) : Z :=
  match links with
  | [] => 0
  | link :: rest =>
      (if decide (source link = i) then f link else 0)
      + (if decide (target link = i) then f link else 0)
      + incident_sum f rest i
  end.

(** The number of link ends at node [i]. *)
Definition degree (links : list physical_link) (i : nat) : Z :=
  incident_sum (fun _ => 1) links i.

(** Both ends of every link are node indices. *)
Definition links_in_range (num_nodes : nat) (links : list physical_link) : Prop :=
  forall link, link ∈ links ->
    (source link < num_nodes)%nat /\ (target link < num_nodes)%nat.

(** A link joins [a] to [b], in either direction. *)
Definition joins (link : physical_link) (a b : nat) : Prop :=
  (source link = a /\ target link = b) \/ (target link = a /\ source link = b).

(** The average delay of the link ends at node [i], [0.0] without any. *)
Definition average_delay (links : list physical_link) (i : nat) : Q :=
  if 0 <? degree links i
  then (inject_Z (incident_sum delay links i) / inject_Z (degree links i))%Q
  else 0%Q.

End Incidence.

(** On substrates of [num_nodes] nodes the policy returns a score above
    zero for every node, as a softmax does unless it underflows. *)
Definition positive_policy (num_nodes : nat) (policy_net : policy) : Prop :=
  forall rows, length rows = num_nodes ->
    (num_nodes <= length (policy_net rows))%nat /\
    forall i p, (i < num_nodes)%nat -> policy_net rows !! i = Some p ->
                (0 <? p)%float = true.

(** The feature dictionary of node [i], as a function of the node, the
    links and the mapped set. *)
Definition feature_of (num_nodes : nat) (links : list physical_link)
    (mapped : list nat) (i : nat) (n : physical_node) : node_feature :=
  {| Node := "node_" +:+ pretty i;
     CPU_Resources := cpu_capacity n;
     Adjacent_Bandwidth := Incidence.incident_sum bandwidth links i;
     Distance_Correlation :=
       FeatureExtractor.avg_distance
         (map (Graph.bfs_distance num_nodes
                 (FeatureExtractor.build_adjacency_list links) i)
              (filter (fun m => m ≠ i) mapped));
     Time_Correlation := Incidence.average_delay links i;
     Security := security_level n |}.

(** The CPU that the commits [pairs], each a virtual node with the index
    selected for it, take from node [j]. *)
Fixpoint allocated (pairs : list (virtual_node * nat)) (j : nat) : Z :=
  match pairs with
  | [] => 0
  | (v_node, sel) :: rest =>
      (if decide (sel = j) then cpu_req v_node else 0) + allocated rest j
  end.

(** * Properties *)

(** ** The error monad and list access *)

Lemma bind_Ok {A B : Type} (m : result A) (f : A -> result B) (b : B) :
  m ≫= f = Ok b <-> exists a, m = Ok a /\ f a = Ok b.
Proof.
  destruct m as [a| |]; simpl; split.
  - eauto.
  - intros (a' & [= <-] & E). exact E.
  - discriminate.
  - intros (? & [=] & _).
  - discriminate.
  - intros (? & [=] & _).
Qed.

Ltac inv_bind H :=
  repeat match type of H with
  | _ ≫= _ = Ok _ =>
      let a := fresh "a" in
      let E := fresh "E" in
      apply bind_Ok in H; destruct H as (a & E & H)
  end.

Lemma getitem_Ok {A : Type} (l : list A) (i : nat) (x : A) :
  getitem l i = Ok x <-> l !! i = Some x.
Proof. unfold getitem. destruct (l !! i); split; congruence. Qed.

Lemma getitem_lt {A : Type} (l : list A) (i : nat) :
  (i < length l)%nat -> exists x, getitem l i = Ok x /\ l !! i = Some x.
Proof.
  intros H. destruct (lookup_lt_is_Some_2 l i H) as [x Hx].
  exists x. split; [by apply getitem_Ok | done].
Qed.

Lemma setitem_Ok {A : Type} (l l' : list A) (i : nat) (x : A) :
  setitem l i x = Ok l' <-> (i < length l)%nat /\ l' = <[i := x]> l.
Proof.
  unfold setitem. destruct (l !! i) eqn:E; split.
  - intros [= <-]. split; [by eapply lookup_lt_Some | done].
  - intros [_ ->]. done.
  - discriminate.
  - intros [H _]. apply lookup_lt_is_Some_2 in H. rewrite E in H.
    by destruct H.
Qed.

Lemma setitem_lt {A : Type} (l : list A) (i : nat) (x : A) :
  (i < length l)%nat -> setitem l i x = Ok (<[i := x]> l).
Proof. intros H. by apply setitem_Ok. Qed.

Lemma mapM_Ok_length {A B : Type} (f : A -> result B) (l : list A) (r : list B) :
  mapM f l = Ok r -> length r = length l.
Proof.
  revert r. induction l as [|a l IH]; simpl; intros r H.
  - by injection H as <-.
  - inv_bind H. injection H as <-. simpl. f_equal. by apply IH.
Qed.

Lemma mapM_Ok_lookup {A B : Type} (f : A -> result B) (l : list A) (r : list B)
    (i : nat) (a : A) :
  mapM f l = Ok r -> l !! i = Some a -> exists b, r !! i = Some b /\ f a = Ok b.
Proof.
  revert r i. induction l as [|a' l IH]; simpl; intros r i H Hi; [done|].
  inv_bind H. injection H as <-. destruct i as [|i]; simpl in *.
  - injection Hi as ->. eauto.
  - eauto.
Qed.

(** ** Breadth-first search: termination and absence of errors *)

Module BFS.
Import FeatureExtractor Graph.

Local Abbreviation unvisited := Invariant.unvisited.
Local Abbreviation vis := Invariant.vis.
Local Abbreviation dis := Invariant.dis.
Local Abbreviation levels := Invariant.levels.
Local Abbreviation mark := Invariant.mark.

Lemma unvisited_mark (vis : list bool) (i : nat) :
  vis !! i = Some false ->
  S (unvisited (<[i := true]> vis)) = unvisited vis.
Proof.
  revert i. induction vis as [|b vis IH]; intros [|i] H; simpl in *; try done.
  - by injection H as ->.
  - rewrite <- (IH i H). destruct b; simpl; lia.
Qed.

Lemma unvisited_replicate (n : nat) : unvisited (replicate n false) = n.
Proof. induction n; simpl; congruence. Qed.

(** The arrays keep their length, each node that enters the queue leaves
    the unvisited ones, and only node indices enter the queue. *)
Lemma visit_neighbors_measure (current : nat) (nbrs : list nat) (st st' : bfs_state) :
  visit_neighbors current nbrs st = Ok st' ->
  length (visited st') = length (visited st) /\
  length (distance st') = length (distance st) /\
  (unvisited (visited st') + length (queue st')
   = unvisited (visited st) + length (queue st))%nat /\
  (forall v, v ∈ queue st' -> v ∈ queue st \/ (v < length (visited st))%nat).
Proof.
  revert st. induction nbrs as [|b nbrs IH]; simpl; intros st H.
  - injection H as <-. auto.
  - inv_bind H. apply getitem_Ok in E. destruct a.
    + by apply IH.
    + inv_bind H. apply setitem_Ok in E0 as [? ->].
      apply setitem_Ok in E2 as [? ->].
      apply IH in H as (Hv & Hd & Hm & Hq). simpl in *.
      rewrite !length_insert in *. rewrite length_app in Hm. simpl in Hm.
      pose proof (unvisited_mark _ _ E). split_and!; [done|done|lia|].
      intros v [[Hv'|Hv'%list_elem_of_singleton]%elem_of_app|Hv']%Hq; subst; auto.
Qed.

Lemma visit_neighbors_total (current : nat) (nbrs : list nat) (st : bfs_state) :
  (forall b, b ∈ nbrs -> (b < length (visited st))%nat) ->
  length (distance st) = length (visited st) ->
  (current < length (visited st))%nat ->
  exists st', visit_neighbors current nbrs st = Ok st'.
Proof.
  revert st. induction nbrs as [|b nbrs IH]; simpl; intros st Hb Hl Hc; [eauto|].
  destruct (getitem_lt (visited st) b) as (seen & -> & _); [apply Hb; by left|].
  simpl. destruct seen.
  - apply IH; [|done..]. intros; apply Hb; by right.
  - rewrite setitem_lt by (apply Hb; by left). simpl.
    destruct (getitem_lt (distance st) current) as (d & -> & _); [lia|]. simpl.
    rewrite setitem_lt by (rewrite Hl; apply Hb; by left). simpl.
    apply IH; simpl; rewrite ?length_insert; [|done..].
    intros; apply Hb; by right.
Qed.

Lemma hop_distance_unique adjacency k v d1 d2 :
  hop_distance adjacency k v d1 -> hop_distance adjacency k v d2 -> d1 = d2.
Proof.
  intros [P1 L1] [P2 L2]. apply L1 in P2. apply L2 in P1. lia.
Qed.

Section Invariant.

Variable adjacency : gmap nat (list nat).
Variable k : nat.

Local Abbreviation complete := (Invariant.complete adjacency k).
Local Abbreviation arrays_ok := (Invariant.arrays_ok adjacency k).
Local Abbreviation outer_inv := (Invariant.outer_inv adjacency k).
Local Abbreviation inner_inv := (Invariant.inner_inv adjacency k).

Lemma vis_not_false st v : vis st v -> visited st !! v = Some false -> False.
Proof. unfold vis. congruence. Qed.

Lemma vis_mark st b d v :
  visited st !! b = Some false -> vis st v -> vis (mark st b d) v.
Proof.
  intros Hb Hv. unfold vis, mark; simpl.
  rewrite list_lookup_insert_ne; [done|]. intros ->. by eapply vis_not_false.
Qed.

Lemma vis_mark_inv st b d v :
  vis (mark st b d) v -> v = b \/ vis st v.
Proof.
  unfold vis, mark; simpl. intros H.
  destruct (decide (b = v)) as [->|Hne]; [by left|right].
  by rewrite list_lookup_insert_ne in H.
Qed.

Lemma dis_mark st b d v n :
  visited st !! b = Some false -> vis st v -> dis st v n -> dis (mark st b d) v n.
Proof.
  intros Hb Hv Hd. unfold dis, mark; simpl.
  rewrite list_lookup_insert_ne; [done|]. intros ->. by eapply vis_not_false.
Qed.

Lemma inner_inv_skip current d seen st b :
  inner_inv current d seen st -> vis st b -> inner_inv current d (seen ++ [b]) st.
Proof.
  intros [] Hb. split; try done.
  intros w [Hw|Hw%list_elem_of_singleton]%elem_of_app; [auto|by subst].
Qed.

Lemma inner_inv_mark current d seen st b :
  inner_inv current d seen st ->
  b ∈ neighbors adjacency current ->
  visited st !! b = Some false ->
  inner_inv current d (seen ++ [b]) (mark st b d).
Proof.
  intros [[Hlen Hsound Hzero Hq] [Hcv Hcd] Hclosed Hseen Hcomp Hlev] Hedge Hb.
  assert (Hblt : (b < length (visited st))%nat) by by eapply lookup_lt_Some.
  assert (Hvb : vis (mark st b d) b).
  { unfold vis, mark; simpl. by apply list_lookup_insert_eq. }
  split; [split|..].
  - simpl. by rewrite !length_insert.
  - intros v [->|Hv]%vis_mark_inv.
    + exists (S d). split.
      * unfold dis, mark; simpl. rewrite list_lookup_insert_eq by lia.
        f_equal. lia.
      * destruct (Hsound _ Hcv) as (d' & Hd' & Hp & Hmin).
        assert (d' = d) as -> by (unfold dis in *; rewrite Hcd in Hd'; injection Hd'; lia).
        split; [by eapply path_step|].
        intros n Hn. destruct (decide (n <= d)%nat) as [Hle|]; [|lia].
        exfalso. eapply vis_not_false; [|exact Hb]. by eapply Hcomp.
    + destruct (Hsound _ Hv) as (d' & Hd' & Hh). exists d'.
      split; [by apply dis_mark|done].
  - intros v. simpl. intros Hv.
    destruct (decide (b = v)) as [->|Hne].
    + rewrite list_lookup_insert_eq in Hv by lia. done.
    + rewrite list_lookup_insert_ne in Hv by done.
      rewrite list_lookup_insert_ne by done. auto.
  - simpl. intros v [Hv|Hv%list_elem_of_singleton]%elem_of_app.
    + apply vis_mark; auto.
    + by subst.
  - split; [by apply vis_mark|by apply dis_mark].
  - simpl. intros v Hv Hnq Hne w Hw.
    apply vis_mark_inv in Hv as [->|Hv].
    + exfalso. apply Hnq. apply elem_of_app. right. by apply list_elem_of_singleton.
    + apply vis_mark; [done|]. eapply Hclosed; eauto.
      intros ?. apply Hnq. apply elem_of_app. by left.
  - intros w [Hw|Hw%list_elem_of_singleton]%elem_of_app.
    + apply vis_mark; auto.
    + by subst.
  - intros x n Hp Hn. apply vis_mark; [done|]. by eapply Hcomp.
  - destruct Hlev as (q1 & q2 & Hq12 & H1 & H2). simpl.
    exists q1, (q2 ++ [b]). split; [by rewrite Hq12, <- app_assoc|]. split.
    + intros v Hv. apply dis_mark; [done| |by apply H1].
      apply Hq. rewrite Hq12. apply elem_of_app. by left.
    + intros v [Hv|Hv%list_elem_of_singleton]%elem_of_app.
      * apply dis_mark; [done| |by apply H2].
        apply Hq. rewrite Hq12. apply elem_of_app. by right.
      * subst. unfold dis, mark; simpl. rewrite list_lookup_insert_eq by lia.
        f_equal. lia.
Qed.

Lemma visit_neighbors_inv current d nbrs seen st st' :
  visit_neighbors current nbrs st = Ok st' ->
  (forall b, b ∈ nbrs -> b ∈ neighbors adjacency current) ->
  inner_inv current d seen st ->
  inner_inv current d (seen ++ nbrs) st'.
Proof.
  revert seen st. induction nbrs as [|b nbrs IH]; simpl; intros seen st H Hn Hinv.
  - injection H as <-. by rewrite app_nil_r.
  - inv_bind H. apply getitem_Ok in E.
    replace (seen ++ b :: nbrs) with ((seen ++ [b]) ++ nbrs)
      by (by rewrite <- app_assoc).
    destruct a.
    + eapply IH; [done| |].
      * intros; apply Hn; by right.
      * by apply inner_inv_skip.
    + inv_bind H. apply setitem_Ok in E0 as [? ->].
      apply getitem_Ok in E1. apply setitem_Ok in E2 as [? ->].
      destruct (Invariant.inner_current _ _ _ _ _ _ Hinv) as [_ Hd].
      unfold dis in Hd. rewrite Hd in E1. injection E1 as <-.
      eapply IH; [exact H| |].
      * intros; apply Hn; by right.
      * apply (inner_inv_mark current d seen st b); [done| |done].
        apply Hn; by left.
Qed.

(** Popping the head of the queue: the head's level is complete. *)
Lemma outer_inv_pop current q vs ds :
  outer_inv {| visited := vs; distance := ds; queue := current :: q |} ->
  exists d, inner_inv current d [] {| visited := vs; distance := ds; queue := q |}.
Proof.
  intros [[Hlen Hsound Hzero Hq] Hclosed (d & Hcomp & q1 & q2 & Hq12 & H1 & H2)].
  simpl in *.
  assert (Harr : arrays_ok {| visited := vs; distance := ds; queue := q |}).
  { split; try done. simpl. intros v Hv. apply Hq. by right. }
  assert (Hcl : forall v, vis {| visited := vs; distance := ds; queue := q |} v ->
                v ∉ q -> v ≠ current ->
                forall w, w ∈ neighbors adjacency v ->
                vis {| visited := vs; distance := ds; queue := q |} w).
  { intros v Hv Hnq Hne w Hw. eapply (Hclosed v); [done| |done].
    intros [->|?]%elem_of_cons; done. }
  assert (Hcur : vis {| visited := vs; distance := ds; queue := q |} current).
  { apply Hq. by left. }
  destruct q1 as [|c q1]; simpl in Hq12.
  - (* the level [d] is exhausted: [current] opens level [d + 1] *)
    subst q2. exists (S d).
    split; [exact Harr| |exact Hcl| | |].
    + split; [done|]. apply H2. by left.
    + intros w Hw. by apply elem_of_nil in Hw.
    + intros x n Hp. induction Hp as [|v w n Hp IH Hw]; intros Hn.
      * by eapply Hcomp; [constructor|lia].
      * assert (Hv : vis {| visited := vs; distance := ds; queue := current :: q |} v)
          by (eapply IH; lia).
        eapply (Hclosed v); [done| |done].
        intros Hin. apply H2 in Hin.
        destruct (Hsound _ Hv) as (d' & Hd' & _ & Hmin).
        apply Hmin in Hp. unfold dis in *. simpl in *.
        rewrite Hin in Hd'. injection Hd'. lia.
    + exists q, []. rewrite app_nil_r. split; [done|]. split.
      * intros v Hv. apply (H2 v). by right.
      * intros v Hv. by apply elem_of_nil in Hv.
  - injection Hq12 as <- ->. exists d.
    split; [exact Harr| |exact Hcl| |exact Hcomp|].
    + split; [done|]. apply (H1 current). by left.
    + intros w Hw. by apply elem_of_nil in Hw.
    + exists q1, q2. split; [done|]. split; [|done].
      intros v Hv. apply (H1 v). by right.
Qed.

Lemma inner_inv_outer current d st :
  inner_inv current d (neighbors adjacency current) st -> outer_inv st.
Proof.
  intros [Harr [Hcv Hcd] Hclosed Hseen Hcomp Hlev]. split; [done| |eauto].
  intros v Hv Hnq w Hw. destruct (decide (v = current)) as [->|Hne]; eauto.
Qed.

Lemma bfs_while_inv fuel st st' :
  bfs_while fuel adjacency st = Ok st' -> outer_inv st -> outer_inv st'.
Proof.
  revert st. induction fuel as [|fuel IH]; intros [vs ds [|c q]]; simpl;
    intros H Hinv; try (by injection H as <-); [done|].
  inv_bind H. destruct (outer_inv_pop _ _ _ _ Hinv) as [d Hin].
  eapply IH; [exact H|]. eapply inner_inv_outer.
  eapply (visit_neighbors_inv c d _ []) in E; eauto.
Qed.

Lemma bfs_init_inv num_nodes st :
  bfs_init num_nodes k = Ok st -> outer_inv st.
Proof.
  unfold bfs_init. intros H. inv_bind H. injection H as <-.
  apply setitem_Ok in E as [Hk ->]. rewrite length_replicate in Hk.
  assert (Hvis : forall v, vis {| visited := <[k:=true]> (replicate num_nodes false);
                                  distance := replicate num_nodes 0;
                                  queue := [k] |} v -> v = k).
  { unfold vis; simpl. intros v Hv. destruct (decide (k = v)) as [|Hne]; [done|].
    rewrite list_lookup_insert_ne in Hv by done.
    apply lookup_replicate in Hv as [? _]. done. }
  assert (Hk' : vis {| visited := <[k:=true]> (replicate num_nodes false);
                       distance := replicate num_nodes 0;
                       queue := [k] |} k).
  { unfold vis; simpl. apply list_lookup_insert_eq. by rewrite length_replicate. }
  assert (Hd : dis {| visited := <[k:=true]> (replicate num_nodes false);
                      distance := replicate num_nodes 0;
                      queue := [k] |} k 0).
  { unfold dis; simpl. by apply lookup_replicate. }
  split; [split|..]; simpl.
  - by rewrite length_insert, !length_replicate.
  - intros v ->%Hvis. exists O. split; [done|]. split; [constructor|lia].
  - intros v Hv. apply lookup_lt_Some in Hv.
    rewrite length_insert, length_replicate in Hv. by apply lookup_replicate.
  - intros v ->%list_elem_of_singleton. done.
  - intros v ->%Hvis Hnq. exfalso. apply Hnq. by left.
  - exists O. split.
    + intros x n Hp Hn. assert (n = O) as -> by lia. by inversion Hp; subst.
    + exists [k], []. split; [done|]. split.
      * intros v ->%list_elem_of_singleton. done.
      * intros v Hv. by apply elem_of_nil in Hv.
Qed.

End Invariant.

(** With fuel for every unvisited node and every queued one, the loop
    runs to completion: it ends with an empty queue. *)
Lemma bfs_while_fuel (fuel : nat) (adjacency : gmap nat (list nat)) (st : bfs_state) :
  adjacency_in_range (length (visited st)) adjacency ->
  length (distance st) = length (visited st) ->
  (forall v, v ∈ queue st -> (v < length (visited st))%nat) ->
  (unvisited (visited st) + length (queue st) <= fuel)%nat ->
  exists st', bfs_while fuel adjacency st = Ok st' /\ queue st' = [] /\
              length (visited st') = length (visited st) /\
              length (distance st') = length (visited st).
Proof.
  revert st. induction fuel as [|fuel IH]; intros st Hadj Hl Hq Hm.
  - destruct st as [vis dist [|c q]]; simpl in *; [eauto|lia].
  - destruct st as [vis dist [|c q]]; simpl in *; [eauto|].
    destruct (visit_neighbors_total c (neighbors adjacency c)
                {| visited := vis; distance := dist; queue := q |})
      as [st1 H1]; simpl; [by intros; eapply Hadj|done|apply Hq; by left|].
    rewrite H1. simpl.
    pose proof (visit_neighbors_measure _ _ _ _ H1) as (Hv & Hd & Hm1 & Hq1).
    simpl in *.
    destruct (IH st1) as (st' & H' & ? & ? & ?).
    + by rewrite Hv.
    + congruence.
    + intros v [Hv'|Hv']%Hq1; [|lia]. rewrite Hv. apply Hq. by right.
    + lia.
    + exists st'. split_and!; [done|done|congruence|congruence].
Qed.

(** The search from [k] ends without error; on return the visited nodes are
    the nodes reachable from [k], their distance is the hop distance, and
    the distance of every other node is still the initial [0]. *)
Lemma bfs_correct (num_nodes : nat) (adjacency : gmap nat (list nat)) (k : nat) :
  adjacency_in_range num_nodes adjacency -> (k < num_nodes)%nat ->
  exists st, bfs num_nodes adjacency k = Ok st /\
    length (visited st) = num_nodes /\ length (distance st) = num_nodes /\
    (forall v, visited st !! v = Some true <-> (v < num_nodes)%nat /\ reachable adjacency k v) /\
    (forall v, visited st !! v = Some true ->
       exists d, distance st !! v = Some (Z.of_nat d) /\ hop_distance adjacency k v d) /\
    (forall v, visited st !! v = Some false -> distance st !! v = Some 0).
Proof.
  intros Hadj Hk. unfold bfs.
  assert (Hinit : bfs_init num_nodes k
            = Ok {| visited := <[k := true]> (replicate num_nodes false);
                    distance := replicate num_nodes 0; queue := [k] |}).
  { unfold bfs_init. rewrite setitem_lt by (by rewrite length_replicate). done. }
  rewrite Hinit. simpl.
  pose proof (bfs_init_inv adjacency k _ _ Hinit) as Hinv0.
  destruct (bfs_while_fuel num_nodes adjacency
              {| visited := <[k := true]> (replicate num_nodes false);
                 distance := replicate num_nodes 0; queue := [k] |})
    as (st & Hst & Hq & Hlv & Hld); simpl.
  - by rewrite length_insert, length_replicate.
  - by rewrite length_insert, !length_replicate.
  - intros v ->%list_elem_of_singleton. by rewrite length_insert, length_replicate.
  - pose proof (unvisited_mark (replicate num_nodes false) k) as Hm.
    rewrite unvisited_replicate in Hm.
    assert (replicate num_nodes false !! k = Some false) as Hf
      by (by apply lookup_replicate).
    apply Hm in Hf. lia.
  - simpl in *. rewrite length_insert, length_replicate in Hlv, Hld.
    exists st. split; [done|].
    destruct (bfs_while_inv adjacency k _ _ _ Hst Hinv0)
      as [[Hlen Hsound Hzero Hqv] Hclosed (d & Hcomp & _)].
    rewrite Hq in Hclosed.
    assert (Hreach : forall v n, path adjacency k v n -> vis st v).
    { intros v n Hp. induction Hp as [|v w n Hp IH Hw].
      - eapply Hcomp; [constructor|lia].
      - eapply Hclosed; [exact IH| |done]. apply not_elem_of_nil. }
    split_and!; try done.
    intros v. split.
    + intros Hv. split; [apply lookup_lt_Some in Hv; lia|].
      destruct (Hsound v Hv) as (d' & _ & Hp & _). by exists d'.
    + intros [_ [n Hp]]. by eapply Hreach.
Qed.

(** *** The adjacency list built from the links *)

Lemma neighbors_append (adjacency : gmap nat (list nat)) (a b x : nat) :
  neighbors (adjacency_append adjacency a b) x
  = if decide (a = x) then neighbors adjacency a ++ [b] else neighbors adjacency x.
Proof.
  unfold adjacency_append, neighbors at 1.
  rewrite lookup_insert. by destruct (decide (a = x)).
Qed.

Lemma build_adjacency_list_from (num_nodes : nat) (links : list physical_link)
    (adjacency : gmap nat (list nat)) :
  adjacency_in_range num_nodes adjacency ->
  (forall link, link ∈ links ->
     (source link < num_nodes)%nat /\ (target link < num_nodes)%nat) ->
  adjacency_in_range num_nodes
    (foldl (fun adjacency link =>
              adjacency_append
                (adjacency_append adjacency (source link) (target link))
                (target link) (source link))
           adjacency links).
Proof.
  revert adjacency. induction links as [|link links IH]; simpl; intros adj Hadj Hl;
    [done|].
  apply IH; [|intros; apply Hl; by right].
  destruct (Hl link) as [Hs Ht]; [by left|].
  intros x y. rewrite neighbors_append.
  destruct (decide (target link = x)) as [->|_].
  - intros [Hy|Hy%list_elem_of_singleton]%elem_of_app; [|by subst].
    revert Hy. rewrite neighbors_append.
    destruct (decide _);
      [intros [Hy|Hy%list_elem_of_singleton]%elem_of_app; [by eapply Hadj|by subst]
      |by apply Hadj].
  - rewrite neighbors_append.
    destruct (decide _);
      [intros [Hy|Hy%list_elem_of_singleton]%elem_of_app; [by eapply Hadj|by subst]
      |by apply Hadj].
Qed.

Lemma build_adjacency_list_in_range (num_nodes : nat) (links : list physical_link) :
  (forall link, link ∈ links ->
     (source link < num_nodes)%nat /\ (target link < num_nodes)%nat) ->
  adjacency_in_range num_nodes (build_adjacency_list links).
Proof.
  apply build_adjacency_list_from. intros a b. unfold neighbors.
  rewrite lookup_empty. simpl. by intros ?%elem_of_nil.
Qed.

(** *** The average over the mapped nodes *)

Lemma mapped_distances_spec (dist : list Z) (k : nat) (mapped : list nat) :
  (forall m, m ∈ mapped -> (m < length dist)%nat) ->
  mapped_distances dist k mapped
  = Ok (map (fun m => default 0 (dist !! m)) (filter (fun m => m ≠ k) mapped)).
Proof.
  induction mapped as [|m mapped IH]; simpl; intros Hm; [done|].
  rewrite filter_cons.
  rewrite IH by (intros; apply Hm; by right).
  destruct (decide (m ≠ k)); [|done].
  destruct (getitem_lt dist m) as (d & -> & Hd); [apply Hm; by left|].
  simpl. by rewrite Hd.
Qed.

Lemma mapM_seq_spec {B : Type} (f : nat -> result B) (g : nat -> B) (lo n : nat) :
  (forall i, (lo <= i < lo + n)%nat -> f i = Ok (g i)) ->
  mapM f (seq lo n) = Ok (map g (seq lo n)).
Proof.
  revert lo. induction n as [|n IH]; intros lo H; simpl; [done|].
  rewrite H by lia. simpl. rewrite IH by (intros; apply H; lia). done.
Qed.

Lemma path_in_range (num_nodes : nat) (adjacency : gmap nat (list nat)) (k v n : nat) :
  adjacency_in_range num_nodes adjacency -> (k < num_nodes)%nat ->
  path adjacency k v n -> (v < num_nodes)%nat.
Proof. intros Hadj Hk Hp. destruct Hp; [done|by eapply Hadj]. Qed.

Lemma bfs_distance_hop (num_nodes : nat) (adjacency : gmap nat (list nat))
    (k m d : nat) :
  adjacency_in_range num_nodes adjacency -> (k < num_nodes)%nat ->
  hop_distance adjacency k m d ->
  bfs_distance num_nodes adjacency k m = Z.of_nat d.
Proof.
  intros Hadj Hk Hh. unfold bfs_distance.
  destruct (bfs_correct num_nodes adjacency k Hadj Hk)
    as (st & -> & _ & _ & Hvis & Hdist & _).
  assert (Hv : visited st !! m = Some true).
  { apply Hvis. destruct Hh as [Hp _]. split; [by eapply path_in_range|by exists d]. }
  destruct (Hdist m Hv) as (d' & -> & Hh'). simpl.
  f_equal. by eapply hop_distance_unique.
Qed.

Lemma bfs_distance_unreachable (num_nodes : nat) (adjacency : gmap nat (list nat))
    (k m : nat) :
  adjacency_in_range num_nodes adjacency -> (k < num_nodes)%nat ->
  ~ reachable adjacency k m ->
  bfs_distance num_nodes adjacency k m = 0.
Proof.
  intros Hadj Hk Hn. unfold bfs_distance.
  destruct (bfs_correct num_nodes adjacency k Hadj Hk)
    as (st & -> & Hlen & Hld & Hvis & _ & Hzero).
  destruct (visited st !! m) as [[|]|] eqn:E.
  - apply Hvis in E as [_ ?]. done.
  - rewrite (Hzero m E). done.
  - apply lookup_ge_None in E. rewrite Hlen in E.
    destruct (distance st !! m) eqn:E'; [|done].
    apply lookup_lt_Some in E'. lia.
Qed.

Lemma distance_corr_of_spec (num_nodes : nat) (adjacency : gmap nat (list nat))
    (mapped : list nat) (k : nat) :
  adjacency_in_range num_nodes adjacency ->
  (forall m, m ∈ mapped -> (m < num_nodes)%nat) -> (k < num_nodes)%nat ->
  distance_corr_of num_nodes adjacency mapped k
  = Ok (avg_distance (map (bfs_distance num_nodes adjacency k)
                          (filter (fun m => m ≠ k) mapped))).
Proof.
  intros Hadj Hm Hk. unfold distance_corr_of, bfs_distance.
  destruct (bfs_correct num_nodes adjacency k Hadj Hk)
    as (st & -> & _ & Hlen & _). simpl.
  rewrite mapped_distances_spec by (by rewrite Hlen). done.
Qed.

Lemma get_distance_correlation_spec (nodes : list physical_node)
    (adjacency : gmap nat (list nat)) (mapped : list nat) :
  adjacency_in_range (length nodes) adjacency ->
  (forall m, m ∈ mapped -> (m < length nodes)%nat) ->
  get_distance_correlation nodes adjacency mapped
  = Ok (map (fun k => avg_distance (map (bfs_distance (length nodes) adjacency k)
                                        (filter (fun m => m ≠ k) mapped)))
            (seq 0 (length nodes))).
Proof.
  intros Hadj Hm. unfold get_distance_correlation.
  apply mapM_seq_spec. intros k Hk. apply distance_corr_of_spec; [done..|lia].
Qed.

(** With no mapped node, every entry is the literal [0.0]. *)
Lemma get_distance_correlation_nil (nodes : list physical_node)
    (adjacency : gmap nat (list nat)) (dc : list Q) :
  get_distance_correlation nodes adjacency [] = Ok dc ->
  forall q, q ∈ dc -> q = 0%Q.
Proof.
  unfold get_distance_correlation. intros H q [i Hi]%list_elem_of_lookup.
  pose proof (mapM_Ok_length _ _ _ H) as Hlen.
  assert (Hlt : (i < length (seq 0 (length nodes)))%nat)
    by (rewrite <- Hlen; by eapply lookup_lt_Some).
  destruct (lookup_lt_is_Some_2 _ _ Hlt) as [k Hk].
  destruct (mapM_Ok_lookup _ _ _ _ _ H Hk) as (b & Hb & Hf).
  rewrite Hi in Hb. injection Hb as <-.
  unfold distance_corr_of in Hf. inv_bind Hf. simpl in E0.
  injection E0 as <-. by injection Hf as <-.
Qed.

End BFS.

(** ** Python floats *)

Module Float.

Lemma Prim2SF_zero : Prim2SF 0%float = S754_zero false.
Proof. reflexivity. Qed.

Lemma SFdiv_self (s : bool) (m : positive) (e : Z) :
  SF64div (S754_finite s m e) (S754_finite s m e) = Prim2SF 1%float.
Proof.
  unfold SF64div, SFdiv, SFdiv_core_binary.
  rewrite !Z.sub_diag.
  change (Z.min (fexp prec emax 0) 0) with (-53).
  change (0 - -53) with 53.
  assert (Hd : Z.div_eucl (Z.shiftl (Z.pos m) 53) (Z.pos m) = (2 ^ 53, 0)).
  { rewrite Z.shiftl_mul_pow2 by lia.
    pose proof (Z.div_eucl_eq (Z.pos m * 2 ^ 53) (Z.pos m) ltac:(lia)) as Heq.
    pose proof (Z.mod_pos_bound (Z.pos m * 2 ^ 53) (Z.pos m) ltac:(lia)) as Hb.
    unfold Z.modulo in Hb.
    revert Heq Hb. generalize (2 ^ 53). intros k.
    destruct (Z.div_eucl (Z.pos m * k) (Z.pos m)) as [q r]. simpl.
    intros Heq Hb.
    assert (k = q) by nia. subst q. f_equal. lia. }
  cbv iota. set (d := IntDef.Z.div_eucl _ _).
  assert (d = (2 ^ 53, 0)) as -> by exact Hd.
  assert (Hl : new_location (Z.pos m) 0 = loc_Exact).
  { unfold new_location. by destruct (Z.even (Z.pos m)). }
  rewrite Hl. destruct s; vm_compute; reflexivity.
Qed.

(** A finite float other than zero, divided by itself, is [1.0]. *)
Lemma div_self (x : float) :
  is_finite x = true -> (x =? 0)%float = false -> (x / x)%float = 1%float.
Proof.
  intros Hf Hz.
  apply Prim2SF_inj. rewrite div_spec.
  unfold is_finite, is_nan, is_infinity in Hf.
  rewrite !FloatAxioms.eqb_spec, abs_spec in Hf.
  rewrite FloatAxioms.eqb_spec in Hz.
  destruct (Prim2SF x) as [s|s| |s m e].
  - by destruct s.
  - by destruct s.
  - done.
  - apply SFdiv_self.
Qed.

(** [0.0 + x] is [x], unless it is a zero. *)
Lemma add_zero_l (x : float) : (0 + x =? 0)%float = false -> (0 + x)%float = x.
Proof.
  intros Hz. apply Prim2SF_inj.
  rewrite FloatAxioms.eqb_spec, add_spec in Hz. rewrite add_spec.
  rewrite Prim2SF_zero in *.
  destruct (Prim2SF x) as [s|s| |s m e]; try done.
  by destruct s.
Qed.

(** A single finite score whose division is defined gives the weight [1.0],
    which passes the tests of [random.choices]. *)
Lemma quotients_single (p : float) :
  is_finite p = true -> (sum_float [p] =? 0)%float = false ->
  quotients [p] = [1%float].
Proof.
  intros Hf Hz. unfold quotients, sum_float in *. cbn [foldl map] in *.
  pose proof (add_zero_l p Hz) as E. rewrite E in Hz |- *.
  by rewrite (div_self p Hf Hz).
Qed.

Lemma usable_single : usable (total_weight [1%float]) = true.
Proof. reflexivity. Qed.

(** *** Sums of scores above zero *)

Lemma digits2_size (p : positive) : digits2_pos p = Pos.size p.
Proof. induction p; simpl; congruence. Qed.

Lemma shr_1_m (r : shr_record) (p : positive) :
  shr_m r = Z.pos p -> shr_m (shr_1 r) = Z.div2 (Z.pos p).
Proof. destruct r as [m b s]. simpl. intros ->. by destruct p. Qed.

Lemma iter_pos_shr_1 (n : positive) (r : shr_record) :
  0 <= shr_m r -> shr_m (SpecFloat.iter_pos shr_1 n r) = Z.shiftr (shr_m r) (Z.pos n).
Proof.
  assert (Hstep : forall r, 0 <= shr_m r ->
            shr_m (shr_1 r) = Z.div2 (shr_m r) /\ 0 <= shr_m (shr_1 r)).
  { intros [m b s] Hm. simpl in *. destruct m as [|p|p]; [done| |lia].
    destruct p; simpl; split; (done || lia). }
  assert (Hgen : forall n r, 0 <= shr_m r ->
            shr_m (SpecFloat.iter_pos shr_1 n r) = Z.shiftr (shr_m r) (Z.pos n) /\
            0 <= shr_m (SpecFloat.iter_pos shr_1 n r)).
  { clear n r. induction n as [n IH|n IH|]; intros r Hr; cbn [SpecFloat.iter_pos].
    - destruct (Hstep r Hr) as [E1 H1].
      destruct (IH _ H1) as [E2 H2]. destruct (IH _ H2) as [E3 H3].
      split; [|done]. rewrite E3, E2, E1.
      rewrite !Z.shiftr_shiftr by lia. rewrite Z.div2_spec.
      rewrite Z.shiftr_shiftr by lia. f_equal. lia.
    - destruct (IH _ Hr) as [E2 H2]. destruct (IH _ H2) as [E3 H3].
      split; [|done]. rewrite E3, E2.
      rewrite !Z.shiftr_shiftr by lia. f_equal. lia.
    - destruct (Hstep r Hr) as [E1 H1]. split; [|done].
      rewrite E1. apply Z.div2_spec. }
  intros H. by apply Hgen.
Qed.

Lemma size_le (m : positive) : 2 ^ (Z.pos (Pos.size m) - 1) <= Z.pos m.
Proof.
  pose proof (Z.log2_spec (Z.pos m) ltac:(lia)) as [H _].
  assert (E : Z.pos (Pos.size m) - 1 = Z.log2 (Z.pos m)).
  { destruct m; simpl; lia. }
  by rewrite E.
Qed.

(** Shifting a positive mantissa to its format leaves it positive. *)
Lemma shr_fexp_pos (m : positive) (e : Z) (l : location) :
  SpecFloat.emin prec emax <= e ->
  exists p e', shr_m (fst (shr_fexp prec emax (Z.pos m) e l)) = Z.pos p /\
               snd (shr_fexp prec emax (Z.pos m) e l) = e' /\
               SpecFloat.emin prec emax <= e'.
Proof.
  intros He. unfold shr_fexp, shr. cbn [Zdigits2].
  set (d := Z.pos (digits2_pos m)).
  assert (Hm : shr_m (shr_record_of_loc (Z.pos m) l) = Z.pos m)
    by (by destruct l as [|[]]).
  destruct (fexp prec emax (d + e) - e) as [|n|n] eqn:En.
  - exists m, e. done.
  - assert (Hn : Z.pos n < d).
    { unfold fexp in En. change (SpecFloat.emin prec emax) with (-1074) in *.
      change prec with 53 in En. subst d. lia. }
    cbn [fst snd].
    pose proof (iter_pos_shr_1 n (shr_record_of_loc (Z.pos m) l)) as Hs.
    rewrite Hm in Hs. specialize (Hs ltac:(lia)).
    assert (Hpos : 0 < Z.shiftr (Z.pos m) (Z.pos n)).
    { rewrite Z.shiftr_div_pow2 by lia.
      apply Z.div_str_pos. split; [lia|].
      eapply Z.le_trans; [|apply size_le].
      apply Z.pow_le_mono_r; [lia|]. subst d. rewrite digits2_size in Hn. lia. }
    destruct (Z.shiftr (Z.pos m) (Z.pos n)) as [|p|p] eqn:Ep; [lia| |lia].
    exists p, (e + Z.pos n). split_and!; [by rewrite Hs|done|lia].
  - exists m, e. done.
Qed.

Lemma round_nearest_even_pos (p : positive) (l : location) :
  exists q, round_nearest_even (Z.pos p) l = Z.pos q.
Proof.
  destruct l as [|[]]; simpl; eauto.
  destruct p; simpl; eauto.
Qed.

Lemma binary_round_aux_pos (m : positive) (e : Z) (l : location) :
  SpecFloat.emin prec emax <= e ->
  SFpositive (binary_round_aux prec emax false (Z.pos m) e l).
Proof.
  intros He. unfold binary_round_aux.
  destruct (shr_fexp_pos m e l He) as (p & e' & Hp & He' & Hle).
  destruct (shr_fexp prec emax (Z.pos m) e l) as [mrs' e1]. simpl in Hp, He'.
  subst e1. rewrite Hp.
  destruct (round_nearest_even_pos p (loc_of_shr_record mrs')) as [q ->].
  destruct (shr_fexp_pos q e' loc_Exact Hle) as (p2 & e2 & Hp2 & He2 & _).
  destruct (shr_fexp prec emax (Z.pos q) e' loc_Exact) as [mrs'' e3].
  simpl in Hp2, He2. rewrite Hp2.
  by destruct (e3 <=? emax - prec).
Qed.

Lemma binary_round_pos (m : positive) (e : Z) :
  SpecFloat.emin prec emax <= e -> SFpositive (binary_round prec emax false m e).
Proof.
  intros He. unfold binary_round, shl_align.
  set (t := fexp prec emax (Z.pos (digits2_pos m) + e)).
  assert (Ht : SpecFloat.emin prec emax <= t) by (unfold t, fexp; lia).
  destruct (t - e); by apply binary_round_aux_pos.
Qed.

Lemma valid_emin (s : bool) (m : positive) (e : Z) :
  valid_binary (S754_finite s m e) = true -> SpecFloat.emin prec emax <= e.
Proof.
  unfold valid_binary, bounded, canonical_mantissa.
  intros [H _]%andb_prop. apply Z.eqb_eq in H. unfold fexp in H. lia.
Qed.

Lemma SFadd_pos (x y : spec_float) :
  valid_binary x = true -> valid_binary y = true ->
  SFpositive x -> SFpositive y -> SFpositive (SF64add x y).
Proof.
  destruct x as [| [] | | [] mx ex], y as [| [] | | [] my ey]; try done.
  intros Hx%valid_emin Hy%valid_emin _ _.
  unfold SF64add, SFadd. cbn [cond_Zopp].
  match goal with
  | |- SFpositive (binary_normalize _ _ (?a + ?b) ?e _) =>
      assert (exists p, a + b = Z.pos p) as [p ->] by (simpl; eauto)
  end.
  cbn [binary_normalize]. apply binary_round_pos. lia.
Qed.

Lemma positive_spec (x : float) :
  (0 <? x)%float = true <-> SFpositive (Prim2SF x).
Proof.
  rewrite ltb_spec. change (Prim2SF 0) with (S754_zero false).
  destruct (Prim2SF x) as [s|[]| |[] m e]; simpl; try done; by destruct s.
Qed.

(** The sum of a float at or above zero and a float above zero is above
    zero, be it plus infinity. *)
Lemma add_pos (a x : float) :
  (0 <? a)%float = true -> (0 <? x)%float = true -> (0 <? a + x)%float = true.
Proof.
  rewrite !positive_spec, add_spec. apply SFadd_pos; apply Prim2SF_valid.
Qed.

Lemma zero_add_pos (x : float) :
  (0 <? x)%float = true -> (0 <? 0 + x)%float = true.
Proof.
  rewrite !positive_spec, add_spec. change (Prim2SF 0) with (S754_zero false).
  by destruct (Prim2SF x) as [|[]| |[] m e].
Qed.

Lemma sum_float_pos (l : list float) :
  l ≠ [] -> (forall p, p ∈ l -> (0 <? p)%float = true) ->
  (0 <? sum_float l)%float = true.
Proof.
  intros Hne Hpos. destruct l as [|x l]; [done|]. unfold sum_float. cbn [foldl].
  assert (H0 : (0 <? 0 + x)%float = true) by (apply zero_add_pos, Hpos; by left).
  assert (Hl : forall p, p ∈ l -> (0 <? p)%float = true)
    by (intros; apply Hpos; by right).
  clear Hpos Hne. revert H0. generalize (0 + x)%float as a.
  induction l as [|y l IH]; intros a Ha; [done|]. cbn [foldl].
  apply IH; [intros; apply Hl; by right|].
  apply add_pos; [done|apply Hl; by left].
Qed.

Lemma pos_nonzero (x : float) : (0 <? x)%float = true -> (x =? 0)%float = false.
Proof.
  rewrite positive_spec, FloatAxioms.eqb_spec.
  change (Prim2SF 0) with (S754_zero false).
  by destruct (Prim2SF x) as [|[]| |[] m e].
Qed.

(** Scores that are all [0.0] sum to [0.0]. *)
Lemma sum_float_zeros (l : list float) :
  (forall p, p ∈ l -> p = 0%float) -> sum_float l = 0%float.
Proof.
  unfold sum_float. induction l as [|x l IH]; intros H; [done|]. cbn [foldl].
  rewrite (H x) by (by left). change (0 + 0)%float with 0%float.
  apply IH. intros p Hp. apply H. by right.
Qed.

End Float.

(** ** The mapping decision *)

Module Decision.

Lemma elem_of_eligible_from (idx : nat) (features : list node_feature) (req : Z)
    (i : nat) :
  i ∈ eligible_from idx features req <->
  (idx <= i)%nat /\
  exists feature, features !! (i - idx)%nat = Some feature /\
                  req <= CPU_Resources feature.
Proof.
  revert idx. induction features as [|f features IH]; intros idx; simpl.
  - split; [by intros ?%elem_of_nil|by intros (_ & ? & ? & _)].
  - assert (Hrest : i ∈ eligible_from (S idx) features req <->
                    (idx < i)%nat /\ exists feature,
                      (f :: features) !! (i - idx)%nat = Some feature /\
                      req <= CPU_Resources feature).
    { rewrite IH. split.
      - intros (Hle & g & Hg & Hc). split; [lia|]. exists g. split; [|done].
        replace (i - idx)%nat with (S (i - S idx)) by lia. done.
      - intros (Hlt & g & Hg & Hc). split; [lia|]. exists g. split; [|done].
        replace (i - idx)%nat with (S (i - S idx)) in Hg by lia. done. }
    destruct (Z.leb_spec req (CPU_Resources f)) as [Hc|Hc].
    + rewrite elem_of_cons, Hrest. split.
      * intros [->|(Hlt & g & Hg & Hg')].
        -- split; [lia|]. exists f. by rewrite Nat.sub_diag.
        -- split; [lia|eauto].
      * intros (Hle & g & Hg & Hg').
        destruct (decide (i = idx)) as [->|]; [by left|right].
        split; [lia|eauto].
    + rewrite Hrest. split.
      * intros (Hlt & g & Hg & Hg'). split; [lia|eauto].
      * intros (Hle & g & Hg & Hg').
        destruct (decide (i = idx)) as [->|]; [|split; [lia|eauto]].
        rewrite Nat.sub_diag in Hg. simpl in Hg. injection Hg as <-. lia.
Qed.

Lemma eligible_from_nil (features : list node_feature) (req : Z) :
  features = [] -> eligible_from 0 features req = [].
Proof. by intros ->. Qed.

(** The loop collects exactly [eligible_from], and reads the score of each
    collected index. *)
Lemma eligible_loop_spec (idx : nat) (features : list node_feature)
    (probabilities : list float) (req : Z) (en : list nat) (ep : list float) :
  eligible_loop idx features probabilities req en ep
  = ps ← mapM (getitem probabilities) (eligible_from idx features req);
    Ok (en ++ eligible_from idx features req, ep ++ ps).
Proof.
  revert idx en ep. induction features as [|f features IH]; intros idx en ep; simpl.
  - by rewrite !app_nil_r.
  - destruct (req <=? CPU_Resources f); [|apply IH]. simpl.
    destruct (getitem probabilities idx) as [p| |]; simpl; [|done..].
    rewrite IH.
    destruct (mapM (getitem probabilities) (eligible_from (S idx) features req));
      simpl; [|done..].
    by rewrite <- !app_assoc.
Qed.

(** The eligible indices come in increasing order. *)
Lemma eligible_from_increasing (idx : nat) (nf : list node_feature) (req : Z)
    (j1 j2 i1 i2 : nat) :
  (j1 < j2)%nat ->
  eligible_from idx nf req !! j1 = Some i1 ->
  eligible_from idx nf req !! j2 = Some i2 -> (i1 < i2)%nat.
Proof.
  revert idx j1 j2. induction nf as [|f nf IH]; intros idx j1 j2 Hj H1 H2;
    cbn [eligible_from] in *; [done|].
  destruct (req <=? CPU_Resources f); [|by eapply IH].
  destruct j2 as [|j2]; [lia|]. simpl in H2.
  destruct j1 as [|j1]; simpl in H1.
  - injection H1 as <-.
    apply list_elem_of_lookup_2, elem_of_eligible_from in H2. lia.
  - eapply IH; [|done..]. lia.
Qed.

(** A single node with enough CPU makes a single-element eligible list. *)
Lemma eligible_from_single (nf : list node_feature) (req : Z) (j : nat) :
  j ∈ eligible_from 0 nf req ->
  (forall i, i ∈ eligible_from 0 nf req -> i = j) ->
  eligible_from 0 nf req = [j].
Proof.
  intros Hj Hall.
  pose proof (eligible_from_increasing 0 nf req 0 1) as Hinc.
  destruct (eligible_from 0 nf req) as [|a [|b l]].
  - by apply elem_of_nil in Hj.
  - f_equal. apply Hall. by left.
  - specialize (Hinc a b ltac:(lia) eq_refl eq_refl).
    rewrite (Hall a) in Hinc by (by left).
    rewrite (Hall b) in Hinc by (right; by left). lia.
Qed.

(** *** Reading the scores of the eligible nodes *)

Lemma mapM_getitem_cases {A : Type} (l : list A) (idxs : list nat) :
  (exists r, mapM (getitem l) idxs = Ok r /\ length r = length idxs /\
             forall i, i ∈ idxs -> (i < length l)%nat) \/
  (mapM (getitem l) idxs = Raise IndexError /\
   exists i, i ∈ idxs /\ (length l <= i)%nat).
Proof.
  induction idxs as [|i idxs IH]; cbn [mapM].
  - left. exists []. split_and!; [done..|]. by intros ? ?%elem_of_nil.
  - destruct (l !! i) as [x|] eqn:E.
    + apply getitem_Ok in E as E'. rewrite E'. cbn [mbind result_bind].
      destruct IH as [(r & -> & Hlen & Hr)|[-> (j & Hj & Hge)]];
        cbn [mbind result_bind].
      * left. exists (x :: r). split_and!; [done|simpl; by f_equal|].
        intros j [->|Hj]%elem_of_cons; [by eapply lookup_lt_Some|auto].
      * right. split; [done|]. exists j. split; [by right|done].
    + right.
      assert (getitem l i = Raise IndexError) as ->
        by (unfold getitem; by rewrite E).
      split; [done|].
      exists i. split; [by left|by apply lookup_ge_None].
Qed.

Lemma mapM_getitem_Ok {A : Type} (d : A) (l : list A) (idxs : list nat) :
  (forall i, i ∈ idxs -> (i < length l)%nat) ->
  mapM (getitem l) idxs = Ok (map (fun i => default d (l !! i)) idxs).
Proof.
  induction idxs as [|i idxs IH]; intros H; [done|]. cbn [mapM map].
  destruct (getitem_lt l i) as (x & -> & ->); [apply H; by left|].
  cbn [mbind result_bind]. rewrite IH by (intros; apply H; by right). done.
Qed.

Lemma present_dec {A : Type} (probs : list A) (en : list nat) :
  (forall i, i ∈ en -> (i < length probs)%nat) \/
  (exists i, i ∈ en /\ (length probs <= i)%nat).
Proof.
  destruct (decide (Forall (fun i => (i < length probs)%nat) en)) as [Hall|Hn].
  - left. by rewrite Forall_forall in Hall.
  - right. apply not_Forall_Exists in Hn; [|apply _].
    apply Exists_exists in Hn as (i & Hi & Hge). simpl in Hge.
    exists i. split; [done|lia].
Qed.

(** *** The division by the sum *)

Lemma normalize_nonzero (ep : list float) (t : float) :
  (t =? 0)%float = false ->
  normalize ep t = Ok (map (fun p => p / t)%float ep).
Proof.
  intros Ht. unfold normalize. induction ep as [|p ep IH]; [done|].
  cbn [mapM map]. rewrite IH, Ht. done.
Qed.

Lemma normalize_zero (ep : list float) (t : float) :
  (t =? 0)%float = true -> ep ≠ [] -> normalize ep t = Raise ZeroDivisionError.
Proof.
  intros Ht Hne. unfold normalize. destruct ep as [|p ep]; [done|]. simpl.
  by rewrite Ht.
Qed.

(** *** [random.choices] *)

Lemma length_accumulate_from (acc : float) (ws : list float) :
  length (Random.accumulate_from acc ws) = length ws.
Proof. revert acc. induction ws; intros; simpl; auto. Qed.

Lemma length_accumulate (ws : list float) :
  length (Random.accumulate ws) = length ws.
Proof. destruct ws; simpl; [done|]. by rewrite length_accumulate_from. Qed.

(** The search returns a position between its bounds at which the array
    changes sides: the entry before it, if the search moved past one, is not
    above [x], and the entry at it, if the search stopped short of [hi], is
    above [x]. This holds of any array, sorted or not. *)
Lemma bisect_spec (fuel : nat) (a : list float) (x : float) (lo hi : nat) :
  (lo <= hi)%nat -> (hi <= length a)%nat -> (hi - lo <= fuel)%nat ->
  exists i, Random.bisect fuel a x lo hi = Ok i /\ (lo <= i <= hi)%nat /\
    ((lo < i)%nat -> exists c, a !! (i - 1)%nat = Some c /\ (x <? c)%float = false) /\
    ((i < hi)%nat -> exists c, a !! i = Some c /\ (x <? c)%float = true).
Proof.
  revert lo hi. induction fuel as [|fuel IH]; intros lo hi Hle Hhi Hf;
    cbn [Random.bisect].
  - destruct (Nat.ltb_spec lo hi); [lia|]. exists lo.
    split_and!; [done|lia|lia|lia|lia].
  - destruct (Nat.ltb_spec lo hi) as [Hlt|];
      [|exists lo; split_and!; [done|lia|lia|lia|lia]].
    assert (Hmid : (lo <= (lo + hi) / 2 < hi)%nat).
    { split; [apply Nat.div_le_lower_bound; lia
             |apply Nat.Div0.div_lt_upper_bound; lia]. }
    set (mid := ((lo + hi) / 2)%nat) in *.
    destruct (getitem_lt a mid) as (am & -> & Ham); [lia|].
    cbn [mbind result_bind].
    destruct (x <? am)%float eqn:Hx.
    + destruct (IH lo mid) as (i & -> & Hi & Hbelow & Habove); [lia..|].
      exists i. split_and!; [done|lia|lia|done|].
      intros Hih. destruct (decide (i = mid)) as [->|Hne]; [eauto|].
      apply Habove. lia.
    + destruct (IH (mid + 1)%nat hi) as (i & -> & Hi & Hbelow & Habove); [lia..|].
      exists i. split_and!; [done|lia|lia| |done].
      intros _. destruct (decide (i = mid + 1)%nat) as [->|Hne].
      * replace (mid + 1 - 1)%nat with mid by lia. eauto.
      * apply Hbelow. lia.
Qed.

(** [random.choices] either fails one of the two tests of the total, before
    it reads the random source, or reads one sample and returns a member of
    the population, at the position that [bisect] finds in the running
    sums. *)
Lemma choices_spec (population : list nat) (weights : list float) (g : rng) :
  population ≠ [] -> length weights = length population ->
  (usable (total_weight weights) = false /\
   Random.choices population weights g = Raise ValueError) \/
  (usable (total_weight weights) = true /\
   exists i x,
     population !! i = Some x /\
     Random.choices population weights g = Ok (x, snd (random g)) /\
     ((0 < i)%nat ->
      exists c, Random.accumulate weights !! (i - 1)%nat = Some c /\
                (g O * total_weight weights <? c)%float = false) /\
     ((i < length population - 1)%nat ->
      exists c, Random.accumulate weights !! i = Some c /\
                (g O * total_weight weights <? c)%float = true)).
Proof.
  intros Hne Hlen. unfold Random.choices, usable, total_weight.
  rewrite length_accumulate.
  destruct (decide (length weights ≠ length population)) as [|_]; [done|].
  destruct (last (Random.accumulate weights)) as [t|] eqn:Hlast.
  2:{ apply last_None in Hlast.
      apply (f_equal length) in Hlast. rewrite length_accumulate in Hlast.
      destruct population; [done|]. simpl in *. lia. }
  change (default 0%float (Some t)) with t.
  destruct (t + 0 <=? 0)%float; [left; split; reflexivity|].
  destruct (is_finite (t + 0)); [|left; split; reflexivity].
  right. split; [reflexivity|].
  unfold random. cbv beta iota zeta. cbn [negb].
  destruct (bisect_spec (length population) (Random.accumulate weights)
              (g O * (t + 0))%float 0 (length population - 1))
    as (i & -> & Hi & Hbelow & Habove);
    [lia|rewrite length_accumulate; lia|lia|].
  cbn [mbind result_bind].
  assert (Hlt : (i < length population)%nat).
  { destruct population; [done|]. simpl in *. lia. }
  destruct (getitem_lt population i Hlt) as (x & -> & Hx).
  cbn [mbind result_bind snd].
  exists i, x. done.
Qed.

(** *** The cases of [map_virtual_node] *)

Lemma map_virtual_node_empty (policy_net : policy) (req : Z) (g : rng) :
  map_virtual_node [] policy_net req g = Raise RuntimeError.
Proof. done. Qed.

Lemma map_virtual_node_unfold (nf : list node_feature) (policy_net : policy)
    (req : Z) (g : rng) :
  nf ≠ [] ->
  map_virtual_node nf policy_net req g
  = ep ← mapM (getitem (policy_net (map feature_row nf))) (eligible_from 0 nf req);
    match eligible_from 0 nf req with
    | [] => Raise ValueError
    | _ :: _ =>
        ws ← normalize ep (sum_float ep);
        '(sel, g') ← Random.choices (eligible_from 0 nf req) ws g;
        Ok (policy_net (map feature_row nf), sel, g')
    end.
Proof.
  intros Hne. unfold map_virtual_node.
  destruct nf as [|f nf]; [done|]. cbn [map]. cbv zeta.
  rewrite eligible_loop_spec.
  destruct (mapM _ (eligible_from 0 (f :: nf) req)); done.
Qed.

Lemma eligible_nonempty (nf : list node_feature) (req : Z) :
  eligible_from 0 nf req ≠ [] -> nf ≠ [].
Proof. intros H ->. done. Qed.

(** The steps of [map_virtual_node] that follow the filter, when some node
    is eligible. *)
Lemma select_cases (probs : list float) (en : list nat) (g : rng) :
  en ≠ [] ->
  let r := ep ← mapM (getitem probs) en;
           ws ← normalize ep (sum_float ep);
           '(sel, g') ← Random.choices en ws g;
           Ok (probs, sel, g') in
  let scores := scores_at probs en in
  let present := forall i, i ∈ en -> (i < length probs)%nat in
  (~ present /\ r = Raise IndexError) \/
  (present /\ (sum_float scores =? 0)%float = true /\
     r = Raise ZeroDivisionError) \/
  (present /\ (sum_float scores =? 0)%float = false /\
     usable (total_weight (quotients scores)) = false /\
     r = Raise ValueError) \/
  (present /\ (sum_float scores =? 0)%float = false /\
     usable (total_weight (quotients scores)) = true /\
     exists i sel,
       en !! i = Some sel /\
       r = Ok (probs, sel, snd (random g)) /\
       ((0 < i)%nat ->
        exists c, Random.accumulate (quotients scores) !! (i - 1)%nat = Some c /\
                  (g O * total_weight (quotients scores) <? c)%float = false) /\
       ((i < length en - 1)%nat ->
        exists c, Random.accumulate (quotients scores) !! i = Some c /\
                  (g O * total_weight (quotients scores) <? c)%float = true)).
Proof.
  intros He. cbv zeta.
  destruct (present_dec probs en) as [Hp|(i & Hi & Hge)].
  - right. rewrite (mapM_getitem_Ok 0%float probs en Hp).
    fold (scores_at probs en).
    cbn [mbind result_bind].
    assert (Hsc : scores_at probs en ≠ []).
    { unfold scores_at. intros E. by apply map_eq_nil in E. }
    destruct (sum_float (scores_at probs en) =? 0)%float eqn:Hz.
    + left. split_and!; [done..|]. by rewrite normalize_zero.
    + right. rewrite normalize_nonzero by done. cbn [mbind result_bind].
      fold (quotients (scores_at probs en)).
      destruct (choices_spec en (quotients (scores_at probs en)) g)
        as [[Hu ->]|(Hu & i & sel & Hsel & -> & Hbelow & Habove)].
      * done.
      * unfold quotients, scores_at. by rewrite !length_map.
      * left. done.
      * right. split_and!; [done..|]. exists i, sel. done.
  - left. split.
    + intros Hp. specialize (Hp i Hi). lia.
    + destruct (mapM_getitem_cases probs en) as [(r & _ & _ & Hr)|[-> _]]; [|done].
      apply Hr in Hi. lia.
Qed.

(** The outcomes of [map_virtual_node], with the condition of each. *)
Lemma outcomes (nf : list node_feature) (policy_net : policy) (req : Z) (g : rng) :
  let probs := policy_net (map feature_row nf) in
  let en := eligible_from 0 nf req in
  let scores := scores_at probs en in
  let present := forall i, i ∈ en -> (i < length probs)%nat in
  (nf = [] /\ map_virtual_node nf policy_net req g = Raise RuntimeError) \/
  (nf ≠ [] /\ en = [] /\
     map_virtual_node nf policy_net req g = Raise ValueError) \/
  (en ≠ [] /\ ~ present /\
     map_virtual_node nf policy_net req g = Raise IndexError) \/
  (en ≠ [] /\ present /\ (sum_float scores =? 0)%float = true /\
     map_virtual_node nf policy_net req g = Raise ZeroDivisionError) \/
  (en ≠ [] /\ present /\ (sum_float scores =? 0)%float = false /\
     usable (total_weight (quotients scores)) = false /\
     map_virtual_node nf policy_net req g = Raise ValueError) \/
  (en ≠ [] /\ present /\ (sum_float scores =? 0)%float = false /\
     usable (total_weight (quotients scores)) = true /\
     exists i sel,
       en !! i = Some sel /\
       map_virtual_node nf policy_net req g = Ok (probs, sel, snd (random g)) /\
       ((0 < i)%nat ->
        exists c, Random.accumulate (quotients scores) !! (i - 1)%nat = Some c /\
                  (g O * total_weight (quotients scores) <? c)%float = false) /\
       ((i < length en - 1)%nat ->
        exists c, Random.accumulate (quotients scores) !! i = Some c /\
                  (g O * total_weight (quotients scores) <? c)%float = true)).
Proof.
  cbv zeta.
  destruct (decide (nf = [])) as [->|Hnf]; [by left|right].
  rewrite map_virtual_node_unfold by done.
  generalize (policy_net (map feature_row nf)) as probs.
  generalize (eligible_from 0 nf req) as en. intros en probs.
  destruct (decide (en = [])) as [->|He]; [by left|right].
  pose proof (select_cases probs en g He) as H. cbv zeta in H.
  assert (Hm : forall ep : list float,
            match en with
            | [] => Raise ValueError
            | _ :: _ =>
                ws ← normalize ep (sum_float ep);
                '(sel, g') ← Random.choices en ws g;
                Ok (probs, sel, g')
            end
            = (ws ← normalize ep (sum_float ep);
               '(sel, g') ← Random.choices en ws g;
               Ok (probs, sel, g'))) by (intros ep; by destruct en).
  assert (Hb : (ep ← mapM (getitem probs) en;
                match en with
                | [] => Raise ValueError
                | _ :: _ =>
                    ws ← normalize ep (sum_float ep);
                    '(sel, g') ← Random.choices en ws g;
                    Ok (probs, sel, g')
                end)
               = (ep ← mapM (getitem probs) en;
                  ws ← normalize ep (sum_float ep);
                  '(sel, g') ← Random.choices en ws g;
                  Ok (probs, sel, g'))).
  { destruct (mapM (getitem probs) en); [|done..]. cbn [mbind result_bind].
    apply Hm. }
  rewrite Hb.
  destruct H as [[? ?]|[(? & ? & ?)|[(? & ? & ? & ?)|(? & ? & ? & ?)]]]; auto 10.
Qed.


(** The steps that follow the filter, as a function of the eligible
    scores. *)
Lemma map_virtual_node_scores (nf : list node_feature) (policy_net : policy)
    (req : Z) (g : rng) (ep : list float) :
  eligible_from 0 nf req ≠ [] ->
  mapM (getitem (policy_net (map feature_row nf))) (eligible_from 0 nf req)
    = Ok ep ->
  map_virtual_node nf policy_net req g
  = ws ← normalize ep (sum_float ep);
    '(sel, g') ← Random.choices (eligible_from 0 nf req) ws g;
    Ok (policy_net (map feature_row nf), sel, g').
Proof.
  intros Hne Hep.
  rewrite map_virtual_node_unfold by (by eapply eligible_nonempty).
  rewrite Hep. cbn [mbind result_bind].
  by destruct (eligible_from 0 nf req).
Qed.

(** No node is eligible: the [ValueError] of the source. *)
Lemma map_virtual_node_none (nf : list node_feature) (policy_net : policy)
    (req : Z) (g : rng) :
  nf ≠ [] -> eligible_from 0 nf req = [] ->
  map_virtual_node nf policy_net req g = Raise ValueError.
Proof. intros Hne E. rewrite map_virtual_node_unfold, E; done. Qed.

(** Whenever [map_virtual_node] returns, it returns the scores of the
    policy, an eligible index, and the random source less one sample. *)
Lemma map_virtual_node_Ok (nf : list node_feature) (policy_net : policy)
    (req : Z) (g : rng) (probs : list float) (sel : nat) (g' : rng) :
  map_virtual_node nf policy_net req g = Ok (probs, sel, g') ->
  probs = policy_net (map feature_row nf) /\
  sel ∈ eligible_from 0 nf req /\ g' = snd (random g).
Proof.
  intros H.
  destruct (outcomes nf policy_net req g)
    as [[_ E]|[(_ & _ & E)|[(_ & _ & E)|[(_ & _ & _ & E)|[(_ & _ & _ & _ & E)
       |(_ & _ & _ & _ & i & sel' & Hsel & E & _)]]]]];
    rewrite E in H; try done.
  injection H as <- <- <-. split_and!; [done| |done].
  by eapply list_elem_of_lookup_2.
Qed.

(** A [ValueError] leaves the random source unread: it comes from the
    empty eligible list or from the tests of [random.choices]. *)
Lemma map_virtual_node_ValueError (nf : list node_feature) (policy_net : policy)
    (req : Z) (g : rng) :
  map_virtual_node nf policy_net req g = Raise ValueError ->
  nf ≠ [] /\
  (eligible_from 0 nf req = [] \/
   usable (total_weight
             (quotients (scores_at (policy_net (map feature_row nf))
                                   (eligible_from 0 nf req)))) = false).
Proof.
  intros H.
  destruct (outcomes nf policy_net req g)
    as [[_ E]|[(? & ? & E)|[(_ & _ & E)|[(_ & _ & _ & E)|[(He & _ & _ & ? & E)
       |(_ & _ & _ & _ & i & sel' & Hsel & E & _)]]]]];
    rewrite E in H; try done.
  - auto.
  - split; [by eapply eligible_nonempty|auto].
Qed.

End Decision.

(** ** The session *)

Module Session.

Lemma features_matrix_inv (nodes : list physical_node) (links : list physical_link)
    (mapped : list nat) (nf : list node_feature) :
  FeatureExtractor.get_node_features_matrix nodes links mapped = Ok nf ->
  map CPU_Resources nf = map cpu_capacity nodes /\
  exists dc,
    FeatureExtractor.get_distance_correlation nodes
      (FeatureExtractor.build_adjacency_list links) mapped = Ok dc /\
    map Distance_Correlation nf = dc.
Proof.
  unfold FeatureExtractor.get_node_features_matrix. intros H. inv_bind H.
  rename a into bw, a0 into dc, a1 into tc.
  pose proof (mapM_Ok_length _ _ _ H) as Hlen. rewrite length_seq in Hlen.
  assert (Hrow : forall i f, nf !! i = Some f ->
            FeatureExtractor.get_node_computing_resources nodes !! i
              = Some (CPU_Resources f) /\
            dc !! i = Some (Distance_Correlation f)).
  { intros i f Hf.
    assert (Hi : (i < length nodes)%nat)
      by (rewrite <- Hlen; by eapply lookup_lt_Some).
    destruct (mapM_Ok_lookup _ _ _ i i H) as (f' & Hf' & Hrow).
    { by apply lookup_seq_lt. }
    rewrite Hf in Hf'. injection Hf' as <-.
    inv_bind Hrow. injection Hrow as <-. simpl.
    apply getitem_Ok in E2, E4. done. }
  split.
  - apply list_eq. intros i. rewrite !list_lookup_fmap.
    destruct (nf !! i) as [f|] eqn:Hf; simpl.
    + destruct (Hrow i f Hf) as [Hc _].
      unfold FeatureExtractor.get_node_computing_resources in Hc.
      by rewrite list_lookup_fmap in Hc.
    + apply lookup_ge_None in Hf. rewrite Hlen in Hf.
      by rewrite (lookup_ge_None_2 nodes i Hf).
  - exists dc. split; [done|].
    apply list_eq. intros i. rewrite list_lookup_fmap.
    destruct (nf !! i) as [f|] eqn:Hf; simpl.
    + by destruct (Hrow i f Hf) as [_ ->].
    + apply lookup_ge_None in Hf. symmetry. apply lookup_ge_None.
      apply mapM_Ok_length in E0. rewrite length_seq in E0. lia.
Qed.

Lemma init_session_Ok (nodes : list physical_node) (links : list physical_link)
    (g : rng) (s0 : session) :
  init_session nodes links g = Ok s0 ->
  physical_nodes s0 = nodes /\ mapped_nodes s0 = [] /\ mapping_results s0 = [] /\
  random_state s0 = g /\ session_inv s0 /\
  (forall f, f ∈ node_features s0 -> Distance_Correlation f = 0%Q).
Proof.
  unfold init_session. intros H. inv_bind H. injection H as <-. simpl.
  apply features_matrix_inv in E as (Hcpu & dc & Hdc & Hmap).
  split_and!; try done.
  intros f Hf. eapply BFS.get_distance_correlation_nil; [exact Hdc|].
  rewrite <- Hmap. apply list_elem_of_fmap. eauto.
Qed.

(** A step either leaves the state as it is (the [ValueError] is caught) or
    commits a selection. *)
Lemma map_step_cases (policy_net : policy) (v_node : virtual_node) (s s' : session) :
  map_step policy_net v_node s = Ok s' ->
  (map_virtual_node (node_features s) policy_net (cpu_req v_node) (random_state s)
     = Raise ValueError /\ s' = s) \/
  (exists probs sel g' n f,
     map_virtual_node (node_features s) policy_net (cpu_req v_node) (random_state s)
       = Ok (probs, sel, g') /\
     physical_nodes s !! sel = Some n /\ node_features s !! sel = Some f /\
     s' = commit s v_node sel n f g').
Proof.
  unfold map_step. intros H.
  destruct (map_virtual_node _ _ _ _) as [[[probs sel] g']|e|] eqn:E; [| |done].
  - right. inv_bind H. injection H as <-.
    apply getitem_Ok in E0, E2. apply setitem_Ok in E1 as [_ ->], E3 as [_ ->].
    exists probs, sel, g', a, a1. done.
  - left. destruct e; try done. by injection H as <-.
Qed.

Lemma map_step_none (policy_net : policy) (v_node : virtual_node) (s : session) :
  node_features s ≠ [] ->
  eligible_from 0 (node_features s) (cpu_req v_node) = [] ->
  map_step policy_net v_node s = Ok s.
Proof.
  intros Hne E. unfold map_step. by rewrite Decision.map_virtual_node_none.
Qed.

(** Under the invariant there is a feature row for every node. *)
Lemma features_length (s : session) :
  session_inv s -> length (node_features s) = length (physical_nodes s).
Proof.
  intros H. apply (f_equal length) in H. by rewrite !length_map in H.
Qed.

Lemma features_nonempty (s : session) :
  session_inv s -> physical_nodes s ≠ [] -> node_features s ≠ [].
Proof.
  intros Hinv Hne E. apply features_length in Hinv. rewrite E in Hinv.
  destruct (physical_nodes s); done.
Qed.

Lemma commit_inv (s : session) (v_node : virtual_node) (sel : nat)
    (n : physical_node) (f : node_feature) (g' : rng) :
  session_inv s -> session_inv (commit s v_node sel n f g').
Proof.
  unfold session_inv, commit. simpl. intros H.
  rewrite !list_fmap_insert. simpl. f_equal. exact H.
Qed.

Lemma map_step_inv (policy_net : policy) (v_node : virtual_node) (s s' : session) :
  map_step policy_net v_node s = Ok s' -> session_inv s -> session_inv s'.
Proof.
  intros [[_ ->]|(probs & sel & g' & n & f & _ & _ & _ & ->)]%map_step_cases Hinv;
    [done|by apply commit_inv].
Qed.

Lemma map_steps_inv (policy_net : policy) (vs : list virtual_node) (s s' : session) :
  map_steps policy_net vs s = Ok s' -> session_inv s -> session_inv s'.
Proof.
  revert s. induction vs as [|v vs IH]; simpl; intros s H Hinv.
  - by injection H as <-.
  - inv_bind H. eapply IH; [exact H|]. by eapply map_step_inv.
Qed.

Lemma map_steps_app (policy_net : policy) (vs ws : list virtual_node) (s : session) :
  map_steps policy_net (vs ++ ws) s
  = s' ← map_steps policy_net vs s; map_steps policy_net ws s'.
Proof.
  revert s. induction vs as [|v vs IH]; simpl; intros s; [done|].
  destruct (map_step policy_net v s); simpl; [apply IH|done..].
Qed.

Lemma reached_inv nodes links policy_net g processed s :
  reached nodes links policy_net g processed s -> session_inv s.
Proof.
  intros (s0 & H0 & Hs). eapply map_steps_inv; [exact Hs|].
  by apply init_session_Ok in H0 as (_ & _ & _ & _ & ? & _).
Qed.

(** Under the invariant, the eligible list is read off the capacities. *)
Lemma eligible_capacity (s : session) (req : Z) (i : nat) :
  session_inv s ->
  i ∈ eligible_from 0 (node_features s) req <->
  exists n, physical_nodes s !! i = Some n /\ req <= cpu_capacity n.
Proof.
  intros Hinv. rewrite Decision.elem_of_eligible_from, Nat.sub_0_r.
  assert (Hi : map CPU_Resources (node_features s) !! i
               = map cpu_capacity (physical_nodes s) !! i)
    by (unfold session_inv in Hinv; by rewrite Hinv).
  rewrite !list_lookup_fmap in Hi.
  split.
  - intros (_ & f & Hf & Hc). rewrite Hf in Hi. simpl in Hi.
    destruct (physical_nodes s !! i) as [n|]; [|done].
    injection Hi as Hi. exists n. split; [done|lia].
  - intros (n & Hn & Hc). rewrite Hn in Hi. simpl in Hi.
    destruct (node_features s !! i) as [f|]; [|done].
    injection Hi as Hi. split; [lia|]. exists f. split; [done|lia].
Qed.

Lemma eligible_none (s : session) (req : Z) :
  session_inv s ->
  (forall n, n ∈ physical_nodes s -> cpu_capacity n < req) ->
  eligible_from 0 (node_features s) req = [].
Proof.
  intros Hinv Hall. destruct (eligible_from 0 _ req) as [|i en] eqn:E; [done|].
  assert (Hi : i ∈ eligible_from 0 (node_features s) req) by (rewrite E; by left).
  apply eligible_capacity in Hi as (n & Hn & Hc); [|done].
  apply list_elem_of_lookup_2 in Hn. apply Hall in Hn. lia.
Qed.

(** A selection returned by [map_virtual_node] is committed. *)
Lemma map_step_commit (policy_net : policy) (v_node : virtual_node) (s : session)
    (probs : list float) (sel : nat) (g' : rng) :
  session_inv s ->
  map_virtual_node (node_features s) policy_net (cpu_req v_node) (random_state s)
    = Ok (probs, sel, g') ->
  exists n f,
    physical_nodes s !! sel = Some n /\ node_features s !! sel = Some f /\
    cpu_req v_node <= cpu_capacity n /\
    map_step policy_net v_node s = Ok (commit s v_node sel n f g').
Proof.
  intros Hinv H. pose proof (Decision.map_virtual_node_Ok _ _ _ _ _ _ _ H)
    as (_ & Hsel & _).
  pose proof Hsel as Hsel'.
  apply (eligible_capacity s _ _ Hinv) in Hsel as (n & Hn & Hc).
  apply Decision.elem_of_eligible_from in Hsel' as (_ & f & Hf & _).
  rewrite Nat.sub_0_r in Hf.
  exists n, f. split_and!; [done..|].
  unfold map_step. rewrite H.
  rewrite (proj2 (getitem_Ok _ _ _) Hn). cbn [mbind result_bind].
  rewrite setitem_lt by (by eapply lookup_lt_Some). cbn [mbind result_bind].
  rewrite (proj2 (getitem_Ok _ _ _) Hf). cbn [mbind result_bind].
  rewrite setitem_lt by (by eapply lookup_lt_Some). done.
Qed.

Lemma deduct_capacity_max (cap req : Z) :
  deduct_capacity cap req = Z.max 0 (cap - req).
Proof. unfold deduct_capacity. destruct (Z.ltb_spec (cap - req) 0); lia. Qed.

Lemma commit_nonneg (s : session) (v_node : virtual_node) (sel : nat)
    (n : physical_node) (f : node_feature) (g' : rng) :
  (forall m, m ∈ physical_nodes s -> 0 <= cpu_capacity m) ->
  forall m, m ∈ physical_nodes (commit s v_node sel n f g') -> 0 <= cpu_capacity m.
Proof.
  intros Hall m [i Hi]%list_elem_of_lookup. simpl in Hi.
  destruct (decide (sel = i)) as [->|Hne].
  - destruct (decide (i < length (physical_nodes s))%nat) as [Hlt|Hge].
    + rewrite list_lookup_insert_eq in Hi by done. injection Hi as <-. simpl.
      rewrite deduct_capacity_max. lia.
    + rewrite list_insert_ge in Hi by lia.
      apply Hall. by eapply list_elem_of_lookup_2.
  - rewrite list_lookup_insert_ne in Hi by done.
    apply Hall. by eapply list_elem_of_lookup_2.
Qed.

Lemma map_steps_nonneg (policy_net : policy) (vs : list virtual_node) (s s' : session) :
  map_steps policy_net vs s = Ok s' ->
  (forall m, m ∈ physical_nodes s -> 0 <= cpu_capacity m) ->
  forall m, m ∈ physical_nodes s' -> 0 <= cpu_capacity m.
Proof.
  revert s. induction vs as [|v vs IH]; simpl; intros s H Hall.
  - by injection H as <-.
  - inv_bind H. eapply IH; [exact H|].
    apply map_step_cases in E as [[_ ->]|(? & ? & ? & ? & ? & _ & _ & _ & ->)];
      [done|by apply commit_nonneg].
Qed.

(** The committed names are names of processed virtual nodes. *)
Lemma map_steps_names (policy_net : policy) (vs : list virtual_node) (s s' : session) :
  map_steps policy_net vs s = Ok s' ->
  forall x, x ∈ map fst (mapping_results s') ->
            x ∈ map fst (mapping_results s) \/ x ∈ map node vs.
Proof.
  revert s. induction vs as [|v vs IH]; simpl; intros s H x Hx.
  - injection H as <-. by left.
  - inv_bind H. destruct (IH _ H x Hx) as [Hin|Hin]; [|right; by right].
    apply map_step_cases in E as [[_ ->]|(? & ? & ? & ? & ? & _ & _ & _ & ->)];
      [by left|].
    simpl in Hin. rewrite map_app in Hin.
    apply elem_of_app in Hin as [Hin|Hin%list_elem_of_singleton]; [by left|].
    simpl in Hin. subst x. right. by left.
Qed.

(** A committed mapping stays in the list of the committed mappings. *)
Lemma map_steps_results_mono (policy_net : policy) (vs : list virtual_node)
    (s s' : session) (r : string * string) :
  map_steps policy_net vs s = Ok s' ->
  r ∈ mapping_results s -> r ∈ mapping_results s'.
Proof.
  revert s. induction vs as [|v vs IH]; simpl; intros s H Hr.
  - by injection H as <-.
  - inv_bind H. eapply IH; [exact H|].
    apply map_step_cases in E as [[_ ->]|(? & ? & ? & ? & ? & _ & _ & _ & ->)];
      [done|].
    simpl. apply elem_of_app. by left.
Qed.

(** The Distance Correlation column is never written after the first
    computation, which is made with an empty mapped set. *)
Lemma map_steps_distance_correlation (policy_net : policy) (vs : list virtual_node)
    (s s' : session) :
  map_steps policy_net vs s = Ok s' ->
  map Distance_Correlation (node_features s')
  = map Distance_Correlation (node_features s).
Proof.
  revert s. induction vs as [|v vs IH]; simpl; intros s H.
  - by injection H as <-.
  - inv_bind H. rewrite (IH _ H).
    apply map_step_cases in E as [[_ ->]|(? & sel & ? & ? & f & _ & _ & Hf & ->)];
      [done|].
    simpl. apply list_eq. intros i. rewrite !list_lookup_fmap.
    destruct (decide (sel = i)) as [->|Hne].
    + rewrite list_lookup_insert_eq by (by eapply lookup_lt_Some).
      rewrite Hf. done.
    + by rewrite list_lookup_insert_ne.
Qed.

(** Hence, in every state of the loop, every Distance Correlation entry is
    the [0.0] of the empty mapped set. *)
Lemma reached_distance_correlation nodes links policy_net g processed s :
  reached nodes links policy_net g processed s ->
  forall f, f ∈ node_features s -> Distance_Correlation f = 0%Q.
Proof.
  intros (s0 & H0 & Hs) f Hf.
  apply init_session_Ok in H0 as (_ & _ & _ & _ & _ & Hz).
  apply map_steps_distance_correlation in Hs.
  assert (Hin : Distance_Correlation f ∈ map Distance_Correlation (node_features s))
    by (apply list_elem_of_fmap; eauto).
  rewrite Hs in Hin. apply list_elem_of_fmap in Hin as (f0 & -> & Hf0). auto.
Qed.

(** A virtual node whose step left the state as it was is reported
    unmapped by a session that completes, unless another virtual node of the
    request bears its name. *)
Lemma skipped_is_unmapped
    (nodes : list physical_node) (links : list physical_link)
    (policy_net : policy) (g : rng) (before after : list virtual_node)
    (s : session) (v_node : virtual_node) :
  reached nodes links policy_net g before s ->
  map_step policy_net v_node s = Ok s ->
  run_session nodes links (before ++ v_node :: after) policy_net g
    = map_steps policy_net after s /\
  run_session nodes links (before ++ after) policy_net g
    = map_steps policy_net after s /\
  (forall results unmapped,
     main nodes links (before ++ v_node :: after) policy_net g
       = Ok (results, unmapped) ->
     node v_node ∉ map node (before ++ after) ->
     node v_node ∈ unmapped /\ node v_node ∉ map fst results).
Proof.
  intros (s0 & H0 & Hs) Hstep.
  assert (Hrun : run_session nodes links (before ++ v_node :: after) policy_net g
                 = map_steps policy_net after s).
  { unfold run_session. rewrite H0. cbn [mbind result_bind].
    rewrite map_steps_app, Hs. cbn [mbind result_bind map_steps].
    by rewrite Hstep. }
  assert (Hrun' : run_session nodes links (before ++ after) policy_net g
                  = map_steps policy_net after s).
  { unfold run_session. rewrite H0. cbn [mbind result_bind].
    by rewrite map_steps_app, Hs. }
  split_and!; [done..|].
  intros results unmapped Hmain Huniq. unfold main in Hmain.
  rewrite Hrun in Hmain.
  inv_bind Hmain. rename a into s'. injection Hmain as <- <-.
  assert (Hnot : node v_node ∉ map fst (mapping_results s')).
  { intros Hin. apply Huniq. rewrite map_app. apply elem_of_app.
    apply (map_steps_names _ _ _ _ E) in Hin as [Hin|Hin]; [|by right].
    apply (map_steps_names _ _ _ _ Hs) in Hin as [Hin|Hin]; [|by left].
    apply init_session_Ok in H0 as (_ & _ & Hres & _).
    rewrite Hres in Hin. by apply elem_of_nil in Hin. }
  split; [|done]. unfold unmapped_virtual_nodes.
  apply elem_of_difference. split.
  - apply elem_of_list_to_set. rewrite map_app. apply elem_of_app. right. by left.
  - by rewrite elem_of_list_to_set.
Qed.

(** When the names of the request are distinct, no other virtual node bears
    the name of a given one. *)
Lemma NoDup_unique_name (before after : list virtual_node) (v_node : virtual_node) :
  NoDup (map node (before ++ v_node :: after)) ->
  node v_node ∉ map node (before ++ after).
Proof.
  rewrite !map_app. simpl. intros Hnd Hin.
  apply NoDup_app in Hnd as (_ & Hdisj & [Hv _]%NoDup_cons).
  apply elem_of_app in Hin as [Hin|Hin]; [|done].
  apply (Hdisj _ Hin). by left.
Qed.

End Session.

(** * The claims *)

Lemma ex_session_reached : reached ex_nodes ex_links uniform ghalf [] ex_session.
Proof. exists ex_session. split; reflexivity. Qed.

(** ** Distance Correlation *)

(** C7. For every node [k], the Distance Correlation entry is the average,
    over the nodes of the mapped set other than [k], of the distance found by
    the breadth-first search from [k], which is the hop distance (the length
    of a shortest path) of every node that has one; and the entry is exactly
    [0.0] when the mapped set is empty or holds only [k]. *)
Theorem C7_distance_correlation_average
    (nodes : list physical_node) (adjacency : gmap nat (list nat))
    (mapped : list nat) :
  Graph.adjacency_in_range (length nodes) adjacency ->
  (forall m, m ∈ mapped -> (m < length nodes)%nat) ->
  exists dc,
    FeatureExtractor.get_distance_correlation nodes adjacency mapped = Ok dc /\
    length dc = length nodes /\
    forall k, (k < length nodes)%nat ->
      let others := filter (fun m => m ≠ k) mapped in
      let dists := map (Graph.bfs_distance (length nodes) adjacency k) others in
      (forall m d, Graph.hop_distance adjacency k m d ->
         Graph.bfs_distance (length nodes) adjacency k m = Z.of_nat d) /\
      (others ≠ [] ->
         dc !! k = Some (inject_Z (sum_Z dists)
                         / inject_Z (Z.of_nat (length others)))%Q) /\
      (others = [] -> dc !! k = Some 0%Q) /\
      (mapped = [] \/ (forall m, m ∈ mapped -> m = k) -> dc !! k = Some 0%Q).
Proof.
  intros Hadj Hm. eexists. split; [by apply BFS.get_distance_correlation_spec|].
  split; [by rewrite length_map, length_seq|].
  intros k Hk others dists.
  assert (Hlook : forall (g : nat -> Q),
            map g (seq 0 (length nodes)) !! k = Some (g k)).
  { intros g. rewrite list_lookup_fmap, lookup_seq_lt by done. done. }
  rewrite Hlook. fold others. fold dists.
  assert (Hnil : others = [] -> Some (FeatureExtractor.avg_distance dists) = Some 0%Q).
  { intros E. unfold dists. by rewrite E. }
  split_and!.
  - intros m d Hh. by eapply BFS.bfs_distance_hop.
  - intros Hne. unfold dists. destruct others as [|m others'] eqn:E; [done|].
    simpl FeatureExtractor.avg_distance. by rewrite length_map.
  - exact Hnil.
  - intros Hcase. apply Hnil. unfold others. destruct Hcase as [->|Hall]; [done|].
    clear -Hall. induction mapped as [|m mapped IH]; [done|].
    rewrite filter_cons. destruct (decide (m ≠ k)) as [Hne|_].
    + exfalso. apply Hne, Hall. by left.
    + apply IH. intros; apply Hall. by right.
Qed.

(** The path 0 - 1 - 2 with mapped set [0; 2]: the entry of node 1 is
    (1 + 1) / 2, and that of node 0 is its distance 2 to node 2. *)
Lemma ex_links_in_range :
  Graph.adjacency_in_range (length ex_nodes)
    (FeatureExtractor.build_adjacency_list ex_links).
Proof.
  apply BFS.build_adjacency_list_in_range. intros link H.
  repeat (apply elem_of_cons in H as [->|H]; [simpl; lia|]).
  by apply elem_of_nil in H.
Qed.

Lemma ex_mapped_in_range (m : nat) :
  m ∈ [0; 2]%nat -> (m < length ex_nodes)%nat.
Proof.
  intros H. repeat (apply elem_of_cons in H as [->|H]; [simpl; lia|]).
  by apply elem_of_nil in H.
Qed.

Lemma C7_distance_correlation_average_witness :
  exists dc,
    FeatureExtractor.get_distance_correlation ex_nodes
      (FeatureExtractor.build_adjacency_list ex_links) [0; 2]%nat = Ok dc /\
    length dc = 3%nat.
Proof.
  destruct (C7_distance_correlation_average ex_nodes
              (FeatureExtractor.build_adjacency_list ex_links) [0; 2]%nat
              ex_links_in_range ex_mapped_in_range) as (dc & H & Hlen & _).
  exists dc. split; [exact H|exact Hlen].
Defined.

Example ex_distance_correlation :
  FeatureExtractor.get_distance_correlation ex_nodes
    (FeatureExtractor.build_adjacency_list ex_links) [0; 2]%nat
  = Ok [2; 2 # 2; 2]%Q.
Proof. reflexivity. Qed.

(** ** Eligibility and selection *)

(** C3. At every mapping step of a session, the eligible list built by
    [map_virtual_node] holds exactly the indices of the physical nodes whose
    current [cpu_capacity] is at least the virtual node's [cpu_req], and a
    selected node is one of them: its capacity is not below the requirement. *)
Theorem C3_selected_node_is_eligible
    (nodes : list physical_node) (links : list physical_link)
    (policy_net : policy) (g : rng) (processed : list virtual_node)
    (s : session) (v_node : virtual_node) :
  reached nodes links policy_net g processed s ->
  (forall en ep,
     eligible_loop 0 (node_features s)
       (policy_net (map feature_row (node_features s))) (cpu_req v_node) [] []
       = Ok (en, ep) ->
     forall i, i ∈ en <->
       exists n, physical_nodes s !! i = Some n /\ cpu_req v_node <= cpu_capacity n) /\
  (forall probs sel g',
     map_virtual_node (node_features s) policy_net (cpu_req v_node) (random_state s)
       = Ok (probs, sel, g') ->
     exists n, physical_nodes s !! sel = Some n /\
               cpu_req v_node <= cpu_capacity n).
Proof.
  intros Hr. pose proof (Session.reached_inv _ _ _ _ _ _ Hr) as Hinv. split.
  - intros en ep H i. rewrite Decision.eligible_loop_spec in H. inv_bind H.
    injection H as <- _. simpl. by apply Session.eligible_capacity.
  - intros probs sel g' H.
    apply Decision.map_virtual_node_Ok in H as (_ & Hsel & _).
    by apply Session.eligible_capacity in Hsel.
Qed.

(** With capacities [10, 5, 20] and [cpu_req = 8] the eligible list is
    [0; 2], and the node selected is not node 1. *)
Lemma C3_selected_node_is_eligible_witness :
  reached ex_nodes ex_links uniform ghalf [] ex_session /\
  (forall i, i ∈ [0; 2]%nat <->
     exists n, physical_nodes ex_session !! i = Some n /\ 8 <= cpu_capacity n) /\
  (exists n, physical_nodes ex_session !! 2%nat = Some n /\ 8 <= cpu_capacity n).
Proof.
  split; [exact ex_session_reached|].
  destruct (C3_selected_node_is_eligible ex_nodes ex_links uniform ghalf []
              ex_session (vn "a" 8) ex_session_reached) as [Hel Hsel].
  split.
  - apply (Hel [0; 2]%nat [1 / 3; 1 / 3]%float). reflexivity.
  - apply (Hsel (uniform (map feature_row (node_features ex_session))) 2%nat
             (snd (random ghalf))).
    vm_compute. reflexivity.
Defined.

(** ** Resource exhaustion *)

Lemma ex_session_a_reached :
  reached ex_nodes ex_links uniform ghalf [vn "a" 8] ex_session_a.
Proof. exists ex_session. split; reflexivity. Qed.

Lemma ex_session_a_exhausted (n : physical_node) :
  n ∈ physical_nodes ex_session_a -> cpu_capacity n < 30.
Proof.
  intros H. repeat (apply elem_of_cons in H as [->|H]; [simpl; lia|]).
  by apply elem_of_nil in H.
Qed.

Lemma ex_session_exhausted (n : physical_node) :
  n ∈ physical_nodes ex_session -> cpu_capacity n < 30.
Proof.
  intros H. repeat (apply elem_of_cons in H as [->|H]; [simpl; lia|]).
  by apply elem_of_nil in H.
Qed.

(** C5, as stated, fails, in two ways. The unmapped set is a set of names:
    in the request [a(8), a(30)] on capacities [10, 5, 20] no node is
    eligible for the second virtual node, and the unmapped set of the result
    is empty, because the first virtual node bears the same name and is
    mapped. And on a substrate without any node, where no node is eligible
    either, the step does not end with the [ValueError] that [main] catches
    but with torch's [RuntimeError], which ends the session. *)
Lemma C5_counterexample :
  (forall n, n ∈ physical_nodes ex_session_a -> cpu_capacity n < 30) /\
  main ex_nodes ex_links [vn "a" 8; vn "a" 30] uniform ghalf
    = Ok ([("a", "node_2")], ∅) /\
  main [] [] [vn "a" 8] uniform ghalf = Raise RuntimeError.
Proof.
  split_and!; [exact ex_session_a_exhausted|vm_compute; reflexivity|reflexivity].
Qed.

(** C5, amended. On a substrate that has a node, when no physical node has
    the capacity a virtual node asks for, the step of that virtual node ends
    normally and leaves the state as it is; the session goes on with the
    next virtual node of the request, whose step starts from that state, and
    which is committed when [map_virtual_node] selects a node for it; and in
    the result of a session that completes, the virtual node is in the
    unmapped set and has no committed mapping, provided that no other
    virtual node of the request bears its name. *)
Theorem C5_exhaustion_is_recovered
    (nodes : list physical_node) (links : list physical_link)
    (policy_net : policy) (g : rng) (before after : list virtual_node)
    (s : session) (v_node : virtual_node) :
  reached nodes links policy_net g before s ->
  physical_nodes s ≠ [] ->
  (forall n, n ∈ physical_nodes s -> cpu_capacity n < cpu_req v_node) ->
  map_step policy_net v_node s = Ok s /\
  (after = [] ->
   run_session nodes links (before ++ [v_node]) policy_net g = Ok s) /\
  (forall next rest, after = next :: rest ->
     run_session nodes links (before ++ v_node :: after) policy_net g
     = s' ← map_step policy_net next s; map_steps policy_net rest s') /\
  (forall next rest probs sel g' results unmapped,
     after = next :: rest ->
     map_virtual_node (node_features s) policy_net (cpu_req next) (random_state s)
       = Ok (probs, sel, g') ->
     main nodes links (before ++ v_node :: after) policy_net g
       = Ok (results, unmapped) ->
     exists n, physical_nodes s !! sel = Some n /\
               (node next, node_id n) ∈ results) /\
  (forall results unmapped,
     main nodes links (before ++ v_node :: after) policy_net g
       = Ok (results, unmapped) ->
     node v_node ∉ map node (before ++ after) ->
     node v_node ∈ unmapped /\ node v_node ∉ map fst results).
Proof.
  intros Hr Hne Hnone.
  pose proof (Session.reached_inv _ _ _ _ _ _ Hr) as Hinv.
  assert (Hstep : map_step policy_net v_node s = Ok s).
  { apply Session.map_step_none; [by apply Session.features_nonempty|].
    by apply Session.eligible_none. }
  destruct (Session.skipped_is_unmapped nodes links policy_net g before after
              s v_node Hr Hstep) as (Hrun & _ & Hrep).
  split_and!; [done| | | |done].
  - intros ->. by rewrite Hrun.
  - intros next rest ->. by rewrite Hrun.
  - intros next rest probs sel g' results unmapped -> Hsel Hmain.
    unfold main in Hmain. rewrite Hrun in Hmain. cbn [map_steps] in Hmain.
    destruct (Session.map_step_commit policy_net next s probs sel g' Hinv Hsel)
      as (n & f & Hn & _ & _ & Hst).
    rewrite Hst in Hmain. cbn [mbind result_bind] in Hmain.
    inv_bind Hmain. injection Hmain as <- _.
    exists n. split; [done|].
    eapply Session.map_steps_results_mono; [exact E|].
    simpl. apply elem_of_app. right. by left.
Qed.

(** The request [a(8), b(30), c(8)] on capacities [10, 5, 20]: [b] fits
    nowhere, and the step of [c] follows, from the state left by [a]. *)
Lemma C5_exhaustion_is_recovered_witness :
  map_step uniform (vn "b" 30) ex_session_a = Ok ex_session_a /\
  run_session ex_nodes ex_links ex_request uniform ghalf
  = (s' ← map_step uniform (vn "c" 8) ex_session_a; map_steps uniform [] s') /\
  (forall results unmapped,
     main ex_nodes ex_links ex_request uniform ghalf = Ok (results, unmapped) ->
     "b" ∈ unmapped /\ "b" ∉ map fst results).
Proof.
  destruct (C5_exhaustion_is_recovered ex_nodes ex_links uniform ghalf
              [vn "a" 8] [vn "c" 8] ex_session_a (vn "b" 30))
    as (Hstep & _ & Hnext & _ & Hrep).
  - exact ex_session_a_reached.
  - discriminate.
  - exact ex_session_a_exhausted.
  - split_and!; [exact Hstep|exact (Hnext (vn "c" 8) [] eq_refl)|].
    intros results unmapped Hmain. apply (Hrep results unmapped Hmain).
    simpl. intros H.
    repeat (apply elem_of_cons in H as [H|H]; [discriminate|]).
    by apply elem_of_nil in H.
Defined.

Example ex_request_result :
  main ex_nodes ex_links ex_request uniform ghalf
  = Ok ([("a", "node_2"); ("c", "node_2")], {["b"]}).
Proof. vm_compute. reflexivity. Qed.

Lemma empty_session_reached : reached [] [] uniform ghalf [] empty_session.
Proof. exists empty_session. split; reflexivity. Qed.

(** C10, as stated, fails, in two ways. In the request [a(30), a(8)] on
    capacities [10, 5, 20] the step of the first virtual node finds no
    eligible node and changes nothing, and the failure does not show in the
    result either: the unmapped set is empty, because the second virtual
    node bears the same name and is mapped. And on a substrate without any
    node, where no node is eligible, the step is not a failed mapping: it
    raises torch's [RuntimeError], which [main] does not catch. *)
Lemma C10_counterexample :
  (forall n, n ∈ physical_nodes ex_session -> cpu_capacity n < 30) /\
  map_step uniform (vn "a" 30) ex_session = Ok ex_session /\
  main ex_nodes ex_links [vn "a" 30; vn "a" 8] uniform ghalf
    = Ok ([("a", "node_2")], ∅) /\
  physical_nodes empty_session = [] /\
  map_virtual_node (node_features empty_session) uniform 8
    (random_state empty_session) = Raise RuntimeError /\
  map_step uniform (vn "a" 8) empty_session = Raise RuntimeError.
Proof.
  split_and!; [exact ex_session_exhausted|reflexivity|vm_compute; reflexivity
              |reflexivity..].
Qed.

(** C10, amended. On a substrate that has a node, a step for which no node
    is eligible fails with the [ValueError] that [main] catches and changes
    nothing: capacities, feature rows, mapped set, committed mappings and
    random source are those of before the step, and the session runs on as
    if the virtual node had not been in the request. In the result the
    failure shows in the unmapped set, and only there, provided that no
    other virtual node of the request bears the same name. *)
Theorem C10_failed_step_changes_nothing
    (nodes : list physical_node) (links : list physical_link)
    (policy_net : policy) (g : rng) (processed : list virtual_node)
    (s : session) (v_node : virtual_node) :
  reached nodes links policy_net g processed s ->
  physical_nodes s ≠ [] ->
  (forall n, n ∈ physical_nodes s -> cpu_capacity n < cpu_req v_node) ->
  map_virtual_node (node_features s) policy_net (cpu_req v_node) (random_state s)
    = Raise ValueError /\
  exists s', map_step policy_net v_node s = Ok s' /\
    physical_nodes s' = physical_nodes s /\
    node_features s' = node_features s /\
    mapped_nodes s' = mapped_nodes s /\
    mapping_results s' = mapping_results s /\
    random_state s' = random_state s /\
    forall after,
      run_session nodes links (processed ++ v_node :: after) policy_net g
      = run_session nodes links (processed ++ after) policy_net g /\
      forall results unmapped,
        main nodes links (processed ++ v_node :: after) policy_net g
          = Ok (results, unmapped) ->
        node v_node ∉ map node (processed ++ after) ->
        node v_node ∈ unmapped /\ node v_node ∉ map fst results.
Proof.
  intros Hr Hne Hnone.
  pose proof (Session.reached_inv _ _ _ _ _ _ Hr) as Hinv.
  pose proof (Session.features_nonempty s Hinv Hne) as Hnf.
  pose proof (Session.eligible_none s (cpu_req v_node) Hinv Hnone) as Hel.
  split; [by apply Decision.map_virtual_node_none|].
  exists s. split; [by apply Session.map_step_none|].
  split_and!; try done.
  intros after.
  destruct (Session.skipped_is_unmapped nodes links policy_net g processed after
              s v_node Hr) as (Hrun & Hrun' & Hrep);
    [by apply Session.map_step_none|].
  split; [by rewrite Hrun, Hrun'|done].
Qed.

Lemma C10_failed_step_changes_nothing_witness :
  map_virtual_node (node_features ex_session_a) uniform 30
    (random_state ex_session_a) = Raise ValueError /\
  exists s', map_step uniform (vn "b" 30) ex_session_a = Ok s' /\
    physical_nodes s' = physical_nodes ex_session_a /\
    node_features s' = node_features ex_session_a /\
    mapped_nodes s' = mapped_nodes ex_session_a /\
    mapping_results s' = mapping_results ex_session_a /\
    random_state s' = random_state ex_session_a /\
    forall after,
      run_session ex_nodes ex_links ([vn "a" 8] ++ vn "b" 30 :: after) uniform ghalf
      = run_session ex_nodes ex_links ([vn "a" 8] ++ after) uniform ghalf /\
      forall results unmapped,
        main ex_nodes ex_links ([vn "a" 8] ++ vn "b" 30 :: after) uniform ghalf
          = Ok (results, unmapped) ->
        "b" ∉ map node ([vn "a" 8] ++ after) ->
        "b" ∈ unmapped /\ "b" ∉ map fst results.
Proof.
  apply (C10_failed_step_changes_nothing ex_nodes ex_links uniform ghalf
           [vn "a" 8] ex_session_a (vn "b" 30)).
  - exact ex_session_a_reached.
  - discriminate.
  - exact ex_session_a_exhausted.
Defined.

(** ** Capacity deduction *)

(** C6. A step that commits takes the node that [map_virtual_node] returned,
    appends it to the mapped set, and sets its capacity to
    [max(0, capacity - cpu_req)]; its [id] and [security_level] stay as they
    are and no other physical node changes. This holds of a step from any
    state. So a step keeps the capacities non-negative, and in a session
    that starts from non-negative capacities every capacity is non-negative
    in every state. *)
Theorem C6_capacity_deduction_clamped
    (policy_net : policy) (v_node : virtual_node) (s s' : session) :
  map_step policy_net v_node s = Ok s' ->
  ((map_virtual_node (node_features s) policy_net (cpu_req v_node)
      (random_state s) = Raise ValueError /\ s' = s) \/
   exists probs sel g' n n',
     map_virtual_node (node_features s) policy_net (cpu_req v_node)
       (random_state s) = Ok (probs, sel, g') /\
     mapped_nodes s' = mapped_nodes s ++ [sel] /\
     physical_nodes s !! sel = Some n /\
     physical_nodes s' !! sel = Some n' /\
     cpu_capacity n' = Z.max 0 (cpu_capacity n - cpu_req v_node) /\
     node_id n' = node_id n /\ security_level n' = security_level n /\
     length (physical_nodes s') = length (physical_nodes s) /\
     forall i, i ≠ sel -> physical_nodes s' !! i = physical_nodes s !! i) /\
  ((forall n, n ∈ physical_nodes s -> 0 <= cpu_capacity n) ->
   forall n, n ∈ physical_nodes s' -> 0 <= cpu_capacity n) /\
  (forall nodes links g processed,
     (forall n, n ∈ nodes -> 0 <= cpu_capacity n) ->
     reached nodes links policy_net g processed s ->
     (forall n, n ∈ physical_nodes s -> 0 <= cpu_capacity n) /\
     (forall n, n ∈ physical_nodes s' -> 0 <= cpu_capacity n)).
Proof.
  intros Hstep.
  assert (Hkeep : (forall n, n ∈ physical_nodes s -> 0 <= cpu_capacity n) ->
                  forall n, n ∈ physical_nodes s' -> 0 <= cpu_capacity n).
  { intros Hs.
    destruct (Session.map_step_cases _ _ _ _ Hstep)
      as [[_ ->]|(? & ? & ? & ? & ? & _ & _ & _ & ->)];
      [done|by apply Session.commit_nonneg]. }
  split_and!; [|done|].
  - destruct (Session.map_step_cases _ _ _ _ Hstep)
      as [[Herr ->]|(probs & sel & g' & n & f & Hsel & Hn & _ & ->)];
      [by left|right].
    pose proof (lookup_lt_Some _ _ _ Hn) as Hlt.
    exists probs, sel, g', n,
      (set_cpu_capacity n (deduct_capacity (cpu_capacity n) (cpu_req v_node))).
    simpl. split_and!; try done.
    + by apply list_lookup_insert_eq.
    + apply Session.deduct_capacity_max.
    + by rewrite length_insert.
    + intros i Hi. by rewrite list_lookup_insert_ne.
  - intros nodes links g processed Hnodes (s0 & H0 & Hs).
    assert (Hs_nonneg : forall n, n ∈ physical_nodes s -> 0 <= cpu_capacity n).
    { eapply Session.map_steps_nonneg; [exact Hs|].
      apply Session.init_session_Ok in H0 as (-> & _). done. }
    split; [done|by apply Hkeep].
Qed.

(** [cpu_req = 15] against a capacity of [10] leaves exactly [0]. *)
Lemma C6_capacity_deduction_clamped_witness :
  physical_nodes overdrawn_session !! 0%nat = Some (pn 0 10 1) /\
  exists n', physical_nodes overdrawn_after !! 0%nat = Some n' /\
             cpu_capacity n' = 0.
Proof.
  split; [reflexivity|].
  destruct (C6_capacity_deduction_clamped uniform (vn "a" 15) overdrawn_session
              overdrawn_after eq_refl)
    as ([[_ Heq]|(probs & sel & g' & n & n' & _ & Hm & Hn & Hn' & Hc & _)] & _).
  - discriminate Heq.
  - assert (sel = 0%nat) as -> by (simpl in Hm; by injection Hm).
    injection Hn as <-. exists n'. split; [exact Hn'|exact Hc].
Defined.

(** [cpu_req = 8] against a capacity of [10] leaves exactly [2]: the first
    step of a session on capacities [10, 5, 20], with a random source that
    selects node 0. *)
Example ex_commit_8_of_10 :
  reached ex_nodes ex_links uniform gzero [vn "a" 8] ex_session_low /\
  map cpu_capacity ex_nodes = [10; 5; 20] /\
  mapped_nodes ex_session_low = [0%nat] /\
  map cpu_capacity (physical_nodes ex_session_low) = [2; 5; 20].
Proof.
  split_and!; try reflexivity.
  exists (state_after ex_nodes ex_links uniform gzero []). split; reflexivity.
Qed.

Example ex_commit_15_of_10 :
  map_step uniform (vn "a" 15) overdrawn_session = Ok overdrawn_after /\
  map cpu_capacity (physical_nodes overdrawn_session) = [10] /\
  map cpu_capacity (physical_nodes overdrawn_after) = [0].
Proof. split_and!; reflexivity. Qed.

(** ** Reuse of a physical node *)

Lemma one_node_session_reached :
  reached one_node [] uniform ghalf [vn "a" 7] one_node_session.
Proof.
  exists {| physical_nodes := one_node;
            node_features :=
              [{| Node := "node_0"; CPU_Resources := 20; Adjacent_Bandwidth := 0;
                  Distance_Correlation := 0; Time_Correlation := 0;
                  Security := 1 |}];
            mapped_nodes := []; mapping_results := []; random_state := ghalf |}.
  split; reflexivity.
Qed.

(** C9. Eligibility looks at the current capacity only: a node that is in
    the mapped set and whose remaining capacity meets the next [cpu_req] is
    in the eligible list; when [map_virtual_node] selects it again the step
    commits it; and when it is the only node with enough capacity and its
    score is a finite number (not an infinity, not a NaN), every completed
    step appends it to the mapped set a second time. *)
Theorem C9_mapped_node_remains_eligible
    (nodes : list physical_node) (links : list physical_link)
    (policy_net : policy) (g : rng) (processed : list virtual_node)
    (s : session) (v_node : virtual_node) (j : nat) (n : physical_node) :
  reached nodes links policy_net g processed s ->
  j ∈ mapped_nodes s ->
  physical_nodes s !! j = Some n ->
  cpu_req v_node <= cpu_capacity n ->
  (forall en ep,
     eligible_loop 0 (node_features s)
       (policy_net (map feature_row (node_features s))) (cpu_req v_node) [] []
       = Ok (en, ep) -> j ∈ en) /\
  (forall probs g',
     map_virtual_node (node_features s) policy_net (cpu_req v_node) (random_state s)
       = Ok (probs, j, g') ->
     exists f, map_step policy_net v_node s = Ok (commit s v_node j n f g')) /\
  ((forall i m, physical_nodes s !! i = Some m -> i ≠ j ->
                cpu_capacity m < cpu_req v_node) ->
   (forall p, policy_net (map feature_row (node_features s)) !! j = Some p ->
              is_finite p = true) ->
   forall s', map_step policy_net v_node s = Ok s' ->
              mapped_nodes s' = mapped_nodes s ++ [j]).
Proof.
  intros Hr Hj Hn Hc.
  pose proof (Session.reached_inv _ _ _ _ _ _ Hr) as Hinv.
  assert (Hel : j ∈ eligible_from 0 (node_features s) (cpu_req v_node))
    by (apply Session.eligible_capacity; eauto).
  split_and!.
  - intros en ep H. rewrite Decision.eligible_loop_spec in H. inv_bind H.
    by injection H as <- _.
  - intros probs g' H.
    destruct (Session.map_step_commit policy_net v_node s probs j g' Hinv H)
      as (n' & f & Hn' & _ & _ & Hstep).
    rewrite Hn in Hn'. injection Hn' as <-. eauto.
  - intros Honly Hfin s' Hstep.
    apply Session.map_step_cases in Hstep
      as [[Herr _]|(probs & sel & g' & m & f & Hsel & Hm & _ & ->)].
    + exfalso.
      assert (Hen : eligible_from 0 (node_features s) (cpu_req v_node) = [j]).
      { apply Decision.eligible_from_single; [done|]. intros i Hi.
        apply (Session.eligible_capacity s _ _ Hinv) in Hi as (m & Hm & Hc').
        destruct (decide (i = j)) as [|Hne]; [done|].
        specialize (Honly i m Hm Hne). lia. }
      destruct (Decision.outcomes (node_features s) policy_net (cpu_req v_node)
                  (random_state s))
        as [[_ E]|[(_ & He & _)|[(_ & _ & E)|[(_ & _ & _ & E)
           |[(_ & Hp & Hz & Hu & _)|(_ & _ & _ & _ & i & sel & _ & E & _)]]]]];
        try (rewrite E in Herr; done).
      * rewrite He in Hel. by apply elem_of_nil in Hel.
      * rewrite Hen in Hp, Hz, Hu.
        destruct (lookup_lt_is_Some_2 _ j (Hp j ltac:(by left))) as [p Hpj].
        unfold scores_at in Hz, Hu. cbn [map] in Hz, Hu.
        rewrite Hpj in Hz, Hu. cbn [default from_option id] in Hz, Hu.
        rewrite (Float.quotients_single p (Hfin p Hpj) Hz) in Hu.
        by rewrite Float.usable_single in Hu.
    + simpl. f_equal. f_equal.
      apply Decision.map_virtual_node_Ok in Hsel as (_ & Hsel & _).
      apply (Session.eligible_capacity s _ _ Hinv) in Hsel as (m' & Hm' & Hc').
      destruct (decide (sel = j)) as [|Hne]; [done|].
      specialize (Honly sel m' Hm' Hne). lia.
Qed.

(** After [a] is mapped on node 0, node 0 (13 left) is selected for [b] too. *)
Lemma C9_mapped_node_remains_eligible_witness :
  (0%nat ∈ mapped_nodes one_node_session) /\
  (forall s', map_step uniform (vn "b" 7) one_node_session = Ok s' ->
              mapped_nodes s' = [0; 0]%nat).
Proof.
  split; [by left|].
  pose proof (C9_mapped_node_remains_eligible one_node [] uniform ghalf [vn "a" 7]
                one_node_session (vn "b" 7) 0%nat (pn 0 13 1)
                one_node_session_reached) as H.
  destruct H as (_ & _ & H); [by left|reflexivity|simpl; lia|].
  apply H.
  - intros [|i] m Hm Hne; [done|]. simpl in Hm. done.
  - intros p Hp. vm_compute in Hp. injection Hp as <-. reflexivity.
Defined.

Example one_node_twice :
  main one_node [] [vn "a" 7; vn "b" 7] uniform ghalf
  = Ok ([("a", "node_0"); ("b", "node_0")], ∅).
Proof. vm_compute. reflexivity. Qed.

(** ** Renormalisation *)

(** C2, as stated, fails: with capacities [10, 5, 20], [cpu_req = 8] and all
    scores [0.0], the eligible list [0; 2] is non-empty, its scores sum to
    [0.0], and the division raises [ZeroDivisionError]; no node is selected
    and [main] ends with that error. *)
Lemma C2_counterexample :
  eligible_loop 0 (node_features ex_session)
    (zero_policy (map feature_row (node_features ex_session))) 8 [] []
    = Ok ([0; 2]%nat, [0; 0]%float) /\
  sum_float [0; 0]%float = 0%float /\
  map_virtual_node (node_features ex_session) zero_policy 8 ghalf
    = Raise ZeroDivisionError /\
  main ex_nodes ex_links [vn "a" 8] zero_policy ghalf = Raise ZeroDivisionError.
Proof. split_and!; reflexivity. Qed.

(** C2, amended. When the eligible list is non-empty, each eligible score
    is divided by the float sum of the eligible scores, and nothing guards
    the division. When that sum is [0.0], as it is when every eligible
    score is [0.0], the division raises [ZeroDivisionError]: there is no
    uniform distribution to fall back on. When it is not, the quotients are
    the weights handed to [random.choices], whose outcome is that of
    [map_virtual_node]: the [ValueError] of a total weight that is not
    positive and finite, or else a node of the eligible list. *)
Theorem C2_renormalisation_without_fallback
    (nf : list node_feature) (policy_net : policy) (req : Z) (g : rng)
    (en : list nat) (ep : list float) :
  eligible_loop 0 nf (policy_net (map feature_row nf)) req [] [] = Ok (en, ep) ->
  en ≠ [] ->
  ((forall p, p ∈ ep -> p = 0%float) -> (sum_float ep =? 0)%float = true) /\
  ((sum_float ep =? 0)%float = true ->
   normalize ep (sum_float ep) = Raise ZeroDivisionError /\
   map_virtual_node nf policy_net req g = Raise ZeroDivisionError) /\
  ((sum_float ep =? 0)%float = false ->
   normalize ep (sum_float ep) = Ok (quotients ep) /\
   map_virtual_node nf policy_net req g
   = ('(sel, g') ← Random.choices en (quotients ep) g;
      Ok (policy_net (map feature_row nf), sel, g')) /\
   (usable (total_weight (quotients ep)) = false ->
    map_virtual_node nf policy_net req g = Raise ValueError) /\
   (usable (total_weight (quotients ep)) = true ->
    exists sel,
      map_virtual_node nf policy_net req g
        = Ok (policy_net (map feature_row nf), sel, snd (random g)) /\
      sel ∈ en)).
Proof.
  intros H Hne. rewrite Decision.eligible_loop_spec in H. inv_bind H.
  rename a into scores. injection H as <- <-. simpl in Hne |- *.
  pose proof (mapM_Ok_length _ _ _ E) as Hlen.
  assert (Hsc : scores ≠ []).
  { intros ->. destruct (eligible_from 0 nf req); done. }
  pose proof (Decision.map_virtual_node_scores nf policy_net req g scores Hne E)
    as Hunf.
  split_and!.
  - intros Hz. by rewrite Float.sum_float_zeros.
  - intros Hz. rewrite Hunf, Decision.normalize_zero by done. done.
  - intros Hz. rewrite Hunf, Decision.normalize_nonzero by done.
    cbn [mbind result_bind]. fold (quotients scores).
    split_and!; [done..| |].
    + intros Hu.
      destruct (Decision.choices_spec (eligible_from 0 nf req) (quotients scores) g)
        as [[_ ->]|[Hu' _]]; [done|by unfold quotients; rewrite length_map|done|].
      congruence.
    + intros Hu.
      destruct (Decision.choices_spec (eligible_from 0 nf req) (quotients scores) g)
        as [[Hu' _]|(_ & i & sel & Hsel & -> & _)];
        [done|by unfold quotients; rewrite length_map|congruence|].
      exists sel. split; [done|]. by eapply list_elem_of_lookup_2.
Qed.

(** Capacities [10, 5, 20], [cpu_req = 8] and uniform scores: the eligible
    scores sum to 2/3, the weights are [0.5; 0.5], and a node of [0; 2] is
    selected. *)
Lemma C2_renormalisation_without_fallback_witness :
  normalize [1 / 3; 1 / 3]%float (sum_float [1 / 3; 1 / 3]%float)
    = Ok [0.5; 0.5]%float /\
  exists sel,
    map_virtual_node (node_features ex_session) uniform 8 ghalf
      = Ok (uniform (map feature_row (node_features ex_session)), sel,
            snd (random ghalf)) /\
    sel ∈ [0; 2]%nat.
Proof.
  destruct (C2_renormalisation_without_fallback (node_features ex_session)
              uniform 8 ghalf [0; 2]%nat [1 / 3; 1 / 3]%float)
    as (_ & _ & H); [reflexivity|discriminate|].
  destruct H as (Hn & _ & _ & Hsel); [reflexivity|].
  split; [exact Hn|]. apply Hsel. reflexivity.
Defined.

(** ** Score vectors that break the contract *)





(** ** Unreachable nodes *)

Lemma split_links_in_range (link : physical_link) :
  link ∈ split_links ->
  (source link < length split_nodes)%nat /\ (target link < length split_nodes)%nat.
Proof.
  intros ->%list_elem_of_singleton. simpl. lia.
Qed.

(** C4, as stated, fails: node 2 is unreachable from node 0, the search
    leaves its distance at [0], the value it also gives to node 0 itself, and
    with the mapped set [1; 2] the entry of node 0 is (1 + 0) / 2, not the
    average 1 over the reachable mapped nodes. *)
Lemma C4_counterexample :
  let adjacency := FeatureExtractor.build_adjacency_list split_links in
  ~ Graph.reachable adjacency 0 2 /\
  FeatureExtractor.bfs 3 adjacency 0
    = Ok {| FeatureExtractor.visited := [true; true; false];
            FeatureExtractor.distance := [0; 1; 0];
            FeatureExtractor.queue := [] |} /\
  FeatureExtractor.get_distance_correlation split_nodes adjacency [1; 2]%nat
    = Ok [1 # 2; 0; 0]%Q /\
  spec_distance_corr_of 3 adjacency [1; 2]%nat 0 = Ok 1%Q /\
  ~ (1 # 2 == 1)%Q.
Proof.
  intros adjacency.
  assert (Hbfs : FeatureExtractor.bfs 3 adjacency 0
            = Ok {| FeatureExtractor.visited := [true; true; false];
                    FeatureExtractor.distance := [0; 1; 0];
                    FeatureExtractor.queue := [] |}) by reflexivity.
  split_and!; [|done|reflexivity|reflexivity|discriminate].
  intros Hreach.
  destruct (BFS.bfs_correct 3 adjacency 0) as (st & Hst & _ & _ & Hvis & _).
  - apply (BFS.build_adjacency_list_in_range (length split_nodes)).
    exact split_links_in_range.
  - lia.
  - rewrite Hbfs in Hst. injection Hst as <-.
    assert (H : [true; true; false] !! 2%nat = Some true) by (apply Hvis; split; [lia|done]).
    discriminate.
Qed.

(** C4, amended. For any substrate, connected or not, whose links join
    existing nodes, the Distance Correlation is computed without error; a
    node unreachable from [k] has distance [0] in the search from [k], there
    is no sentinel, and the average for [k] runs over every mapped node other
    than [k], the unreachable ones counting as [0]. *)
Theorem C4_unreachable_nodes_count_as_zero
    (nodes : list physical_node) (links : list physical_link) (mapped : list nat) :
  (forall link, link ∈ links ->
     (source link < length nodes)%nat /\ (target link < length nodes)%nat) ->
  (forall m, m ∈ mapped -> (m < length nodes)%nat) ->
  let adjacency := FeatureExtractor.build_adjacency_list links in
  exists dc,
    FeatureExtractor.get_distance_correlation nodes adjacency mapped = Ok dc /\
    length dc = length nodes /\
    forall k, (k < length nodes)%nat ->
      let others := filter (fun m => m ≠ k) mapped in
      let dists := map (Graph.bfs_distance (length nodes) adjacency k) others in
      (forall m, ~ Graph.reachable adjacency k m ->
         Graph.bfs_distance (length nodes) adjacency k m = 0) /\
      (others ≠ [] ->
         dc !! k = Some (inject_Z (sum_Z dists)
                         / inject_Z (Z.of_nat (length others)))%Q).
Proof.
  intros Hlinks Hm adjacency.
  assert (Hadj : Graph.adjacency_in_range (length nodes) adjacency)
    by (by apply BFS.build_adjacency_list_in_range).
  eexists. split; [by apply BFS.get_distance_correlation_spec|].
  split; [by rewrite length_map, length_seq|].
  intros k Hk others dists. split.
  - intros m Hu. by apply BFS.bfs_distance_unreachable.
  - intros Hne. rewrite list_lookup_fmap, lookup_seq_lt by done. simpl.
    fold others. fold dists. unfold dists.
    destruct others as [|m others']; [done|].
    simpl FeatureExtractor.avg_distance. by rewrite length_map.
Qed.

Lemma split_mapped_in_range (m : nat) :
  m ∈ [1; 2]%nat -> (m < length split_nodes)%nat.
Proof.
  intros H. repeat (apply elem_of_cons in H as [->|H]; [simpl; lia|]).
  by apply elem_of_nil in H.
Qed.

Lemma C4_unreachable_nodes_count_as_zero_witness :
  exists dc,
    FeatureExtractor.get_distance_correlation split_nodes
      (FeatureExtractor.build_adjacency_list split_links) [1; 2]%nat = Ok dc /\
    length dc = 3%nat.
Proof.
  destruct (C4_unreachable_nodes_count_as_zero split_nodes split_links [1; 2]%nat
              split_links_in_range split_mapped_in_range) as (dc & H & Hlen & _).
  exists dc. split; [exact H|exact Hlen].
Defined.

(** ** Staleness of the feature matrix *)

(** C1 fails on the code. After the first commit the mapped set is [0], and
    the feature rows that the second step hands to the policy still carry the
    Distance Correlation [0.0] of the only computation, made before the loop
    with an empty mapped set: the probing policy scores both nodes [1].
    Computed from the current state, the entry of node 1 is its distance 1 to
    node 0. *)
Theorem C1_distance_correlation_is_stale :
  reached pair_nodes pair_links dc_probe ghalf [vn "a" 7] pair_session /\
  mapped_nodes pair_session = [0%nat] /\
  map feature_row (node_features pair_session)
    = [[13; 10; 0; 4; 1]; [1; 10; 0; 4; 1]]%Q /\
  map_virtual_node (node_features pair_session) dc_probe 7
    (random_state pair_session)
    = Ok ([1; 1]%float, 0%nat, snd (random (random_state pair_session))) /\
  map Distance_Correlation (node_features pair_session) = [0; 0]%Q /\
  FeatureExtractor.get_distance_correlation (physical_nodes pair_session)
    (FeatureExtractor.build_adjacency_list pair_links) (mapped_nodes pair_session)
    = Ok [0; 1]%Q.
Proof.
  split_and!; try reflexivity.
  exists (state_after pair_nodes pair_links dc_probe ghalf []).
  split; reflexivity.
Qed.

(** * Further properties of the code *)

(** ** The per-node sums over the links *)

Module Arrays.
Import FeatureExtractor Incidence.

Lemma iadd_cases (l : list Z) (i : nat) (v : Z) :
  (exists x, l !! i = Some x /\ iadd l i v = Ok (<[i := x + v]> l)) \/
  ((length l <= i)%nat /\ iadd l i v = Raise IndexError).
Proof.
  unfold iadd, getitem, setitem. destruct (l !! i) as [x|] eqn:E; simpl.
  - left. by exists x.
  - right. split; [by apply lookup_ge_None|done].
Qed.

Lemma lookup_bump (l : list Z) (i j : nat) (x y v : Z) :
  l !! i = Some x -> l !! j = Some y ->
  <[i := x + v]> l !! j = Some (y + if decide (i = j) then v else 0).
Proof.
  intros Hi Hj. destruct (decide (i = j)) as [->|Hne].
  - rewrite list_lookup_insert_eq by (by eapply lookup_lt_Some).
    rewrite Hi in Hj. by injection Hj as ->.
  - rewrite list_lookup_insert_ne by done. rewrite Hj. f_equal. lia.
Qed.

(** Adding at the two ends of a link. *)
Lemma iadd_ends (l : list Z) (a b : nat) (v : Z) :
  (a < length l)%nat -> (b < length l)%nat ->
  exists l', (l1 ← iadd l a v; iadd l1 b v) = Ok l' /\ length l' = length l /\
    forall j y, l !! j = Some y ->
      l' !! j = Some (y + (if decide (a = j) then v else 0)
                        + (if decide (b = j) then v else 0)).
Proof.
  intros Ha Hb.
  destruct (iadd_cases l a v) as [(x & Hx & ->)|[? _]]; [|lia].
  cbn [mbind result_bind].
  destruct (iadd_cases (<[a := x + v]> l) b v) as [(y & Hy & ->)|[Hge _]];
    [|rewrite length_insert in Hge; lia].
  eexists. split; [done|]. split; [by rewrite !length_insert|].
  intros j z Hj. eapply lookup_bump; [done|]. by eapply lookup_bump.
Qed.

Lemma iadd_ends_error (l : list Z) (a b : nat) (v : Z) :
  ((length l <= a)%nat \/ (length l <= b)%nat) ->
  (l1 ← iadd l a v; iadd l1 b v) = Raise IndexError.
Proof.
  intros Hab.
  destruct (iadd_cases l a v) as [(x & Hx & ->)|[? ->]]; [|done].
  cbn [mbind result_bind].
  destruct (iadd_cases (<[a := x + v]> l) b v) as [(y & Hy & _)|[_ ->]]; [|done].
  apply lookup_lt_Some in Hx, Hy. rewrite length_insert in Hy. lia.
Qed.

Lemma adj_bandwidth_loop_spec (links : list physical_link) (l : list Z) :
  links_in_range (length l) links ->
  exists l', adj_bandwidth_loop links l = Ok l' /\ length l' = length l /\
    forall j y, l !! j = Some y ->
      l' !! j = Some (y + incident_sum bandwidth links j).
Proof.
  revert l. induction links as [|link links IH]; intros l Hr; cbn [adj_bandwidth_loop].
  - exists l. split_and!; [done..|]. intros j y ->. simpl. f_equal. lia.
  - destruct (Hr link) as [Hs Ht]; [by left|].
    destruct (iadd_ends l (source link) (target link) (bandwidth link) Hs Ht)
      as (l1 & H1 & Hlen & Hl1).
    assert (E : adj_bandwidth_loop (link :: links) l = adj_bandwidth_loop links l1).
    { cbn [adj_bandwidth_loop].
      destruct (iadd l (source link) (bandwidth link)); cbn [mbind result_bind] in *;
        [|done..].
      by rewrite H1. }
    cbn [adj_bandwidth_loop] in E. rewrite E.
    destruct (IH l1) as (l' & -> & Hlen' & Hl').
    { rewrite Hlen. intros ? ?; apply Hr. by right. }
    exists l'. split_and!; [done|congruence|].
    intros j y Hj. rewrite (Hl' j _ (Hl1 j y Hj)). simpl. f_equal. lia.
Qed.

Lemma adj_bandwidth_loop_error (links : list physical_link) (l : list Z) :
  ~ links_in_range (length l) links ->
  adj_bandwidth_loop links l = Raise IndexError.
Proof.
  revert l. induction links as [|link links IH]; intros l Hr.
  - exfalso. apply Hr. by intros ? ?%elem_of_nil.
  - cbn [adj_bandwidth_loop].
    destruct (decide ((source link < length l)%nat /\ (target link < length l)%nat))
      as [[Hs Ht]|Hout].
    + destruct (iadd_ends l (source link) (target link) (bandwidth link) Hs Ht)
        as (l1 & H1 & Hlen & _).
      destruct (iadd l (source link) (bandwidth link)); cbn [mbind result_bind] in *;
        [|done..].
      rewrite H1. cbn [mbind result_bind]. apply IH. rewrite Hlen.
      intros Hrest. apply Hr. intros x [->|Hx]%elem_of_cons; [done|by apply Hrest].
    + pose proof (iadd_ends_error l (source link) (target link) (bandwidth link))
        as Herr.
      destruct (iadd l (source link) (bandwidth link)); cbn [mbind result_bind] in *;
        [|apply Herr; lia|discriminate Herr; lia].
      rewrite Herr by lia. done.
Qed.

Lemma result_bind_assoc {A B C : Type} (m : result A) (f : A -> result B)
    (h : B -> result C) :
  (m ≫= f) ≫= h = m ≫= (fun a => f a ≫= h).
Proof. by destruct m. Qed.

Lemma time_corr_loop_spec (links : list physical_link) (td lc : list Z) :
  links_in_range (length td) links -> length lc = length td ->
  exists td' lc', time_corr_loop links td lc = Ok (td', lc') /\
    length td' = length td /\ length lc' = length td /\
    (forall j y, td !! j = Some y ->
       td' !! j = Some (y + incident_sum delay links j)) /\
    (forall j y, lc !! j = Some y -> lc' !! j = Some (y + degree links j)).
Proof.
  revert td lc. induction links as [|link links IH]; intros td lc Hr Hlen.
  - exists td, lc. split_and!; [done..| |]; intros j y ->; simpl; f_equal;
      unfold degree; simpl; lia.
  - destruct (Hr link) as [Hs Ht]; [by left|].
    destruct (iadd_ends td (source link) (target link) (delay link) Hs Ht)
      as (td1 & H1 & Hlen1 & Htd1).
    destruct (iadd_ends lc (source link) (target link) 1) as (lc1 & H2 & Hlen2 & Hlc1);
      [lia..|].
    assert (E : time_corr_loop (link :: links) td lc = time_corr_loop links td1 lc1).
    { cbn [time_corr_loop].
      rewrite <- (result_bind_assoc (iadd td (source link) (delay link))).
      rewrite H1. cbn [mbind result_bind].
      rewrite <- (result_bind_assoc (iadd lc (source link) 1)).
      rewrite H2. done. }
    rewrite E.
    destruct (IH td1 lc1) as (td' & lc' & -> & Hl1 & Hl2 & Htd & Hlc).
    { rewrite Hlen1. intros ? ?; apply Hr. by right. }
    { congruence. }
    exists td', lc'. split_and!; [done|congruence|congruence| |].
    + intros j y Hj. rewrite (Htd j _ (Htd1 j y Hj)). simpl. f_equal. lia.
    + intros j y Hj. rewrite (Hlc j _ (Hlc1 j y Hj)). unfold degree. simpl.
      f_equal. lia.
Qed.

Lemma time_corr_loop_error (links : list physical_link) (td lc : list Z) :
  ~ links_in_range (length td) links -> length lc = length td ->
  time_corr_loop links td lc = Raise IndexError.
Proof.
  revert td lc. induction links as [|link links IH]; intros td lc Hr Hlen.
  - exfalso. apply Hr. by intros ? ?%elem_of_nil.
  - cbn [time_corr_loop].
    rewrite <- (result_bind_assoc (iadd td (source link) (delay link))).
    destruct (decide ((source link < length td)%nat /\ (target link < length td)%nat))
      as [[Hs Ht]|Hout].
    + destruct (iadd_ends td (source link) (target link) (delay link) Hs Ht)
        as (td1 & -> & Hlen1 & _).
      destruct (iadd_ends lc (source link) (target link) 1) as (lc1 & H2 & Hlen2 & _);
        [lia..|].
      cbn [mbind result_bind].
      rewrite <- (result_bind_assoc (iadd lc (source link) 1)).
      rewrite H2. cbn [mbind result_bind]. apply IH; [|congruence].
      rewrite Hlen1.
      intros Hrest. apply Hr. intros x [->|Hx]%elem_of_cons; [done|by apply Hrest].
    + rewrite iadd_ends_error by lia. done.
Qed.

Lemma replicate_lookup_zero (n j : nat) :
  (j < n)%nat -> replicate n 0 !! j = Some 0.
Proof. intros H. by apply lookup_replicate. Qed.

Lemma get_adjacent_link_bandwidth_spec (nodes : list physical_node)
    (links : list physical_link) :
  links_in_range (length nodes) links ->
  get_adjacent_link_bandwidth nodes links
  = Ok (map (incident_sum bandwidth links) (seq 0 (length nodes))).
Proof.
  intros Hr. unfold get_adjacent_link_bandwidth.
  destruct (adj_bandwidth_loop_spec links (replicate (length nodes) 0))
    as (l' & -> & Hlen & Hl'); [by rewrite length_replicate|].
  rewrite length_replicate in Hlen. f_equal.
  apply list_eq. intros j. rewrite list_lookup_fmap.
  destruct (decide (j < length nodes)%nat) as [Hj|Hj].
  - rewrite (Hl' j 0) by (by apply replicate_lookup_zero).
    rewrite lookup_seq_lt by done. simpl. done.
  - rewrite lookup_ge_None_2 by lia.
    rewrite lookup_ge_None_2 by (rewrite length_seq; lia). done.
Qed.

Lemma get_time_correlation_spec (nodes : list physical_node)
    (links : list physical_link) :
  links_in_range (length nodes) links ->
  get_time_correlation nodes links
  = Ok (map (average_delay links) (seq 0 (length nodes))).
Proof.
  intros Hr. unfold get_time_correlation.
  destruct (time_corr_loop_spec links (replicate (length nodes) 0)
              (replicate (length nodes) 0))
    as (td & lc & -> & Hl1 & Hl2 & Htd & Hlc);
    [by rewrite length_replicate|done|].
  cbn [mbind result_bind]. apply BFS.mapM_seq_spec. intros i Hi.
  rewrite (proj2 (getitem_Ok lc i _) (Hlc i 0 (replicate_lookup_zero _ _ (proj2 Hi)))).
  cbn [mbind result_bind]. unfold average_delay. rewrite Z.add_0_l.
  destruct (0 <? degree links i); [|done].
  rewrite (proj2 (getitem_Ok td i _) (Htd i 0 (replicate_lookup_zero _ _ (proj2 Hi)))).
  cbn [mbind result_bind]. by rewrite Z.add_0_l.
Qed.

(** *** Index errors, and the sum of all entries *)

Lemma links_in_range_dec (num_nodes : nat) (links : list physical_link) :
  links_in_range num_nodes links \/ ~ links_in_range num_nodes links.
Proof.
  induction links as [|link links IH].
  - left. by intros ? ?%elem_of_nil.
  - destruct (decide ((source link < num_nodes)%nat /\ (target link < num_nodes)%nat))
      as [Hin|Hout].
    + destruct IH as [IH|IH].
      * left. intros x [->|Hx]%elem_of_cons; [done|by apply IH].
      * right. intros H. apply IH. intros x Hx. apply H. by right.
    + right. intros H. apply Hout, H. by left.
Qed.

Lemma sum_Z_from (a : Z) (l : list Z) : foldl Z.add a l = a + sum_Z l.
Proof.
  unfold sum_Z. revert a. induction l as [|x l IH]; intros a; cbn [foldl]; [lia|].
  rewrite (IH (a + x)), (IH (0 + x)). lia.
Qed.

Lemma sum_Z_cons (x : Z) (l : list Z) : sum_Z (x :: l) = x + sum_Z l.
Proof. unfold sum_Z at 1. cbn [foldl]. rewrite sum_Z_from. lia. Qed.

Lemma sum_Z_plus {A : Type} (g h : A -> Z) (l : list A) :
  sum_Z (map (fun i => g i + h i) l) = sum_Z (map g l) + sum_Z (map h l).
Proof.
  induction l as [|x l IH]; [done|]. cbn [map]. rewrite !sum_Z_cons, IH. lia.
Qed.

Lemma sum_Z_indicator (a : nat) (v : Z) (lo n : nat) :
  sum_Z (map (fun i => if decide (a = i) then v else 0) (seq lo n))
  = if decide (lo <= a < lo + n)%nat then v else 0.
Proof.
  revert lo. induction n as [|n IH]; intros lo.
  - simpl. destruct (decide _); [lia|done].
  - cbn [seq map]. rewrite sum_Z_cons, IH.
    repeat destruct (decide _); lia.
Qed.

Lemma sum_Z_incident (f : physical_link -> Z) (links : list physical_link)
    (num_nodes : nat) :
  links_in_range num_nodes links ->
  sum_Z (map (incident_sum f links) (seq 0 num_nodes)) = 2 * sum_Z (map f links).
Proof.
  induction links as [|link links IH]; intros Hr.
  - cbn [incident_sum map]. induction (seq 0 num_nodes) as [|x l IHl]; [done|].
    cbn [map]. rewrite sum_Z_cons, IHl. done.
  - destruct (Hr link) as [Hs Ht]; [by left|].
    cbn [incident_sum map]. rewrite sum_Z_cons.
    rewrite (sum_Z_plus _ (incident_sum f links)).
    rewrite (sum_Z_plus (fun i => if decide (source link = i) then f link else 0)
                        (fun i => if decide (target link = i) then f link else 0)).
    rewrite !sum_Z_indicator, IH by (intros ? ?; apply Hr; by right).
    repeat destruct (decide _); lia.
Qed.

End Arrays.

(** ** The substrate graph *)

Module Undirected.
Import FeatureExtractor Graph Incidence.

Lemma joins_sym (link : physical_link) (a b : nat) :
  joins link a b -> joins link b a.
Proof. unfold joins. tauto. Qed.

Lemma neighbors_link (adjacency : gmap nat (list nat)) (link : physical_link)
    (a b : nat) :
  b ∈ neighbors
        (adjacency_append
           (adjacency_append adjacency (source link) (target link))
           (target link) (source link)) a <->
  b ∈ neighbors adjacency a \/ joins link a b.
Proof.
  unfold joins. rewrite BFS.neighbors_append.
  destruct (decide (target link = a)) as [Ht|Ht].
  - rewrite elem_of_app, list_elem_of_singleton, BFS.neighbors_append.
    destruct (decide (source link = target link)) as [Hs|Hs].
    + rewrite elem_of_app, list_elem_of_singleton. subst a. rewrite Hs.
      split; [intros [[?|?]|?]|intros [?|[[? ?]|[? ?]]]]; subst; tauto.
    + subst a. split; [intros [?|?]|intros [?|[[? ?]|[? ?]]]]; subst;
        try tauto; congruence.
  - rewrite BFS.neighbors_append.
    destruct (decide (source link = a)) as [Hs|Hs].
    + rewrite elem_of_app, list_elem_of_singleton. subst a.
      split; [intros [?|?]|intros [?|[[? ?]|[? ?]]]]; subst; try tauto; congruence.
    + split; [tauto|]. intros [?|[[? ?]|[? ?]]]; [done|congruence..].
Qed.

Lemma neighbors_fold (links : list physical_link) (adjacency : gmap nat (list nat))
    (a b : nat) :
  b ∈ neighbors
        (foldl (fun adjacency link =>
                  adjacency_append
                    (adjacency_append adjacency (source link) (target link))
                    (target link) (source link))
               adjacency links) a <->
  b ∈ neighbors adjacency a \/ exists link, link ∈ links /\ joins link a b.
Proof.
  revert adjacency. induction links as [|link links IH]; intros adj; simpl.
  - split; [by left|]. intros [?|(? & ?%elem_of_nil & _)]; done.
  - rewrite IH, neighbors_link. split.
    + intros [[?|?]|(l & Hl & Hj)]; [by left|right; exists link; split; [by left|done]|].
      right. exists l. split; [by right|done].
    + intros [?|(l & [->|Hl]%elem_of_cons & Hj)]; [by left; left|by left; right|].
      right. by exists l.
Qed.

(** The neighbours of [a] are the other ends of the links at [a]. *)
Lemma neighbors_build (links : list physical_link) (a b : nat) :
  b ∈ neighbors (build_adjacency_list links) a <->
  exists link, link ∈ links /\ joins link a b.
Proof.
  unfold build_adjacency_list. rewrite neighbors_fold.
  unfold neighbors at 1. rewrite lookup_empty. simpl. split.
  - intros [?%elem_of_nil|?]; done.
  - by right.
Qed.

Lemma neighbors_build_sym (links : list physical_link) (a b : nat) :
  b ∈ neighbors (build_adjacency_list links) a ->
  a ∈ neighbors (build_adjacency_list links) b.
Proof.
  rewrite !neighbors_build. intros (l & Hl & Hj). exists l. split; [done|].
  by apply joins_sym.
Qed.

(** *** Paths: composition and reversal *)

Lemma path_app (adjacency : gmap nat (list nat)) (a b c n m : nat) :
  path adjacency a b n -> path adjacency b c m -> path adjacency a c (n + m).
Proof.
  intros Hab Hbc. induction Hbc as [|v w m Hbv IH Hw].
  - by rewrite Nat.add_0_r.
  - rewrite Nat.add_succ_r. by eapply path_step.
Qed.

Lemma path_edge (adjacency : gmap nat (list nat)) (a b : nat) :
  b ∈ neighbors adjacency a -> path adjacency a b 1.
Proof. intros H. eapply path_step; [constructor|done]. Qed.

Lemma path_rev (adjacency : gmap nat (list nat)) (a b n : nat) :
  (forall x y, y ∈ neighbors adjacency x -> x ∈ neighbors adjacency y) ->
  path adjacency a b n -> path adjacency b a n.
Proof.
  intros Hsym Hp. induction Hp as [|v w n Hp IH Hw]; [constructor|].
  change (S n) with (1 + n)%nat. eapply path_app; [|exact IH].
  apply path_edge. by apply Hsym.
Qed.

Lemma hop_distance_sym (adjacency : gmap nat (list nat)) (a b d : nat) :
  (forall x y, y ∈ neighbors adjacency x -> x ∈ neighbors adjacency y) ->
  hop_distance adjacency a b d -> hop_distance adjacency b a d.
Proof.
  intros Hsym [Hp Hmin]. split; [by apply path_rev|].
  intros n Hn. apply Hmin. by apply path_rev.
Qed.

(** A reachable node has a hop distance, and the search finds it. *)
Lemma reachable_hop_distance (num_nodes : nat) (adjacency : gmap nat (list nat))
    (k v : nat) :
  adjacency_in_range num_nodes adjacency -> (k < num_nodes)%nat ->
  reachable adjacency k v ->
  exists d, hop_distance adjacency k v d /\
            bfs_distance num_nodes adjacency k v = Z.of_nat d.
Proof.
  intros Hadj Hk [n Hp].
  destruct (BFS.bfs_correct num_nodes adjacency k Hadj Hk)
    as (st & Hst & _ & _ & Hvis & Hdist & _).
  assert (Hv : visited st !! v = Some true).
  { apply Hvis. split; [by eapply BFS.path_in_range|by exists n]. }
  destruct (Hdist v Hv) as (d & Hd & Hh). exists d. split; [done|].
  by eapply BFS.bfs_distance_hop.
Qed.

(** *** One neighbour per link end *)

Lemma length_neighbors_link (adjacency : gmap nat (list nat)) (link : physical_link)
    (a : nat) :
  Z.of_nat (length (neighbors
        (adjacency_append
           (adjacency_append adjacency (source link) (target link))
           (target link) (source link)) a))
  = Z.of_nat (length (neighbors adjacency a))
    + (if decide (source link = a) then 1 else 0)
    + (if decide (target link = a) then 1 else 0).
Proof.
  rewrite BFS.neighbors_append.
  destruct (decide (target link = a)) as [Ht|Ht].
  - rewrite length_app, BFS.neighbors_append. simpl.
    destruct (decide (source link = target link)) as [Hs|Hs].
    + rewrite length_app. simpl. subst a.
      destruct (decide (source link = target link)); [|done]. rewrite Hs. lia.
    + subst a. destruct (decide (source link = target link)); [done|]. lia.
  - rewrite BFS.neighbors_append.
    destruct (decide (source link = a)) as [Hs|Hs].
    + rewrite length_app. simpl. subst a. lia.
    + lia.
Qed.

Lemma length_neighbors_fold (links : list physical_link)
    (adjacency : gmap nat (list nat)) (a : nat) :
  Z.of_nat (length (neighbors
        (foldl (fun adjacency link =>
                  adjacency_append
                    (adjacency_append adjacency (source link) (target link))
                    (target link) (source link))
               adjacency links) a))
  = Z.of_nat (length (neighbors adjacency a)) + degree links a.
Proof.
  revert adjacency. induction links as [|link links IH]; intros adj; simpl.
  - unfold degree. simpl. lia.
  - rewrite IH, length_neighbors_link. unfold degree. simpl. lia.
Qed.

End Undirected.

(** ** Properties of the feature extraction *)

(** X1. The adjacency list is that of an undirected graph: the neighbours
    of [a] are exactly the other ends of the links at [a], whichever way the
    link is written, so [b] is a neighbour of [a] exactly when [a] is a
    neighbour of [b]. *)
Theorem X1_adjacency_list_is_symmetric (links : list physical_link) (a b : nat) :
  let adjacency := FeatureExtractor.build_adjacency_list links in
  (b ∈ FeatureExtractor.neighbors adjacency a <->
   exists link, link ∈ links /\ Incidence.joins link a b) /\
  (b ∈ FeatureExtractor.neighbors adjacency a <->
   a ∈ FeatureExtractor.neighbors adjacency b).
Proof.
  intros adjacency. split; [apply Undirected.neighbors_build|].
  split; apply Undirected.neighbors_build_sym.
Qed.

(** X2. The adjacency list keeps multiplicities: the neighbour list of [a]
    has one entry for each link end at [a], so it is as long as the link
    count that [get_time_correlation] computes for [a]. *)
Theorem X2_adjacency_list_length_is_degree (links : list physical_link) (a : nat) :
  Z.of_nat (length (FeatureExtractor.neighbors
                      (FeatureExtractor.build_adjacency_list links) a))
  = Incidence.degree links a.
Proof.
  unfold FeatureExtractor.build_adjacency_list.
  rewrite Undirected.length_neighbors_fold.
  unfold FeatureExtractor.neighbors. rewrite lookup_empty. simpl. lia.
Qed.

(** X3. When both ends of every link are node indices, the Adjacent
    Bandwidth of node [i] is the sum of [bandwidth] over the link ends at
    [i]. *)
Theorem X3_adjacent_bandwidth_is_incident_sum
    (nodes : list physical_node) (links : list physical_link) :
  Incidence.links_in_range (length nodes) links ->
  exists bw,
    FeatureExtractor.get_adjacent_link_bandwidth nodes links = Ok bw /\
    length bw = length nodes /\
    forall i, (i < length nodes)%nat ->
      bw !! i = Some (Incidence.incident_sum bandwidth links i).
Proof.
  intros Hr. eexists. split; [by apply Arrays.get_adjacent_link_bandwidth_spec|].
  split; [by rewrite length_map, length_seq|].
  intros i Hi. by rewrite list_lookup_fmap, lookup_seq_lt.
Qed.

Lemma ex_links_ok : Incidence.links_in_range (length ex_nodes) ex_links.
Proof.
  intros link H. repeat (apply elem_of_cons in H as [->|H]; [simpl; lia|]).
  by apply elem_of_nil in H.
Qed.

(** The path 0 - 1 - 2 with bandwidths 10 and 20 gives [10; 30; 20]. *)
Lemma X3_adjacent_bandwidth_is_incident_sum_witness :
  exists bw,
    FeatureExtractor.get_adjacent_link_bandwidth ex_nodes ex_links = Ok bw /\
    length bw = 3%nat /\
    forall i, (i < 3)%nat ->
      bw !! i = Some (Incidence.incident_sum bandwidth ex_links i).
Proof. exact (X3_adjacent_bandwidth_is_incident_sum ex_nodes ex_links ex_links_ok). Defined.

Example ex_adjacent_bandwidth :
  FeatureExtractor.get_adjacent_link_bandwidth ex_nodes ex_links = Ok [10; 30; 20].
Proof. reflexivity. Qed.

(** X4. For links whose ends are natural numbers,
    [get_adjacent_link_bandwidth] returns its list exactly when both ends of
    every link are below the number of nodes; when a link has an end at or
    beyond the number of nodes it fails, and the failure is Python's
    [IndexError]. *)
Theorem X4_adjacent_bandwidth_index_error
    (nodes : list physical_node) (links : list physical_link) :
  ((exists bw, FeatureExtractor.get_adjacent_link_bandwidth nodes links = Ok bw)
   <-> Incidence.links_in_range (length nodes) links) /\
  (FeatureExtractor.get_adjacent_link_bandwidth nodes links = Raise IndexError
   <-> ~ Incidence.links_in_range (length nodes) links).
Proof.
  assert (Hbad : ~ Incidence.links_in_range (length nodes) links ->
            FeatureExtractor.get_adjacent_link_bandwidth nodes links
            = Raise IndexError).
  { intros Hr. apply Arrays.adj_bandwidth_loop_error. by rewrite length_replicate. }
  split; split.
  - intros [bw Hbw].
    destruct (Arrays.links_in_range_dec (length nodes) links) as [|Hr]; [done|].
    rewrite (Hbad Hr) in Hbw. done.
  - intros Hr. rewrite Arrays.get_adjacent_link_bandwidth_spec by done. eauto.
  - intros Herr Hr.
    rewrite Arrays.get_adjacent_link_bandwidth_spec in Herr by done. done.
  - exact Hbad.
Qed.

(** X5. Every link adds its bandwidth at its two ends: the Adjacent
    Bandwidth entries add up to twice the total bandwidth of the links. *)
Theorem X5_adjacent_bandwidth_total
    (nodes : list physical_node) (links : list physical_link) :
  Incidence.links_in_range (length nodes) links ->
  exists bw,
    FeatureExtractor.get_adjacent_link_bandwidth nodes links = Ok bw /\
    sum_Z bw = 2 * sum_Z (map bandwidth links).
Proof.
  intros Hr. eexists. split; [by apply Arrays.get_adjacent_link_bandwidth_spec|].
  by apply Arrays.sum_Z_incident.
Qed.

Lemma X5_adjacent_bandwidth_total_witness :
  exists bw,
    FeatureExtractor.get_adjacent_link_bandwidth ex_nodes ex_links = Ok bw /\
    sum_Z bw = 2 * sum_Z (map bandwidth ex_links).
Proof. exact (X5_adjacent_bandwidth_total ex_nodes ex_links ex_links_ok). Defined.

(** X6. When both ends of every link are node indices, the Time Correlation
    of a node is the sum of [delay] over the link ends at the node divided by
    their number, and exactly [0.0] for a node without links. *)
Theorem X6_time_correlation_is_average_delay
    (nodes : list physical_node) (links : list physical_link) :
  Incidence.links_in_range (length nodes) links ->
  exists tc,
    FeatureExtractor.get_time_correlation nodes links = Ok tc /\
    length tc = length nodes /\
    forall i, (i < length nodes)%nat ->
      (Incidence.degree links i = 0 -> tc !! i = Some 0%Q) /\
      (0 < Incidence.degree links i ->
       tc !! i = Some (inject_Z (Incidence.incident_sum delay links i)
                       / inject_Z (Incidence.degree links i))%Q).
Proof.
  intros Hr. eexists. split; [by apply Arrays.get_time_correlation_spec|].
  split; [by rewrite length_map, length_seq|].
  intros i Hi. rewrite list_lookup_fmap, lookup_seq_lt by done. simpl.
  unfold Incidence.average_delay. split; intros Hd.
  - rewrite Hd. done.
  - destruct (Z.ltb_spec 0 (Incidence.degree links i)); [done|lia].
Qed.

Lemma X6_time_correlation_is_average_delay_witness :
  exists tc,
    FeatureExtractor.get_time_correlation ex_nodes ex_links = Ok tc /\
    length tc = 3%nat /\
    forall i, (i < 3)%nat ->
      (Incidence.degree ex_links i = 0 -> tc !! i = Some 0%Q) /\
      (0 < Incidence.degree ex_links i ->
       tc !! i = Some (inject_Z (Incidence.incident_sum delay ex_links i)
                       / inject_Z (Incidence.degree ex_links i))%Q).
Proof. exact (X6_time_correlation_is_average_delay ex_nodes ex_links ex_links_ok). Defined.

(** ** Properties of the breadth-first search *)

Module Metric.
Import FeatureExtractor Graph.

(** Whether [v] is reachable from [k] is read off the [visited] array. *)
Lemma reachable_dec (num_nodes : nat) (adjacency : gmap nat (list nat)) (k v : nat) :
  adjacency_in_range num_nodes adjacency -> (k < num_nodes)%nat ->
  reachable adjacency k v \/ ~ reachable adjacency k v.
Proof.
  intros Hadj Hk.
  destruct (BFS.bfs_correct num_nodes adjacency k Hadj Hk)
    as (st & _ & _ & _ & Hvis & _).
  destruct (decide (visited st !! v = Some true)) as [Hv|Hv].
  - left. by apply Hvis.
  - right. intros Hr. apply Hv, Hvis. split; [|done].
    destruct Hr as [n Hp]. by eapply BFS.path_in_range.
Qed.

Lemma hop_distance_self (adjacency : gmap nat (list nat)) (k : nat) :
  hop_distance adjacency k k 0.
Proof. split; [constructor|lia]. Qed.

Lemma path_zero (adjacency : gmap nat (list nat)) (k v : nat) :
  path adjacency k v 0 -> v = k.
Proof. intros H. by inversion H. Qed.

Lemma bfs_distance_nonneg (num_nodes : nat) (adjacency : gmap nat (list nat))
    (k m : nat) :
  adjacency_in_range num_nodes adjacency -> (k < num_nodes)%nat ->
  0 <= bfs_distance num_nodes adjacency k m.
Proof.
  intros Hadj Hk.
  destruct (reachable_dec num_nodes adjacency k m Hadj Hk) as [Hr|Hr].
  - destruct (Undirected.reachable_hop_distance num_nodes adjacency k m Hadj Hk Hr)
      as (d & _ & ->). lia.
  - rewrite BFS.bfs_distance_unreachable by done. lia.
Qed.

Lemma bfs_distance_zero (num_nodes : nat) (adjacency : gmap nat (list nat))
    (k m : nat) :
  adjacency_in_range num_nodes adjacency -> (k < num_nodes)%nat ->
  bfs_distance num_nodes adjacency k m = 0 <-> m = k \/ ~ reachable adjacency k m.
Proof.
  intros Hadj Hk. split.
  - intros Hz.
    destruct (reachable_dec num_nodes adjacency k m Hadj Hk) as [Hr|Hr];
      [left|by right].
    destruct (Undirected.reachable_hop_distance num_nodes adjacency k m Hadj Hk Hr)
      as (d & [Hp _] & Hd).
    rewrite Hz in Hd. assert (d = O) as -> by lia.
    by eapply path_zero.
  - intros [->|Hr].
    + by rewrite (BFS.bfs_distance_hop num_nodes adjacency k k 0 Hadj Hk
                    (hop_distance_self adjacency k)).
    + by apply BFS.bfs_distance_unreachable.
Qed.

End Metric.

(** X7. On a graph whose neighbour lists hold node indices, the search from
    a node [k] ends without error within its [num_nodes] iterations; it marks
    as visited exactly the nodes reachable from [k], leaves in [distance] the
    length of a shortest path to each of them, and [0] for [k] itself. *)
Theorem X7_bfs_finds_shortest_paths
    (num_nodes : nat) (adjacency : gmap nat (list nat)) (k : nat) :
  Graph.adjacency_in_range num_nodes adjacency -> (k < num_nodes)%nat ->
  exists st,
    FeatureExtractor.bfs num_nodes adjacency k = Ok st /\
    length (FeatureExtractor.visited st) = num_nodes /\
    length (FeatureExtractor.distance st) = num_nodes /\
    (forall v, FeatureExtractor.visited st !! v = Some true <->
               (v < num_nodes)%nat /\ Graph.reachable adjacency k v) /\
    (forall v d, Graph.hop_distance adjacency k v d ->
                 FeatureExtractor.distance st !! v = Some (Z.of_nat d)) /\
    FeatureExtractor.distance st !! k = Some 0.
Proof.
  intros Hadj Hk.
  destruct (BFS.bfs_correct num_nodes adjacency k Hadj Hk)
    as (st & Hst & Hlv & Hld & Hvis & Hdist & Hzero).
  exists st. split_and!; try done.
  - intros v d Hh.
    assert (Hv : FeatureExtractor.visited st !! v = Some true).
    { apply Hvis. destruct Hh as [Hp _].
      split; [by eapply BFS.path_in_range|by exists d]. }
    destruct (Hdist v Hv) as (d' & -> & Hh').
    do 2 f_equal. by eapply BFS.hop_distance_unique.
  - assert (Hv : FeatureExtractor.visited st !! k = Some true).
    { apply Hvis. split; [done|]. exists O. constructor. }
    destruct (Hdist k Hv) as (d' & -> & Hh').
    by rewrite (BFS.hop_distance_unique _ _ _ _ _ Hh'
                  (Metric.hop_distance_self adjacency k)).
Qed.

Lemma X7_bfs_finds_shortest_paths_witness :
  exists st,
    FeatureExtractor.bfs 3 (FeatureExtractor.build_adjacency_list ex_links) 0 = Ok st /\
    FeatureExtractor.distance st !! 0%nat = Some 0.
Proof.
  destruct (X7_bfs_finds_shortest_paths 3
              (FeatureExtractor.build_adjacency_list ex_links) 0
              ex_links_in_range) as (st & H & _ & _ & _ & _ & H0); [lia|].
  exists st. split; [exact H|exact H0].
Defined.

(** X8. The distance [0] is that of the start node and of the nodes the
    search does not reach, and of no other node. *)
Theorem X8_distance_zero
    (num_nodes : nat) (adjacency : gmap nat (list nat)) (k v : nat) :
  Graph.adjacency_in_range num_nodes adjacency -> (k < num_nodes)%nat ->
  Graph.bfs_distance num_nodes adjacency k v = 0 <->
  v = k \/ ~ Graph.reachable adjacency k v.
Proof. apply Metric.bfs_distance_zero. Qed.

Lemma X8_distance_zero_witness :
  Graph.bfs_distance 3 (FeatureExtractor.build_adjacency_list ex_links) 0 0 = 0.
Proof.
  apply (X8_distance_zero 3 (FeatureExtractor.build_adjacency_list ex_links) 0 0
           ex_links_in_range); [lia|by left].
Defined.

(** X9. On the adjacency list built from the links the distance is
    symmetric: the search from [a] finds for [b] the distance that the search
    from [b] finds for [a]. *)
Theorem X9_distance_is_symmetric
    (num_nodes : nat) (links : list physical_link) (a b : nat) :
  Incidence.links_in_range num_nodes links ->
  (a < num_nodes)%nat -> (b < num_nodes)%nat ->
  let adjacency := FeatureExtractor.build_adjacency_list links in
  Graph.bfs_distance num_nodes adjacency a b
  = Graph.bfs_distance num_nodes adjacency b a.
Proof.
  intros Hr Ha Hb adjacency.
  assert (Hadj : Graph.adjacency_in_range num_nodes adjacency)
    by (by apply BFS.build_adjacency_list_in_range).
  assert (Hsym : forall x y, y ∈ FeatureExtractor.neighbors adjacency x ->
                             x ∈ FeatureExtractor.neighbors adjacency y)
    by (intros x y; apply Undirected.neighbors_build_sym).
  destruct (Metric.reachable_dec num_nodes adjacency a b Hadj Ha) as [Hab|Hab].
  - destruct (Undirected.reachable_hop_distance num_nodes adjacency a b Hadj Ha Hab)
      as (d & Hh & ->).
    symmetry. apply BFS.bfs_distance_hop; [done..|].
    by apply Undirected.hop_distance_sym.
  - rewrite (BFS.bfs_distance_unreachable num_nodes adjacency a b) by done.
    symmetry. apply BFS.bfs_distance_unreachable; [done..|].
    intros [n Hp]. apply Hab. exists n. by apply Undirected.path_rev.
Qed.

Lemma X9_distance_is_symmetric_witness :
  Graph.bfs_distance 3 (FeatureExtractor.build_adjacency_list ex_links) 0 2
  = Graph.bfs_distance 3 (FeatureExtractor.build_adjacency_list ex_links) 2 0.
Proof.
  apply (X9_distance_is_symmetric 3 ex_links 0 2 ex_links_ok); lia.
Defined.

(** X10. The distance obeys the triangle inequality along reachable nodes:
    going from [a] to [c] is never longer than going through [b]. *)
Theorem X10_distance_triangle
    (num_nodes : nat) (adjacency : gmap nat (list nat)) (a b c : nat) :
  Graph.adjacency_in_range num_nodes adjacency ->
  (a < num_nodes)%nat ->
  Graph.reachable adjacency a b -> Graph.reachable adjacency b c ->
  Graph.bfs_distance num_nodes adjacency a c
  <= Graph.bfs_distance num_nodes adjacency a b
     + Graph.bfs_distance num_nodes adjacency b c.
Proof.
  intros Hadj Ha Hab Hbc.
  assert (Hb : (b < num_nodes)%nat)
    by (destruct Hab as [n Hp]; by eapply BFS.path_in_range).
  destruct (Undirected.reachable_hop_distance num_nodes adjacency a b Hadj Ha Hab)
    as (d1 & [Hp1 _] & ->).
  destruct (Undirected.reachable_hop_distance num_nodes adjacency b c Hadj Hb Hbc)
    as (d2 & [Hp2 _] & ->).
  pose proof (Undirected.path_app adjacency a b c d1 d2 Hp1 Hp2) as Hp.
  destruct (Undirected.reachable_hop_distance num_nodes adjacency a c Hadj Ha)
    as (d & [_ Hmin] & ->); [by exists (d1 + d2)%nat|].
  apply Hmin in Hp. lia.
Qed.

Lemma X10_distance_triangle_witness :
  Graph.bfs_distance 3 (FeatureExtractor.build_adjacency_list ex_links) 0 2
  <= Graph.bfs_distance 3 (FeatureExtractor.build_adjacency_list ex_links) 0 1
     + Graph.bfs_distance 3 (FeatureExtractor.build_adjacency_list ex_links) 1 2.
Proof.
  apply (X10_distance_triangle 3 (FeatureExtractor.build_adjacency_list ex_links)
           0 1 2 ex_links_in_range); [lia| |].
  - exists 1%nat. apply Undirected.path_edge. vm_compute.
    apply list_elem_of_In. simpl. tauto.
  - exists 1%nat. apply Undirected.path_edge. vm_compute.
    apply list_elem_of_In. simpl. tauto.
Defined.

(** ** Properties of the feature matrix *)

Module Matrix.
Import FeatureExtractor Graph Incidence.

Lemma mapped_distances_error (dist : list Z) (k : nat) (mapped : list nat) :
  (exists m, m ∈ mapped /\ m ≠ k /\ (length dist <= m)%nat) ->
  mapped_distances dist k mapped = Raise IndexError.
Proof.
  induction mapped as [|m0 mapped IH]; intros (m & Hm & Hne & Hge).
  - by apply elem_of_nil in Hm.
  - cbn [mapped_distances]. destruct (decide (m0 ≠ k)) as [Hne0|He0].
    + destruct (decide (m0 < length dist)%nat) as [Hlt|Hge0].
      * destruct (getitem_lt dist m0 Hlt) as (d & -> & _). cbn [mbind result_bind].
        rewrite IH; [done|]. exists m. split; [|done].
        apply elem_of_cons in Hm as [->|Hm]; [lia|done].
      * unfold getitem. rewrite lookup_ge_None_2 by lia. done.
    + apply IH. exists m. split; [|done].
      apply elem_of_cons in Hm as [->|Hm]; [|done].
      exfalso. by apply He0.
Qed.

Lemma get_distance_correlation_error (nodes : list physical_node)
    (adjacency : gmap nat (list nat)) (mapped : list nat) :
  adjacency_in_range (length nodes) adjacency -> nodes ≠ [] ->
  (exists m, m ∈ mapped /\ (length nodes <= m)%nat) ->
  get_distance_correlation nodes adjacency mapped = Raise IndexError.
Proof.
  intros Hadj Hne (m & Hm & Hge). unfold get_distance_correlation.
  destruct nodes as [|n nodes]; [done|]. cbn [length seq mapM].
  assert (H0 : distance_corr_of (S (length nodes)) adjacency mapped 0
               = Raise IndexError).
  { unfold distance_corr_of.
    destruct (BFS.bfs_correct (S (length nodes)) adjacency 0 Hadj)
      as (st & -> & _ & Hld & _); [lia|].
    cbn [mbind result_bind]. rewrite mapped_distances_error; [done|].
    exists m. simpl in Hge. split_and!; [done|lia|lia]. }
  by rewrite H0.
Qed.

Lemma links_adjacency_in_range (num_nodes : nat) (links : list physical_link) :
  links_in_range num_nodes links ->
  adjacency_in_range num_nodes (build_adjacency_list links).
Proof. apply BFS.build_adjacency_list_in_range. Qed.

(** The matrix in closed form. *)
Lemma features_matrix_spec (nodes : list physical_node)
    (links : list physical_link) (mapped : list nat) :
  links_in_range (length nodes) links ->
  (forall m, m ∈ mapped -> (m < length nodes)%nat) ->
  get_node_features_matrix nodes links mapped
  = Ok (imap (feature_of (length nodes) links mapped) nodes).
Proof.
  intros Hr Hm. unfold get_node_features_matrix.
  rewrite Arrays.get_adjacent_link_bandwidth_spec by done.
  cbn [mbind result_bind].
  rewrite BFS.get_distance_correlation_spec
    by (done || by apply links_adjacency_in_range).
  cbn [mbind result_bind].
  rewrite Arrays.get_time_correlation_spec by done.
  cbn [mbind result_bind].
  set (dummy := {| node_id := ""; cpu_capacity := 0; security_level := 0 |}).
  rewrite (BFS.mapM_seq_spec _
             (fun i => feature_of (length nodes) links mapped i
                         (default dummy (nodes !! i)))).
  - f_equal. apply list_eq. intros i.
    rewrite list_lookup_fmap, list_lookup_imap.
    destruct (nodes !! i) as [n|] eqn:E; simpl.
    + rewrite lookup_seq_lt by (by eapply lookup_lt_Some). simpl. by rewrite E.
    + rewrite lookup_ge_None_2; [done|]. rewrite length_seq.
      by apply lookup_ge_None.
  - intros i [_ Hi]. simpl in Hi.
    destruct (lookup_lt_is_Some_2 nodes i Hi) as [n Hn].
    unfold get_node_computing_resources, get_node_security, getitem.
    rewrite !list_lookup_fmap, Hn, lookup_seq_lt by done. simpl.
    done.
Qed.

End Matrix.

(** X11. When the links join existing nodes and the mapped set holds node
    indices, the feature matrix has one row per physical node, in node order:
    row [i] is named [node_i], reads the capacity and the security level of
    node [i], and holds the bandwidth sum and the average delay of the links
    at node [i]. *)
Theorem X11_feature_rows_follow_the_nodes
    (nodes : list physical_node) (links : list physical_link) (mapped : list nat) :
  Incidence.links_in_range (length nodes) links ->
  (forall m, m ∈ mapped -> (m < length nodes)%nat) ->
  exists nf,
    FeatureExtractor.get_node_features_matrix nodes links mapped = Ok nf /\
    length nf = length nodes /\
    forall i n, nodes !! i = Some n ->
      exists f, nf !! i = Some f /\
        Node f = "node_" +:+ pretty i /\
        CPU_Resources f = cpu_capacity n /\
        Security f = security_level n /\
        Adjacent_Bandwidth f = Incidence.incident_sum bandwidth links i /\
        Time_Correlation f = Incidence.average_delay links i.
Proof.
  intros Hr Hm. eexists. split; [by apply Matrix.features_matrix_spec|].
  split; [by rewrite length_imap|].
  intros i n Hn. eexists. split; [by rewrite list_lookup_imap, Hn|]. done.
Qed.

Lemma X11_feature_rows_follow_the_nodes_witness :
  exists nf,
    FeatureExtractor.get_node_features_matrix ex_nodes ex_links [0; 2]%nat = Ok nf /\
    length nf = 3%nat.
Proof.
  destruct (X11_feature_rows_follow_the_nodes ex_nodes ex_links [0; 2]%nat
              ex_links_ok ex_mapped_in_range) as (nf & H & Hlen & _).
  exists nf. split; [exact H|exact Hlen].
Defined.

(** X12. For link ends and mapped indices that are natural numbers,
    [get_node_features_matrix] returns a matrix exactly when both ends of
    every link are below the number of nodes and, unless there is no node at
    all, so is every index of the mapped set; when one of them is at or
    beyond the number of nodes it fails with [IndexError]. *)
Theorem X12_feature_matrix_index_error
    (nodes : list physical_node) (links : list physical_link) (mapped : list nat) :
  let well_formed :=
    Incidence.links_in_range (length nodes) links /\
    (nodes = [] \/ forall m, m ∈ mapped -> (m < length nodes)%nat) in
  (well_formed ->
   exists nf, FeatureExtractor.get_node_features_matrix nodes links mapped = Ok nf) /\
  (~ well_formed ->
   FeatureExtractor.get_node_features_matrix nodes links mapped = Raise IndexError).
Proof.
  intros well_formed. split.
  - intros [Hr [->|Hm]].
    + destruct links as [|link links].
      * exists []. reflexivity.
      * destruct (Hr link) as [Hs _]; [by left|]. simpl in Hs. lia.
    + eexists. by apply Matrix.features_matrix_spec.
  - intros Hbad. unfold FeatureExtractor.get_node_features_matrix.
    destruct (Arrays.links_in_range_dec (length nodes) links) as [Hr|Hr].
    + rewrite Arrays.get_adjacent_link_bandwidth_spec by done.
      cbn [mbind result_bind].
      rewrite Matrix.get_distance_correlation_error; [done| | |].
      * by apply Matrix.links_adjacency_in_range.
      * intros ->. apply Hbad. split; [done|by left].
      * destruct (decide (Forall (fun m => (m < length nodes)%nat) mapped))
          as [Hall|Hnall].
        { exfalso. apply Hbad. split; [done|right].
          by rewrite Forall_forall in Hall. }
        apply not_Forall_Exists in Hnall; [|apply _].
        apply Exists_exists in Hnall as (m & Hm & Hge). simpl in Hge.
        exists m. split; [done|lia].
    + unfold FeatureExtractor.get_adjacent_link_bandwidth.
      rewrite Arrays.adj_bandwidth_loop_error by (by rewrite length_replicate).
      done.
Qed.

(** ** Properties of the mapping decision *)

(** Settles one direction of an equivalence between an outcome and its
    condition, in a case where the outcome is known. *)
Ltac settle_outcome :=
  intros;
  repeat match goal with
         | H : _ /\ _ |- _ => destruct H
         | H : _ \/ _ |- _ => destruct H
         | H : ex _ |- _ => destruct H
         end;
  try done; try congruence; eauto 8.

(** X13. The outcomes of [map_virtual_node], case by case. It raises
    [RuntimeError] exactly when there is no feature row; [IndexError]
    exactly when an eligible node has no score in the policy's vector;
    [ZeroDivisionError] exactly when some node is eligible, every eligible
    node has a score and the float sum of these scores is [0.0];
    [ValueError] exactly when there are feature rows and none has enough
    CPU, or when the eligible scores can be divided by their sum and the
    total of the quotients, as [random.choices] computes it, is not positive
    and finite; in every other case it returns the policy's vector as it is,
    an eligible node, and the random source advanced by one sample. *)
Theorem X13_outcomes_of_map_virtual_node
    (nf : list node_feature) (policy_net : policy) (req : Z) (g : rng) :
  let probs := policy_net (map feature_row nf) in
  let en := eligible_from 0 nf req in
  let scores := scores_at probs en in
  let present := forall i, i ∈ en -> (i < length probs)%nat in
  let divided :=
    en ≠ [] /\ present /\ (sum_float scores =? 0)%float = false in
  (map_virtual_node nf policy_net req g = Raise RuntimeError <-> nf = []) /\
  (map_virtual_node nf policy_net req g = Raise IndexError <-> ~ present) /\
  (map_virtual_node nf policy_net req g = Raise ZeroDivisionError <->
   en ≠ [] /\ present /\ (sum_float scores =? 0)%float = true) /\
  (map_virtual_node nf policy_net req g = Raise ValueError <->
   (nf ≠ [] /\ en = []) \/
   (divided /\ usable (total_weight (quotients scores)) = false)) /\
  ((exists sel, map_virtual_node nf policy_net req g
                = Ok (probs, sel, snd (random g)) /\ sel ∈ en) <->
   divided /\ usable (total_weight (quotients scores)) = true).
Proof.
  intros probs en scores present divided.
  pose proof (Decision.outcomes nf policy_net req g) as Hout.
  cbv zeta in Hout. fold probs en scores in Hout. fold present in Hout.
  assert (Hnil : nf = [] -> en = []) by (by intros ->).
  assert (Hvac : en = [] -> present).
  { intros E i Hi. rewrite E in Hi. by apply elem_of_nil in Hi. }
  unfold divided.
  destruct Hout as [[Hnf E]|[(Hnf & He & E)|[(He & Hnp & E)|[(He & Hp & Hz & E)
     |[(He & Hp & Hz & Hu & E)|(He & Hp & Hz & Hu & i & sel & Hsel & E & _)]]]]];
    rewrite E.
  - pose proof (Hnil Hnf). pose proof (Hvac H).
    split_and!; split; try done; settle_outcome.
  - pose proof (Hvac He).
    split_and!; split; try done; settle_outcome.
  - assert (nf ≠ []) by (intros ?; by apply He, Hnil).
    split_and!; split; try done; settle_outcome.
  - assert (nf ≠ []) by (intros ?; by apply He, Hnil).
    split_and!; split; try done; settle_outcome.
  - assert (nf ≠ []) by (intros ?; by apply He, Hnil).
    split_and!; split; try done; settle_outcome.
  - assert (nf ≠ []) by (intros ?; by apply He, Hnil).
    assert (sel ∈ en) by (by eapply list_elem_of_lookup_2).
    split_and!; split; try done; settle_outcome.
Qed.

(** ** Weighted selection *)

(** X14. The selection goes by the running sums of the weights. Whenever
    [map_virtual_node] returns a node, the eligible scores have a sum other
    than [0.0], the total of their quotients by that sum is positive and
    finite, and the node stands in the eligible list at the position [i]
    that [bisect_right] finds for [x], the sample of the random source times
    that total, in the running sums of the quotients: the running sum
    before position [i], if there is one, is not above [x], and the running
    sum at position [i] is above [x], unless [i] is the last position. *)
Theorem X14_selection_by_running_sums
    (nf : list node_feature) (policy_net : policy) (req : Z) (g : rng)
    (probs : list float) (sel : nat) (g' : rng) :
  map_virtual_node nf policy_net req g = Ok (probs, sel, g') ->
  let en := eligible_from 0 nf req in
  let scores := scores_at probs en in
  let sums := Random.accumulate (quotients scores) in
  let x := (g O * total_weight (quotients scores))%float in
  probs = policy_net (map feature_row nf) /\ g' = snd (random g) /\
  (sum_float scores =? 0)%float = false /\
  usable (total_weight (quotients scores)) = true /\
  length sums = length en /\
  exists i, en !! i = Some sel /\
    ((0 < i)%nat ->
     exists c, sums !! (i - 1)%nat = Some c /\ (x <? c)%float = false) /\
    ((i < length en - 1)%nat ->
     exists c, sums !! i = Some c /\ (x <? c)%float = true).
Proof.
  intros H.
  destruct (Decision.outcomes nf policy_net req g)
    as [[_ E]|[(_ & _ & E)|[(_ & _ & E)|[(_ & _ & _ & E)|[(_ & _ & _ & _ & E)
       |(_ & _ & Hz & Hu & i & sel' & Hsel & E & Hbelow & Habove)]]]]];
    rewrite E in H; try done.
  injection H as <- <- <-. cbv zeta.
  split_and!; [done..| |by exists i].
  rewrite Decision.length_accumulate. unfold quotients, scores_at.
  by rewrite !length_map.
Qed.

(** Capacities [10, 5, 20], [cpu_req = 8], uniform scores and the sample
    [0.5]: the running sums of the weights are [0.5; 1.0], [x] is [0.5], and
    node 2, at position 1 of the eligible list, is selected. *)
Lemma X14_selection_by_running_sums_witness :
  Random.accumulate
    (quotients (scores_at (uniform (map feature_row (node_features ex_session)))
                          [0; 2]%nat)) = [0.5; 1]%float /\
  exists i, [0; 2]%nat !! i = Some 2%nat /\
    ((0 < i)%nat ->
     exists c, [0.5; 1]%float !! (i - 1)%nat = Some c /\
               (0.5 * 1 <? c)%float = false).
Proof.
  split; [reflexivity|].
  destruct (X14_selection_by_running_sums (node_features ex_session) uniform 8
              ghalf (uniform (map feature_row (node_features ex_session)))
              2%nat (snd (random ghalf)) eq_refl)
    as (_ & _ & _ & _ & _ & i & Hi & Hbelow & _).
  exists i. split; [exact Hi|exact Hbelow].
Defined.

(** ** Properties of the session *)

Module Ledger.
Import Session.

(** In a state of the loop a commit never reaches the guard against a
    negative capacity: the node selected has at least [cpu_req] left. *)
Lemma map_step_exact (policy_net : policy) (v_node : virtual_node) (s s' : session) :
  session_inv s -> map_step policy_net v_node s = Ok s' ->
  s' = s \/
  exists sel n f g',
    physical_nodes s !! sel = Some n /\ node_features s !! sel = Some f /\
    cpu_req v_node <= cpu_capacity n /\
    g' = snd (random (random_state s)) /\
    deduct_capacity (cpu_capacity n) (cpu_req v_node)
      = cpu_capacity n - cpu_req v_node /\
    s' = commit s v_node sel n f g'.
Proof.
  intros Hinv Hstep.
  apply map_step_cases in Hstep
    as [[_ ->]|(probs & sel & g' & n & f & Hsel & Hn & Hf & ->)]; [by left|right].
  pose proof (Decision.map_virtual_node_Ok _ _ _ _ _ _ _ Hsel) as (_ & Hel & Hg).
  apply (eligible_capacity s _ _ Hinv) in Hel as (n' & Hn' & Hc).
  rewrite Hn in Hn'. injection Hn' as <-.
  exists sel, n, f, g'. split_and!; try done.
  rewrite deduct_capacity_max. lia.
Qed.

(** The effect of a run of the loop on the capacities, the mapped set and
    the committed mappings, as a list of commits. *)
Lemma map_steps_ledger (policy_net : policy) (vs : list virtual_node) (s s' : session) :
  session_inv s -> map_steps policy_net vs s = Ok s' ->
  exists pairs : list (virtual_node * nat),
    map fst pairs `sublist_of` vs /\
    mapped_nodes s' = mapped_nodes s ++ map snd pairs /\
    mapping_results s'
    = mapping_results s
      ++ map (fun '(v, sel) =>
                (node v, default "" (node_id <$> physical_nodes s !! sel))) pairs /\
    (forall n, random_state s' n = random_state s (length pairs + n)%nat) /\
    length (physical_nodes s') = length (physical_nodes s) /\
    (forall p, p ∈ pairs -> (snd p < length (physical_nodes s))%nat) /\
    forall j n, physical_nodes s !! j = Some n ->
      exists n', physical_nodes s' !! j = Some n' /\
        cpu_capacity n' = cpu_capacity n - allocated pairs j /\
        node_id n' = node_id n /\ security_level n' = security_level n.
Proof.
  revert s. induction vs as [|v vs IH]; intros s Hinv H; cbn [map_steps] in H.
  - injection H as <-. exists []. simpl. rewrite !app_nil_r.
    split_and!; try done; [by intros ? ?%elem_of_nil|].
    intros j n Hn. exists n. split_and!; [done|lia|done..].
  - inv_bind H. rename a into s1.
    destruct (map_step_exact policy_net v s s1 Hinv E)
      as [->|(sel & n0 & f & g' & Hn0 & Hf & Hc & Hg & Hex & ->)].
    + destruct (IH s Hinv H) as (pairs & Hsub & Hm & Hres & Hrng & Hlen & Hidx & Hcap).
      exists pairs. split_and!; try done. by apply sublist_cons.
    + destruct (IH _ (commit_inv s v sel n0 f g' Hinv) H)
        as (pairs & Hsub & Hm & Hres & Hrng & Hlen & Hidx & Hcap).
      exists ((v, sel) :: pairs). cbn [map fst snd length allocated].
      simpl in Hm, Hres, Hrng, Hlen, Hidx. rewrite length_insert in Hidx.
      split_and!.
      * by apply sublist_skip.
      * rewrite Hm, <- app_assoc. done.
      * rewrite Hres, <- app_assoc. cbn [app]. f_equal. f_equal.
        { by rewrite Hn0. }
        apply map_ext_in. intros [v' sel'] Hin.
        f_equal. destruct (decide (sel = sel')) as [<-|Hne].
        -- rewrite list_lookup_insert_eq by (by eapply lookup_lt_Some).
           by rewrite Hn0.
        -- by rewrite list_lookup_insert_ne.
      * intros k. rewrite Hrng, Hg. unfold random. simpl.
        first [done | f_equal; lia].
      * rewrite Hlen, length_insert. done.
      * intros p [->|Hp]%elem_of_cons; [simpl; by eapply lookup_lt_Some|auto].
      * intros j n Hn.
        destruct (decide (sel = j)) as [->|Hne].
        -- rewrite Hn0 in Hn. injection Hn as <-.
           destruct (Hcap j (set_cpu_capacity n0
                               (deduct_capacity (cpu_capacity n0) (cpu_req v))))
             as (n' & Hn' & Hcap' & Hid & Hsec).
           { simpl. apply list_lookup_insert_eq. by eapply lookup_lt_Some. }
           exists n'. simpl in *. split_and!; [done| |done|done].
           rewrite Hcap', Hex. lia.
        -- destruct (Hcap j n) as (n' & Hn' & Hcap' & Hid & Hsec).
           { simpl. by rewrite list_lookup_insert_ne. }
           exists n'. split_and!; [done| |done|done]. rewrite Hcap'. lia.
Qed.

End Ledger.

(** X15. In every state of the loop a committed step takes exactly
    [cpu_req] from the selected node, which has at least that much left: the
    guard of [main] against a negative capacity is never reached. Nothing
    else changes in the physical nodes. *)
Theorem X15_commit_deducts_exactly
    (nodes : list physical_node) (links : list physical_link)
    (policy_net : policy) (g : rng) (processed : list virtual_node)
    (s s' : session) (v_node : virtual_node) :
  reached nodes links policy_net g processed s ->
  map_step policy_net v_node s = Ok s' ->
  s' = s \/
  exists sel n,
    physical_nodes s !! sel = Some n /\
    cpu_req v_node <= cpu_capacity n /\
    mapped_nodes s' = mapped_nodes s ++ [sel] /\
    physical_nodes s'
    = <[sel := set_cpu_capacity n (cpu_capacity n - cpu_req v_node)]>
        (physical_nodes s).
Proof.
  intros Hr Hstep. pose proof (Session.reached_inv _ _ _ _ _ _ Hr) as Hinv.
  destruct (Ledger.map_step_exact policy_net v_node s s' Hinv Hstep)
    as [->|(sel & n & f & g' & Hn & _ & Hc & _ & Hex & ->)]; [by left|right].
  exists sel, n. split_and!; [done..|]. simpl. by rewrite Hex.
Qed.

Lemma X15_commit_deducts_exactly_witness :
  ex_session_a = ex_session \/
  exists sel n,
    physical_nodes ex_session !! sel = Some n /\
    8 <= cpu_capacity n /\
    mapped_nodes ex_session_a = mapped_nodes ex_session ++ [sel] /\
    physical_nodes ex_session_a
    = <[sel := set_cpu_capacity n (cpu_capacity n - 8)]> (physical_nodes ex_session).
Proof.
  apply (X15_commit_deducts_exactly ex_nodes ex_links uniform ghalf []
           ex_session ex_session_a (vn "a" 8)).
  - exists ex_session. split; reflexivity.
  - reflexivity.
Defined.

(** X16. The state of the loop is accounted for by the list of its commits,
    each a virtual node with the index selected for it. The committed
    virtual nodes are taken from the request in request order; the mapped
    set lists the selected indices and the committed mappings list the names
    with the [id] of the selected nodes, both in commit order; the capacity
    of every node is its initial capacity less the [cpu_req] committed to it;
    [id] and [security_level] never change. *)
Theorem X16_session_ledger
    (nodes : list physical_node) (links : list physical_link)
    (policy_net : policy) (g : rng) (processed : list virtual_node) (s : session) :
  reached nodes links policy_net g processed s ->
  exists pairs : list (virtual_node * nat),
    map fst pairs `sublist_of` processed /\
    mapped_nodes s = map snd pairs /\
    mapping_results s
    = map (fun '(v, sel) => (node v, default "" (node_id <$> nodes !! sel))) pairs /\
    length (physical_nodes s) = length nodes /\
    forall j n, nodes !! j = Some n ->
      exists n', physical_nodes s !! j = Some n' /\
        cpu_capacity n' = cpu_capacity n - allocated pairs j /\
        node_id n' = node_id n /\ security_level n' = security_level n.
Proof.
  intros (s0 & H0 & Hs).
  apply Session.init_session_Ok in H0 as (Hn & Hm & Hres & _ & Hinv & _).
  destruct (Ledger.map_steps_ledger policy_net processed s0 s Hinv Hs)
    as (pairs & Hsub & Hm' & Hres' & _ & Hlen & _ & Hcap).
  rewrite Hn, Hm in *. rewrite Hres in Hres'.
  exists pairs. done.
Qed.

Lemma X16_session_ledger_witness :
  exists pairs : list (virtual_node * nat),
    map fst pairs `sublist_of` [vn "a" 8] /\
    mapped_nodes ex_session_a = map snd pairs /\
    mapping_results ex_session_a
    = map (fun '(v, sel) => (node v, default "" (node_id <$> ex_nodes !! sel)))
          pairs /\
    length (physical_nodes ex_session_a) = length ex_nodes /\
    forall j n, ex_nodes !! j = Some n ->
      exists n', physical_nodes ex_session_a !! j = Some n' /\
        cpu_capacity n' = cpu_capacity n - allocated pairs j /\
        node_id n' = node_id n /\ security_level n' = security_level n.
Proof.
  apply (X16_session_ledger ex_nodes ex_links uniform ghalf [vn "a" 8] ex_session_a).
  exists ex_session. split; reflexivity.
Defined.

(** X17. No node is over-committed: when the initial capacities are
    non-negative, the [cpu_req] committed to a node, summed over the commits
    of the session, never exceeds the node's initial capacity. *)
Theorem X17_no_node_is_overcommitted
    (nodes : list physical_node) (links : list physical_link)
    (policy_net : policy) (g : rng) (processed : list virtual_node) (s : session) :
  (forall n, n ∈ nodes -> 0 <= cpu_capacity n) ->
  reached nodes links policy_net g processed s ->
  exists pairs : list (virtual_node * nat),
    map fst pairs `sublist_of` processed /\
    mapped_nodes s = map snd pairs /\
    map fst (mapping_results s) = map (fun p => node (fst p)) pairs /\
    forall j n, nodes !! j = Some n -> allocated pairs j <= cpu_capacity n.
Proof.
  intros Hnn (s0 & H0 & Hs).
  apply Session.init_session_Ok in H0 as (Hn & Hm & Hres & _ & Hinv & _).
  destruct (Ledger.map_steps_ledger policy_net processed s0 s Hinv Hs)
    as (pairs & Hsub & Hm' & Hres' & _ & Hlen & _ & Hcap).
  rewrite Hn, Hm in *. rewrite Hres in Hres'.
  exists pairs. split_and!; [done|done| |].
  - rewrite Hres'. simpl. rewrite map_map. apply map_ext. by intros [v sel].
  - intros j n Hj. destruct (Hcap j n Hj) as (n' & Hn' & Hc & _).
    assert (0 <= cpu_capacity n'); [|lia].
    eapply (Session.map_steps_nonneg policy_net processed s0 s Hs).
    + by rewrite Hn.
    + by eapply list_elem_of_lookup_2.
Qed.

Lemma X17_no_node_is_overcommitted_witness :
  exists pairs : list (virtual_node * nat),
    map fst pairs `sublist_of` [vn "a" 8] /\
    mapped_nodes ex_session_a = map snd pairs /\
    map fst (mapping_results ex_session_a) = map (fun p => node (fst p)) pairs /\
    forall j n, ex_nodes !! j = Some n -> allocated pairs j <= cpu_capacity n.
Proof.
  apply (X17_no_node_is_overcommitted ex_nodes ex_links uniform ghalf [vn "a" 8]
           ex_session_a).
  - intros n H. repeat (apply elem_of_cons in H as [->|H]; [simpl; lia|]).
    by apply elem_of_nil in H.
  - exists ex_session. split; reflexivity.
Defined.

(** X18. The random source is read once for each committed mapping and not
    at all by a step that fails: in every state of the loop it is the initial
    source advanced by the number of commits, which is the length of the
    mapped set and of the committed mappings. *)
Theorem X18_one_random_sample_per_commit
    (nodes : list physical_node) (links : list physical_link)
    (policy_net : policy) (g : rng) (processed : list virtual_node) (s : session) :
  reached nodes links policy_net g processed s ->
  length (mapped_nodes s) = length (mapping_results s) /\
  (length (mapped_nodes s) <= length processed)%nat /\
  forall n, random_state s n = g (length (mapped_nodes s) + n)%nat.
Proof.
  intros (s0 & H0 & Hs).
  apply Session.init_session_Ok in H0 as (Hn & Hm & Hres & Hg & Hinv & _).
  destruct (Ledger.map_steps_ledger policy_net processed s0 s Hinv Hs)
    as (pairs & Hsub & Hm' & Hres' & Hrng & _).
  rewrite Hm in Hm'. rewrite Hres in Hres'. simpl in Hm', Hres'.
  rewrite Hm', Hres', !length_map. split_and!; [done| |].
  - apply sublist_length in Hsub. by rewrite length_map in Hsub.
  - intros n. by rewrite Hrng, Hg.
Qed.

Lemma X18_one_random_sample_per_commit_witness :
  length (mapped_nodes ex_session_a) = length (mapping_results ex_session_a) /\
  (length (mapped_nodes ex_session_a) <= 1)%nat /\
  forall n, random_state ex_session_a n
            = ghalf (length (mapped_nodes ex_session_a) + n)%nat.
Proof.
  apply (X18_one_random_sample_per_commit ex_nodes ex_links uniform ghalf
           [vn "a" 8] ex_session_a).
  exists ex_session. split; reflexivity.
Defined.

Module Report.
Import Session.

Lemma imap_insert {A B : Type} (f : nat -> A -> B) (l : list A) (i : nat) (x : A) :
  imap f (<[i := x]> l) = <[i := f i x]> (imap f l).
Proof.
  apply list_eq. intros j. rewrite list_lookup_imap.
  destruct (decide (i = j)) as [->|Hne].
  - destruct (decide (j < length l)%nat) as [Hlt|Hge].
    + rewrite !list_lookup_insert_eq by (rewrite ?length_imap; done). done.
    + rewrite !list_insert_ge by (rewrite ?length_imap; lia).
      by rewrite list_lookup_imap.
  - rewrite !list_lookup_insert_ne by done. by rewrite list_lookup_imap.
Qed.

Lemma features_matrix_Ok_links (nodes : list physical_node)
    (links : list physical_link) (mapped : list nat) (nf : list node_feature) :
  FeatureExtractor.get_node_features_matrix nodes links mapped = Ok nf ->
  Incidence.links_in_range (length nodes) links.
Proof.
  intros H. destruct (Arrays.links_in_range_dec (length nodes) links) as [|Hr]; [done|].
  unfold FeatureExtractor.get_node_features_matrix,
    FeatureExtractor.get_adjacent_link_bandwidth in H.
  rewrite Arrays.adj_bandwidth_loop_error in H by (by rewrite length_replicate).
  done.
Qed.

(** The feature rows of a state are those of its physical nodes with an
    empty mapped set. *)
Lemma map_steps_features (num_nodes : nat) (links : list physical_link)
    (policy_net : policy) (vs : list virtual_node) (s s' : session) :
  map_steps policy_net vs s = Ok s' ->
  node_features s = imap (feature_of num_nodes links []) (physical_nodes s) ->
  node_features s' = imap (feature_of num_nodes links []) (physical_nodes s').
Proof.
  revert s. induction vs as [|v vs IH]; simpl; intros s H Hf.
  - by injection H as <-.
  - inv_bind H. apply (IH _ H).
    apply map_step_cases in E as [[_ ->]|(? & sel & ? & n & f & _ & Hn & Hfs & ->)];
      [done|].
    simpl. rewrite imap_insert, <- Hf. f_equal.
    rewrite Hf, list_lookup_imap, Hn in Hfs. simpl in Hfs.
    by injection Hfs as <-.
Qed.

End Report.

(** X19. What [main] reports. The committed mappings name virtual nodes of
    the request, in request order; the physical node reported for each is the
    [id] of a node of the substrate; every name of the request is among the
    committed mappings or in the unmapped set, and no name is in both. *)
Theorem X19_report_partitions_the_request
    (nodes : list physical_node) (links : list physical_link)
    (virtual_nodes : list virtual_node) (policy_net : policy) (g : rng)
    (results : list (string * string)) (unmapped : gset string) :
  main nodes links virtual_nodes policy_net g = Ok (results, unmapped) ->
  map fst results `sublist_of` map node virtual_nodes /\
  (forall name id, (name, id) ∈ results -> exists n, n ∈ nodes /\ node_id n = id) /\
  (forall name, name ∈ map node virtual_nodes <->
                name ∈ map fst results \/ name ∈ unmapped) /\
  (forall name, name ∈ unmapped -> name ∉ map fst results).
Proof.
  intros Hmain. unfold main in Hmain. inv_bind Hmain. rename a into s.
  injection Hmain as <- <-.
  unfold run_session in E. inv_bind E. rename a into s0.
  pose proof (Session.init_session_Ok _ _ _ _ E0) as (Hn & Hm & Hres & _ & Hinv & _).
  destruct (Ledger.map_steps_ledger policy_net virtual_nodes s0 s Hinv E)
    as (pairs & Hsub & _ & Hres' & _ & _ & Hidx & _).
  rewrite Hres in Hres'. simpl in Hres'. rewrite Hn in *.
  assert (Hnames : map fst (mapping_results s) = map node (map fst pairs)).
  { rewrite Hres', !map_map. apply map_ext. by intros [v sel]. }
  assert (Hsubl : map fst (mapping_results s) `sublist_of` map node virtual_nodes).
  { rewrite Hnames. by apply (fmap_sublist node). }
  split_and!.
  - done.
  - intros name id Hin. rewrite Hres' in Hin.
    apply list_elem_of_fmap in Hin as ([v sel] & [= -> ->] & Hp).
    specialize (Hidx _ Hp). simpl in Hidx.
    destruct (lookup_lt_is_Some_2 nodes sel Hidx) as [n Hsel].
    exists n. rewrite Hsel. split; [by eapply list_elem_of_lookup_2|done].
  - intros name. unfold unmapped_virtual_nodes.
    rewrite elem_of_difference, !elem_of_list_to_set. split.
    + intros Hin.
      destruct (decide (name ∈ map fst (mapping_results s))); [by left|by right].
    + intros [Hin|[Hin _]]; [|done].
      by apply (sublist_subseteq _ _ Hsubl).
  - intros name. unfold unmapped_virtual_nodes.
    rewrite elem_of_difference, !elem_of_list_to_set. tauto.
Qed.

Lemma X19_report_partitions_the_request_witness :
  map fst [("a", "node_2"); ("c", "node_2")] `sublist_of` map node ex_request /\
  (forall name id, (name, id) ∈ [("a", "node_2"); ("c", "node_2")] ->
                   exists n, n ∈ ex_nodes /\ node_id n = id) /\
  (forall name, name ∈ map node ex_request <->
                name ∈ map fst [("a", "node_2"); ("c", "node_2")]
                \/ name ∈ ({["b"]} : gset string)) /\
  (forall name, name ∈ ({["b"]} : gset string) ->
                name ∉ map fst [("a", "node_2"); ("c", "node_2")]).
Proof.
  apply (X19_report_partitions_the_request ex_nodes ex_links ex_request uniform ghalf).
  vm_compute. reflexivity.
Defined.

(** X20. The feature rows that the loop keeps up to date are, in every
    state, what [get_node_features_matrix] computes from the current
    physical nodes with an empty mapped set: overwriting ['CPU Resources'] of
    the selected node agrees with a fresh extraction in every column but the
    Distance Correlation, which stays that of the empty mapped set. *)
Theorem X20_features_are_a_fresh_extraction_without_mapped_set
    (nodes : list physical_node) (links : list physical_link)
    (policy_net : policy) (g : rng) (processed : list virtual_node) (s : session) :
  reached nodes links policy_net g processed s ->
  FeatureExtractor.get_node_features_matrix (physical_nodes s) links []
  = Ok (node_features s).
Proof.
  intros (s0 & H0 & Hs).
  pose proof (Session.init_session_Ok _ _ _ _ H0) as (Hn & _ & _ & _ & Hinv & _).
  unfold init_session in H0. inv_bind H0. rename a into nf. injection H0 as <-.
  simpl in *.
  pose proof (Report.features_matrix_Ok_links _ _ _ _ E) as Hr.
  assert (Hnil : forall N m, m ∈ ([] : list nat) -> (m < N)%nat)
    by (by intros ? ? ?%elem_of_nil).
  rewrite Matrix.features_matrix_spec in E by auto. injection E as <-.
  pose proof (Report.map_steps_features (length nodes) links policy_net processed
                _ s Hs eq_refl) as Hf.
  destruct (Ledger.map_steps_ledger policy_net processed _ s Hinv Hs)
    as (_ & _ & _ & _ & _ & Hlen & _).
  simpl in Hlen.
  rewrite Matrix.features_matrix_spec by (rewrite ?Hlen; auto).
  by rewrite Hf, Hlen.
Qed.

Lemma X20_features_are_a_fresh_extraction_without_mapped_set_witness :
  FeatureExtractor.get_node_features_matrix (physical_nodes ex_session_a) ex_links []
  = Ok (node_features ex_session_a).
Proof.
  apply (X20_features_are_a_fresh_extraction_without_mapped_set ex_nodes ex_links
           uniform ghalf [vn "a" 8] ex_session_a).
  exists ex_session. split; reflexivity.
Defined.

Module Progress.
Import Session.

(** A step on a substrate without nodes. *)
Lemma map_steps_empty (policy_net : policy) (vs : list virtual_node) (s : session) :
  node_features s = [] -> vs ≠ [] ->
  map_steps policy_net vs s = Raise RuntimeError.
Proof.
  intros Hnf Hvs. destruct vs as [|v vs]; [done|]. cbn [map_steps].
  unfold map_step. by rewrite Hnf.
Qed.

Lemma commit_length (s : session) (v_node : virtual_node) (sel : nat)
    (n : physical_node) (f : node_feature) (g' : rng) :
  length (node_features (commit s v_node sel n f g')) = length (node_features s).
Proof. simpl. by rewrite length_insert. Qed.

(** The outcomes of a step in a state that satisfies the invariant. *)
Lemma map_step_outcomes (policy_net : policy) (v_node : virtual_node) (s : session) :
  session_inv s -> node_features s ≠ [] ->
  (exists s', map_step policy_net v_node s = Ok s' /\ session_inv s' /\
              length (node_features s') = length (node_features s)) \/
  map_step policy_net v_node s = Raise IndexError \/
  map_step policy_net v_node s = Raise ZeroDivisionError.
Proof.
  intros Hinv Hnf.
  destruct (Decision.outcomes (node_features s) policy_net (cpu_req v_node)
              (random_state s))
    as [[? _]|[(_ & _ & E)|[(_ & _ & E)|[(_ & _ & _ & E)|[(_ & _ & _ & _ & E)
       |(_ & _ & _ & _ & i & sel & _ & E & _)]]]]]; [done|..].
  - left. exists s. unfold map_step. by rewrite E.
  - right. left. unfold map_step. by rewrite E.
  - right. right. unfold map_step. by rewrite E.
  - left. exists s. unfold map_step. by rewrite E.
  - left. destruct (map_step_commit policy_net v_node s _ sel _ Hinv E)
      as (n & f & _ & _ & _ & Hstep).
    eexists. split_and!; [exact Hstep|by apply commit_inv|apply commit_length].
Qed.

Lemma map_steps_outcomes (policy_net : policy) (vs : list virtual_node) (s : session) :
  session_inv s -> node_features s ≠ [] ->
  (exists s', map_steps policy_net vs s = Ok s') \/
  map_steps policy_net vs s = Raise IndexError \/
  map_steps policy_net vs s = Raise ZeroDivisionError.
Proof.
  revert s. induction vs as [|v vs IH]; intros s Hinv Hnf; cbn [map_steps];
    [eauto|].
  destruct (map_step_outcomes policy_net v s Hinv Hnf)
    as [(s' & -> & Hinv' & Hlen)|[->| ->]]; cbn [mbind result_bind]; auto.
  apply IH; [done|]. intros E. rewrite E in Hlen.
  destruct (node_features s); done.
Qed.

(** A step with a policy whose scores are above zero: the division by the
    sum is defined. *)
Lemma map_step_positive (policy_net : policy) (v_node : virtual_node) (s : session) :
  session_inv s -> node_features s ≠ [] ->
  positive_policy (length (node_features s)) policy_net ->
  exists s', map_step policy_net v_node s = Ok s' /\ session_inv s' /\
             length (node_features s') = length (node_features s).
Proof.
  intros Hinv Hnf Hpol.
  destruct (Hpol (map feature_row (node_features s))) as [Hlen Hpos];
    [by rewrite length_map|].
  assert (Hlt : forall i, i ∈ eligible_from 0 (node_features s) (cpu_req v_node) ->
                          (i < length (node_features s))%nat).
  { intros i Hi. apply Decision.elem_of_eligible_from in Hi as (_ & f & Hf & _).
    rewrite Nat.sub_0_r in Hf. by apply lookup_lt_Some in Hf. }
  destruct (Decision.outcomes (node_features s) policy_net (cpu_req v_node)
              (random_state s))
    as [[? _]|[(_ & _ & E)|[(_ & Hnp & _)|[(He & Hp & Hz & _)|[(_ & _ & _ & _ & E)
       |(_ & _ & _ & _ & i & sel & _ & E & _)]]]]]; [done|..].
  - exists s. unfold map_step. by rewrite E.
  - exfalso. apply Hnp. intros i Hi. apply Hlt in Hi. lia.
  - exfalso. rewrite Float.pos_nonzero in Hz; [done|].
    apply Float.sum_float_pos.
    + unfold scores_at. intros Hnil. by apply map_eq_nil in Hnil.
    + intros q Hq. unfold scores_at in Hq.
      apply list_elem_of_fmap in Hq as (i & -> & Hi).
      destruct (lookup_lt_is_Some_2 _ _ (Hp i Hi)) as [p Hpi]. rewrite Hpi.
      simpl. eapply Hpos; [by apply Hlt|done].
  - exists s. unfold map_step. by rewrite E.
  - destruct (map_step_commit policy_net v_node s _ sel _ Hinv E)
      as (n & f & _ & _ & _ & Hstep).
    eexists. split_and!; [exact Hstep|by apply commit_inv|apply commit_length].
Qed.

(** The state on entry to the loop, when the links join existing nodes. *)
Lemma init_session_spec (nodes : list physical_node) (links : list physical_link)
    (g : rng) :
  Incidence.links_in_range (length nodes) links ->
  exists s0, init_session nodes links g = Ok s0 /\ session_inv s0 /\
             length (node_features s0) = length nodes.
Proof.
  intros Hr. unfold init_session.
  rewrite Matrix.features_matrix_spec by (done || by intros ? ?%elem_of_nil).
  cbn [mbind result_bind]. eexists. split; [done|]. split.
  - unfold session_inv. simpl. apply list_eq. intros i.
    rewrite !list_lookup_fmap, list_lookup_imap. by destruct (nodes !! i).
  - simpl. by rewrite length_imap.
Qed.

Lemma init_session_error (nodes : list physical_node) (links : list physical_link)
    (g : rng) :
  ~ Incidence.links_in_range (length nodes) links ->
  init_session nodes links g = Raise IndexError.
Proof.
  intros Hr. unfold init_session, FeatureExtractor.get_node_features_matrix,
    FeatureExtractor.get_adjacent_link_bandwidth.
  rewrite Arrays.adj_bandwidth_loop_error by (by rewrite length_replicate).
  done.
Qed.

End Progress.

(** X21. On a substrate that has a node and whose links join existing
    nodes, with a policy that gives every node a score above zero, as a
    softmax does unless it underflows, the division by the sum of the
    eligible scores is always defined, and the session completes for every
    request and every random source: [main] returns its report. *)
Theorem X21_session_completes_with_positive_scores
    (nodes : list physical_node) (links : list physical_link)
    (virtual_nodes : list virtual_node) (policy_net : policy) (g : rng) :
  nodes ≠ [] ->
  Incidence.links_in_range (length nodes) links ->
  positive_policy (length nodes) policy_net ->
  exists results unmapped,
    main nodes links virtual_nodes policy_net g = Ok (results, unmapped).
Proof.
  intros Hne Hr Hpol. unfold main, run_session.
  destruct (Progress.init_session_spec nodes links g Hr) as (s0 & -> & Hinv & Hlen).
  cbn [mbind result_bind].
  assert (Hall : forall vs s, session_inv s ->
            length (node_features s) = length nodes ->
            exists s', map_steps policy_net vs s = Ok s').
  { induction vs as [|v vs IH]; intros s Hinv' Hlen'; cbn [map_steps]; [eauto|].
    destruct (Progress.map_step_positive policy_net v s Hinv')
      as (s1 & -> & Hinv1 & Hlen1).
    - intros E. rewrite E in Hlen'. destruct nodes; done.
    - by rewrite Hlen'.
    - cbn [mbind result_bind]. apply IH; [done|congruence]. }
  destruct (Hall virtual_nodes s0 Hinv Hlen) as [s' ->].
  cbn [mbind result_bind]. eauto.
Qed.

Lemma ex_nodes_nonempty : ex_nodes ≠ [].
Proof. discriminate. Qed.

(** On three nodes every uniform score is a third. *)
Lemma uniform_positive : positive_policy (length ex_nodes) uniform.
Proof.
  intros rows Hlen.
  destruct rows as [|r1 [|r2 [|r3 [|r4 rows]]]]; try discriminate Hlen.
  split; [simpl; lia|].
  intros i p Hi Hp. destruct i as [|[|[|i]]]; simpl in Hi; try lia;
    injection Hp as <-; reflexivity.
Qed.

Lemma X21_session_completes_with_positive_scores_witness :
  exists results unmapped,
    main ex_nodes ex_links ex_request uniform ghalf = Ok (results, unmapped).
Proof.
  exact (X21_session_completes_with_positive_scores ex_nodes ex_links ex_request
           uniform ghalf ex_nodes_nonempty ex_links_ok uniform_positive).
Defined.

(** X22. [main] handles every [ValueError] itself: whatever the substrate,
    the request, the policy and the random source, it returns its report or
    fails with [IndexError] (a link end at or beyond the number of nodes, or
    a missing score), with [ZeroDivisionError] (eligible scores of float sum
    [0.0]) or with torch's [RuntimeError], which it raises exactly when the
    substrate has no node and no link and the request is not empty; and the
    loops of the search and of the selection always come to an end. *)
Theorem X22_failures_of_main
    (nodes : list physical_node) (links : list physical_link)
    (virtual_nodes : list virtual_node) (policy_net : policy) (g : rng) :
  ((exists report, main nodes links virtual_nodes policy_net g = Ok report) \/
   main nodes links virtual_nodes policy_net g = Raise IndexError \/
   main nodes links virtual_nodes policy_net g = Raise ZeroDivisionError \/
   main nodes links virtual_nodes policy_net g = Raise RuntimeError) /\
  (main nodes links virtual_nodes policy_net g = Raise RuntimeError <->
   nodes = [] /\ links = [] /\ virtual_nodes ≠ []) /\
  (~ Incidence.links_in_range (length nodes) links ->
   main nodes links virtual_nodes policy_net g = Raise IndexError).
Proof.
  unfold main, run_session.
  destruct (Arrays.links_in_range_dec (length nodes) links) as [Hr|Hr].
  2:{ rewrite (Progress.init_session_error nodes links g Hr).
      cbn [mbind result_bind]. split_and!; [auto| |done].
      split; [done|]. intros (-> & -> & _). exfalso. apply Hr.
      by intros ? ?%elem_of_nil. }
  destruct (Progress.init_session_spec nodes links g Hr) as (s0 & -> & Hinv & Hlen).
  cbn [mbind result_bind].
  destruct (decide (node_features s0 = [])) as [Hnf|Hnf].
  - assert (Hn : nodes = []).
    { rewrite Hnf in Hlen. destruct nodes; done. }
    assert (Hl : links = []).
    { subst nodes. destruct links as [|link links]; [done|].
      destruct (Hr link) as [Hs _]; [by left|]. simpl in Hs. lia. }
    destruct virtual_nodes as [|v vs].
    + cbn [map_steps mbind result_bind]. split_and!; [eauto| |done].
      split; [done|]. by intros (_ & _ & ?).
    + rewrite (Progress.map_steps_empty policy_net (v :: vs) s0 Hnf) by done.
      cbn [mbind result_bind]. split_and!; [auto|done|done].
  - assert (Hn : nodes ≠ []).
    { intros ->. simpl in Hlen. destruct (node_features s0); done. }
    destruct (Progress.map_steps_outcomes policy_net virtual_nodes s0 Hinv Hnf)
      as [[s' ->]|[->| ->]]; cbn [mbind result_bind];
      (split_and!; [eauto| |done]); (split; [done|by intros (? & _)]).
Qed.

(** X23. Capacities never increase while the requests are non-negative: a
    node that lacks the capacity for a requirement lacks it for the rest of
    the session, so that, on a substrate that has a node, once a virtual
    node has found no eligible node, every later virtual node that asks for
    at least as much finds none. *)
Theorem X23_exhaustion_is_permanent
    (nodes : list physical_node) (links : list physical_link)
    (policy_net : policy) (g : rng) (before between : list virtual_node)
    (s s' : session) (v_node later : virtual_node) :
  reached nodes links policy_net g before s ->
  physical_nodes s ≠ [] ->
  (forall n, n ∈ physical_nodes s -> cpu_capacity n < cpu_req v_node) ->
  (forall v, v ∈ between -> 0 <= cpu_req v) ->
  map_steps policy_net between s = Ok s' ->
  cpu_req v_node <= cpu_req later ->
  (forall j n n', physical_nodes s !! j = Some n -> physical_nodes s' !! j = Some n' ->
                  cpu_capacity n' <= cpu_capacity n) /\
  eligible_from 0 (node_features s') (cpu_req later) = [] /\
  map_virtual_node (node_features s') policy_net (cpu_req later) (random_state s')
    = Raise ValueError /\
  map_step policy_net later s' = Ok s'.
Proof.
  intros Hr Hne Hnone Hnn Hs Hle.
  pose proof (Session.reached_inv _ _ _ _ _ _ Hr) as Hinv.
  pose proof (Session.map_steps_inv _ _ _ _ Hs Hinv) as Hinv'.
  destruct (Ledger.map_steps_ledger policy_net between s s' Hinv Hs)
    as (pairs & Hsub & _ & _ & _ & Hlen & _ & Hcap).
  assert (Halloc : forall j, 0 <= allocated pairs j).
  { assert (Hreq : forall p, p ∈ pairs -> 0 <= cpu_req (fst p)).
    { intros p Hp. apply Hnn. apply (sublist_subseteq _ _ Hsub).
      apply list_elem_of_fmap. eauto. }
    clear -Hreq. induction pairs as [|[v sel] pairs IH]; intros j; simpl; [lia|].
    assert (0 <= cpu_req v) by (apply (Hreq (v, sel)); by left).
    assert (0 <= allocated pairs j) by (apply IH; intros; apply Hreq; by right).
    destruct (decide (sel = j)); lia. }
  assert (Hmono : forall j n n', physical_nodes s !! j = Some n ->
                    physical_nodes s' !! j = Some n' ->
                    cpu_capacity n' <= cpu_capacity n).
  { intros j n n' Hn Hn'. destruct (Hcap j n Hn) as (n'' & Hn'' & Hc & _).
    rewrite Hn' in Hn''. injection Hn'' as <-. specialize (Halloc j). lia. }
  assert (Hnf : node_features s' ≠ []).
  { apply Session.features_nonempty; [done|]. intros E. rewrite E in Hlen.
    destruct (physical_nodes s); done. }
  assert (Hel : eligible_from 0 (node_features s') (cpu_req later) = []).
  { apply Session.eligible_none; [done|].
    intros n' [j Hj]%list_elem_of_lookup.
    assert (Hlt : (j < length (physical_nodes s))%nat)
      by (rewrite <- Hlen; by eapply lookup_lt_Some).
    destruct (lookup_lt_is_Some_2 _ _ Hlt) as [n Hn].
    specialize (Hmono j n n' Hn Hj).
    assert (cpu_capacity n < cpu_req v_node)
      by (apply Hnone; by eapply list_elem_of_lookup_2).
    lia. }
  split_and!; [done|done|by apply Decision.map_virtual_node_none
              |by apply Session.map_step_none].
Qed.

Lemma X23_exhaustion_is_permanent_witness :
  (forall j n n', physical_nodes ex_session_a !! j = Some n ->
                  physical_nodes ex_session_c !! j = Some n' ->
                  cpu_capacity n' <= cpu_capacity n) /\
  eligible_from 0 (node_features ex_session_c) 40 = [] /\
  map_virtual_node (node_features ex_session_c) uniform 40
    (random_state ex_session_c) = Raise ValueError /\
  map_step uniform (vn "d" 40) ex_session_c = Ok ex_session_c.
Proof.
  apply (X23_exhaustion_is_permanent ex_nodes ex_links uniform ghalf
           [vn "a" 8] [vn "c" 8] ex_session_a ex_session_c (vn "b" 30) (vn "d" 40)).
  - exists ex_session. split; reflexivity.
  - discriminate.
  - intros n H. repeat (apply elem_of_cons in H as [->|H]; [simpl; lia|]).
    by apply elem_of_nil in H.
  - intros v H. repeat (apply elem_of_cons in H as [->|H]; [simpl; lia|]).
    by apply elem_of_nil in H.
  - reflexivity.
  - simpl. lia.
Defined.

(** ** Further properties of the Distance Correlation and of the filter *)

Module Zero.
Import FeatureExtractor Graph.

Lemma sum_Z_nonneg (l : list Z) :
  (forall x, x ∈ l -> 0 <= x) ->
  0 <= sum_Z l /\ (sum_Z l = 0 <-> forall x, x ∈ l -> x = 0).
Proof.
  induction l as [|x l IH]; intros H.
  - split; [done|]. split; [by intros _ ? ?%elem_of_nil|done].
  - rewrite Arrays.sum_Z_cons.
    assert (0 <= x) by (apply H; by left).
    destruct IH as [Hs Hz]; [intros; apply H; by right|].
    split; [lia|]. split.
    + intros Hsum y [->|Hy]%elem_of_cons; [lia|]. apply Hz; [lia|done].
    + intros Hall. rewrite (Hall x) by (by left).
      rewrite (proj2 Hz) by (intros; apply Hall; by right). done.
Qed.

Lemma avg_distance_zero (ds : list Z) :
  (forall x, x ∈ ds -> 0 <= x) ->
  (0 <= avg_distance ds)%Q /\
  ((avg_distance ds == 0)%Q <-> forall x, x ∈ ds -> x = 0).
Proof.
  intros Hnn. destruct (decide (ds = [])) as [->|Hne0].
  - simpl. split; [apply Qle_refl|]. split; [by intros _ ? ?%elem_of_nil|reflexivity].
  - assert (Hlen : 0 < Z.of_nat (length ds)) by (destruct ds; simpl; [done|lia]).
    assert (Havg : avg_distance ds
                   = (inject_Z (sum_Z ds) / inject_Z (Z.of_nat (length ds)))%Q)
      by (by destruct ds).
    rewrite Havg. clear Havg.
    destruct (sum_Z_nonneg ds Hnn) as [Hs Hz].
    assert (Hpos : (0 < inject_Z (Z.of_nat (length ds)))%Q)
      by (by rewrite (Zlt_Qlt 0) in Hlen).
    assert (Hne : ~ (inject_Z (Z.of_nat (length ds)) == 0)%Q)
      by (intros Heq; rewrite Heq in Hpos; by apply Qlt_irrefl in Hpos).
    split.
    + apply Qle_shift_div_l; [done|]. rewrite Qmult_0_l. by rewrite <- (Zle_Qle 0).
    + rewrite <- Hz. split.
      * intros Hq. apply (inject_Z_injective _ 0).
        rewrite <- (Qmult_div_r (inject_Z (sum_Z ds)) _ Hne), Hq. ring.
      * intros ->. unfold Qdiv. ring.
Qed.

End Zero.

(** X24. A Distance Correlation entry is never negative, and it is zero
    exactly when no mapped node other than [k] is reachable from [k]: a zero
    entry cannot tell an empty mapped set from a mapped set that is out of
    reach. *)
Theorem X24_distance_correlation_zero
    (nodes : list physical_node) (adjacency : gmap nat (list nat))
    (mapped : list nat) :
  Graph.adjacency_in_range (length nodes) adjacency ->
  (forall m, m ∈ mapped -> (m < length nodes)%nat) ->
  exists dc,
    FeatureExtractor.get_distance_correlation nodes adjacency mapped = Ok dc /\
    forall k, (k < length nodes)%nat ->
      exists q, dc !! k = Some q /\ (0 <= q)%Q /\
        ((q == 0)%Q <->
         forall m, m ∈ mapped -> m ≠ k -> ~ Graph.reachable adjacency k m).
Proof.
  intros Hadj Hm. eexists. split; [by apply BFS.get_distance_correlation_spec|].
  intros k Hk. eexists. split; [by rewrite list_lookup_fmap, lookup_seq_lt|].
  destruct (Zero.avg_distance_zero
              (map (Graph.bfs_distance (length nodes) adjacency k)
                   (filter (fun m => m ≠ k) mapped))) as [Hnn Hz].
  { intros x (m & -> & _)%list_elem_of_fmap. by apply Metric.bfs_distance_nonneg. }
  split; [done|]. rewrite Hz. split.
  - intros Hall m Hin Hne Hr.
    assert (Hd : Graph.bfs_distance (length nodes) adjacency k m = 0).
    { apply Hall. apply list_elem_of_fmap. exists m. split; [done|].
      by apply list_elem_of_filter. }
    apply Metric.bfs_distance_zero in Hd as [->|Hn]; done.
  - intros Hall x (m & -> & [Hne Hin]%list_elem_of_filter)%list_elem_of_fmap.
    apply Metric.bfs_distance_zero; [done..|]. right. by apply Hall.
Qed.

Lemma X24_distance_correlation_zero_witness :
  exists dc,
    FeatureExtractor.get_distance_correlation split_nodes
      (FeatureExtractor.build_adjacency_list split_links) [1; 2]%nat = Ok dc /\
    forall k, (k < 3)%nat ->
      exists q, dc !! k = Some q /\ (0 <= q)%Q /\
        ((q == 0)%Q <->
         forall m, m ∈ [1; 2]%nat -> m ≠ k ->
           ~ Graph.reachable (FeatureExtractor.build_adjacency_list split_links) k m).
Proof.
  apply (X24_distance_correlation_zero split_nodes
           (FeatureExtractor.build_adjacency_list split_links) [1; 2]%nat).
  - apply BFS.build_adjacency_list_in_range. exact split_links_in_range.
  - exact split_mapped_in_range.
Defined.


(** X25. The two lists that the filter of [map_virtual_node] builds stay
    aligned: the eligible indices come in increasing order, without
    repetition, each is an index of a feature row with enough CPU, and the
    score at the same position of the other list is the policy's score for
    that index. *)
Theorem X25_eligible_lists_are_aligned
    (nf : list node_feature) (probs : list float) (req : Z)
    (en : list nat) (ep : list float) :
  eligible_loop 0 nf probs req [] [] = Ok (en, ep) ->
  length ep = length en /\
  (forall j1 j2 i1 i2, (j1 < j2)%nat -> en !! j1 = Some i1 -> en !! j2 = Some i2 ->
                       (i1 < i2)%nat) /\
  (forall j i, en !! j = Some i ->
     (exists f, nf !! i = Some f /\ req <= CPU_Resources f) /\
     exists p, ep !! j = Some p /\ probs !! i = Some p).
Proof.
  intros H. rewrite Decision.eligible_loop_spec in H. inv_bind H.
  injection H as <- <-. simpl. split_and!.
  - by eapply mapM_Ok_length.
  - intros j1 j2 i1 i2. apply Decision.eligible_from_increasing.
  - intros j i Hj. split.
    + pose proof (list_elem_of_lookup_2 _ _ _ Hj) as Hin.
      apply Decision.elem_of_eligible_from in Hin as (_ & f & Hf & Hc).
      rewrite Nat.sub_0_r in Hf. eauto.
    + destruct (mapM_Ok_lookup _ _ _ _ _ E Hj) as (p & Hp & Hg).
      apply getitem_Ok in Hg. eauto.
Qed.

Lemma X25_eligible_lists_are_aligned_witness :
  length [1 / 3; 1 / 3]%float = length [0; 2]%nat /\
  (forall j1 j2 i1 i2, (j1 < j2)%nat -> [0; 2]%nat !! j1 = Some i1 ->
                       [0; 2]%nat !! j2 = Some i2 -> (i1 < i2)%nat) /\
  (forall j i, [0; 2]%nat !! j = Some i ->
     (exists f, node_features ex_session !! i = Some f /\ 8 <= CPU_Resources f) /\
     exists p, [1 / 3; 1 / 3]%float !! j = Some p /\
               uniform (map feature_row (node_features ex_session)) !! i = Some p).
Proof.
  apply (X25_eligible_lists_are_aligned (node_features ex_session)
           (uniform (map feature_row (node_features ex_session))) 8).
  reflexivity.
Defined.

(** X26. In every state of the loop the mapped set holds indices of
    physical nodes, so that [get_node_features_matrix] called on the current
    physical nodes with the current mapped set returns a matrix; that matrix
    has the rows in use in every column but the Distance Correlation, which
    in the rows in use is [0.0]. *)
Theorem X26_extraction_with_the_mapped_set_succeeds
    (nodes : list physical_node) (links : list physical_link)
    (policy_net : policy) (g : rng) (processed : list virtual_node) (s : session) :
  reached nodes links policy_net g processed s ->
  (forall m, m ∈ mapped_nodes s -> (m < length (physical_nodes s))%nat) /\
  exists fresh,
    FeatureExtractor.get_node_features_matrix (physical_nodes s) links
      (mapped_nodes s) = Ok fresh /\
    length fresh = length (node_features s) /\
    forall i f f', node_features s !! i = Some f -> fresh !! i = Some f' ->
      Node f' = Node f /\ CPU_Resources f' = CPU_Resources f /\
      Adjacent_Bandwidth f' = Adjacent_Bandwidth f /\
      Time_Correlation f' = Time_Correlation f /\ Security f' = Security f /\
      Distance_Correlation f = 0%Q.
Proof.
  intros (s0 & H0 & Hs).
  pose proof (Session.init_session_Ok _ _ _ _ H0) as (Hn & Hm0 & _ & _ & Hinv & _).
  unfold init_session in H0. inv_bind H0. rename a into nf. injection H0 as <-.
  simpl in *.
  pose proof (Report.features_matrix_Ok_links _ _ _ _ E) as Hr.
  rewrite Matrix.features_matrix_spec in E
    by (done || by intros ? ?%elem_of_nil).
  injection E as <-.
  pose proof (Report.map_steps_features (length nodes) links policy_net processed
                _ s Hs eq_refl) as Hf.
  destruct (Ledger.map_steps_ledger policy_net processed _ s Hinv Hs)
    as (pairs & _ & Hm & _ & _ & Hlen & Hidx & _).
  simpl in Hm, Hlen, Hidx.
  assert (Hmapped : forall m, m ∈ mapped_nodes s ->
            (m < length (physical_nodes s))%nat).
  { intros m Hin. rewrite Hm in Hin.
    apply list_elem_of_fmap in Hin as (p & -> & Hp). rewrite Hlen. by apply Hidx. }
  split; [done|].
  eexists. split; [apply Matrix.features_matrix_spec; [by rewrite Hlen|done]|].
  split; [by rewrite Hf, !length_imap|].
  intros i f f' Hi Hi'. rewrite Hf, list_lookup_imap in Hi.
  rewrite list_lookup_imap in Hi'.
  destruct (physical_nodes s !! i) as [n|]; [|done]. simpl in Hi, Hi'.
  injection Hi as <-. injection Hi' as <-. done.
Qed.

Lemma X26_extraction_with_the_mapped_set_succeeds_witness :
  (forall m, m ∈ mapped_nodes ex_session_c ->
             (m < length (physical_nodes ex_session_c))%nat) /\
  exists fresh,
    FeatureExtractor.get_node_features_matrix (physical_nodes ex_session_c) ex_links
      (mapped_nodes ex_session_c) = Ok fresh /\
    length fresh = length (node_features ex_session_c) /\
    forall i f f', node_features ex_session_c !! i = Some f -> fresh !! i = Some f' ->
      Node f' = Node f /\ CPU_Resources f' = CPU_Resources f /\
      Adjacent_Bandwidth f' = Adjacent_Bandwidth f /\
      Time_Correlation f' = Time_Correlation f /\ Security f' = Security f /\
      Distance_Correlation f = 0%Q.
Proof.
  apply (X26_extraction_with_the_mapped_set_succeeds ex_nodes ex_links uniform ghalf
           ex_request ex_session_c).
  exists ex_session. split; reflexivity.
Defined.

(** ** Scores above zero *)

(** X27. When every eligible node has a score above zero, the float sum of
    the eligible scores is above zero, so that the division is defined:
    [map_virtual_node] raises neither [ZeroDivisionError] nor [IndexError].
    It selects an eligible node, unless the total of the quotients is not
    positive and finite, which [random.choices] answers with the
    [ValueError] that [main] catches. *)
Theorem X27_positive_scores_are_divided
    (nf : list node_feature) (policy_net : policy) (req : Z) (g : rng) :
  let probs := policy_net (map feature_row nf) in
  let en := eligible_from 0 nf req in
  let scores := scores_at probs en in
  en ≠ [] ->
  (forall i, i ∈ en -> exists p, probs !! i = Some p /\ (0 <? p)%float = true) ->
  (0 <? sum_float scores)%float = true /\
  normalize scores (sum_float scores) = Ok (quotients scores) /\
  ((usable (total_weight (quotients scores)) = false /\
    map_virtual_node nf policy_net req g = Raise ValueError) \/
   (usable (total_weight (quotients scores)) = true /\
    exists sel, map_virtual_node nf policy_net req g
                = Ok (probs, sel, snd (random g)) /\ sel ∈ en)).
Proof.
  intros probs en scores Hne Hpos.
  assert (Hsum : (0 <? sum_float scores)%float = true).
  { apply Float.sum_float_pos.
    - unfold scores, scores_at. intros Hnil. by apply map_eq_nil in Hnil.
    - intros q Hq. unfold scores, scores_at in Hq.
      apply list_elem_of_fmap in Hq as (i & -> & Hi).
      destruct (Hpos i Hi) as (p & -> & Hp). done. }
  pose proof (Float.pos_nonzero _ Hsum) as Hnz.
  split_and!; [done|by apply Decision.normalize_nonzero|].
  destruct (Decision.outcomes nf policy_net req g)
    as [[Hnf _]|[(_ & He & _)|[(_ & Hnp & _)|[(_ & _ & Hz & _)
       |[(_ & _ & _ & Hu & E)|(_ & _ & _ & Hu & i & sel & Hsel & E & _)]]]]].
  - exfalso. by apply Hne, Decision.eligible_from_nil.
  - done.
  - exfalso. apply Hnp. intros i Hi. destruct (Hpos i Hi) as (p & Hp & _).
    by eapply lookup_lt_Some.
  - fold probs en scores in Hz. congruence.
  - left. done.
  - right. split; [done|]. exists sel. split; [done|].
    by eapply list_elem_of_lookup_2.
Qed.

(** Capacities [10, 5, 20], [cpu_req = 8] and uniform scores: a node of
    [0; 2] is selected. *)
Lemma X27_positive_scores_are_divided_witness :
  (0 <? sum_float [1 / 3; 1 / 3])%float = true /\
  normalize [1 / 3; 1 / 3]%float (sum_float [1 / 3; 1 / 3]%float)
    = Ok [0.5; 0.5]%float.
Proof.
  destruct (X27_positive_scores_are_divided (node_features ex_session) uniform 8
              ghalf) as (Hsum & Hn & _).
  - discriminate.
  - intros i Hi. vm_compute in Hi.
    repeat (apply elem_of_cons in Hi as [->|Hi]; [eexists; split; reflexivity|]).
    by apply elem_of_nil in Hi.
  - split; [exact Hsum|exact Hn].
Defined.

(** Scores above zero do not exclude the [ValueError]: the sum of two
    scores of [1e308] is plus infinity, both quotients are [0.0], and their
    total is not positive. *)
Example ex_positive_scores_overflow :
  sum_float [1e308; 1e308]%float = infinity /\
  quotients [1e308; 1e308]%float = [0; 0]%float /\
  usable (total_weight (quotients [1e308; 1e308]%float)) = false /\
  Random.choices [0; 1]%nat (quotients [1e308; 1e308]%float) ghalf
    = Raise ValueError.
Proof. split_and!; reflexivity. Qed.
